(** * Cross Road Game: lanes, obstacles, player and level session

    A shallow embedding of the simulation core of the game
    (obstacle.py, player.py, level.py) together with the properties its
    specification states about it.

    Modelling conventions.
    - Python [int] is [Z].  A Python [float] is a double: its value is a
      rational [Q], and a float operation is the exact operation followed by
      the rounding [fl] to the nearest double (53 bits, ties to even), so
      [a + b] on floats is [fadd a b], and a decimal literal [c] of the
      source is [fl c].  The exponent range of the doubles is not modelled:
      there is no overflow, underflow, infinity or NaN.  [int(f)] on a float
      truncates toward zero and is [py_int]; [float(n)] is [inject_Z], exact
      for the integers up to [2^53].
    - The roundings are written out wherever a float is accumulated or
      truncated to an [int] from frame to frame: the obstacles' displacement,
      the spawn timer, the level clock, the player's cooldown, the sizes of
      the cars and of the player's rectangle, and the offset of the
      background.  The lane centres, the player's position and the pads of
      the hitboxes are written with the exact operations: the positions are
      whole or half numbers, on which the double operations are exact, and
      the pads are the truncated double products on every size below 2000
      ([hitbox_pads_doubles]).  The generator's formulas are written with
      exact decimal arithmetic, as the specification states them; the
      doubles that the code stores can differ from these values in the last
      bit.
    - [pygame.Rect] holds four integers; its derived attributes
      ([right], [centery], ...) and the methods used by the game
      ([inflate], [colliderect]) are written out in [Module Rect].
    - The ambient [random] module and the outcome of asset loading are the
      explicit [World]; code that draws random numbers lives in the state
      monad [Rand].
    - Drawing code, sprites and the scrolling background have no effect on
      the simulation state and are left out, except for the fields that the
      constructors fill.
    - The buttons, the star row of the end overlay, the road background and
      the state machine of the main loop (ui.py, road_bg.py, main.py) are
      modelled after the level, for the further properties at the end. *)

From Stdlib Require Import ZArith QArith Qminmax Qround Qpower Lia Lqa List Bool.
From Stdlib Require Import Permutation Sorted.
From Stdlib Require String DecimalString.
Import ListNotations.

Import String.StringSyntax.
Delimit Scope string_scope with string.

Local Open Scope Z_scope.

(** ** Python numbers *)

(** [int(f)] for a float [f]: truncation toward zero. *)
Definition py_int (q : Q) : Z := Z.quot (Qnum q) (Zpos (Qden q)).

(** [float(n)] for an int [n]. *)
Definition py_float (n : Z) : Q := inject_Z n.

(** ** Doubles

    [fl x] is the double nearest to the rational [x]: the significand is the
    nearest integer of 53 bits, a tie going to the even one. *)

(** [2^e] for an integer exponent [e]. *)
Definition pow2 (e : Z) : Q := (2 ^ e)%Q.

(** The binary exponent of a positive [x]: the [k] with
    [2^k <= x < 2^(k+1)]. *)
Definition ilog2 (x : Q) : Z :=
  let k := Z.log2 (Qnum x) - Z.log2 (Zpos (Qden x)) in
  if Qle_bool (pow2 k) x then k else k - 1.

(** The nearest integer, a tie going to the even one. *)
Definition rne (s : Q) : Z :=
  let f := Qfloor s in
  match Qcompare (s - inject_Z f) (1 # 2) with
  | Lt => f
  | Gt => f + 1
  | Eq => if Z.even f then f else f + 1
  end.

(** The double nearest to a positive [x]. *)
Definition fl_pos (x : Q) : Q :=
  let e := ilog2 x - 52 in
  (inject_Z (rne (x * pow2 (- e))) * pow2 e)%Q.

(** The double nearest to [x]. *)
Definition fl (x : Q) : Q :=
  match Qcompare x 0 with
  | Eq => 0%Q
  | Gt => fl_pos x
  | Lt => (- fl_pos (- x))%Q
  end.

(** [a + b], [a - b] and [a * b] on floats. *)
Definition fadd (a b : Q) : Q := fl (a + b).
Definition fsub (a b : Q) : Q := fl (a - b).
Definition fmul (a b : Q) : Q := fl (a * b).

(** The unit roundoff of the doubles. *)
Definition u53 : Q := pow2 (-53).

Arguments fl : simpl never.
Arguments fadd : simpl never.
Arguments fsub : simpl never.
Arguments fmul : simpl never.

(** ** The random source and the loaded assets *)

(** [draws] is the sequence of raw outcomes of the generator and [cursor]
    the number of outcomes already consumed.  [car_images] is what
    [_load_car_images] returned (the four sprites, or [[]] when loading
    failed) and [chicken_sprite] tells whether the player's sprite loaded. *)
Record World := mkWorld {
  draws : nat -> Z;
  cursor : nat;
  car_images : list nat;
  chicken_sprite : bool
}.

Definition Rand (A : Type) : Type := World -> A * World.

Definition ret {A} (a : A) : Rand A := fun w => (a, w).

Definition bind {A B} (m : Rand A) (f : A -> Rand B) : Rand B :=
  fun w => let (a, w') := m w in f a w'.

Declare Scope rand_scope.
Delimit Scope rand_scope with rand.
Notation "x <- m ;; k" := (bind m (fun x => k))
  (at level 61, m at next level, right associativity) : rand_scope.

Definition next_draw : Rand Z :=
  fun w => (draws w (cursor w),
            mkWorld (draws w) (S (cursor w)) (car_images w) (chicken_sprite w)).

Definition loaded_car_images : Rand (list nat) := fun w => (car_images w, w).

(** [random.randint(a, b)], for [a <= b]. *)
Definition randint (a b : Z) : Rand Z :=
  (d <- next_draw ;; ret (a + d mod (b - a + 1)))%rand.

(** [random.choice(seq)] for a non-empty [seq]; [dflt] is never returned
    then. *)
Definition choice {A} (dflt : A) (seq : list A) : Rand A :=
  (d <- next_draw ;;
   ret (nth (Z.to_nat (d mod Z.of_nat (length seq))) seq dflt))%rand.

Fixpoint replicateM {A} (n : nat) (m : Rand A) : Rand (list A) :=
  match n with
  | O => ret []
  | S n' => (a <- m ;; l <- replicateM n' m ;; ret (a :: l))%rand
  end.

Fixpoint mapM {A B} (f : A -> Rand B) (l : list A) : Rand (list B) :=
  match l with
  | [] => ret []
  | a :: l' => (b <- f a ;; bs <- mapM f l' ;; ret (b :: bs))%rand
  end.

(** ** Lists as Python uses them *)

(** [list.sort(key=...)] is stable: equal keys keep their order.  Any stable
    sort returns the list computed here. *)
Fixpoint insert_by {A} (key : A -> Z) (a : A) (l : list A) : list A :=
  match l with
  | [] => [a]
  | b :: l' => if key a <=? key b then a :: l else b :: insert_by key a l'
  end.

Fixpoint sort_by {A} (key : A -> Z) (l : list A) : list A :=
  match l with
  | [] => []
  | a :: l' => insert_by key a (sort_by key l')
  end.

(** [min(seq, key=..., default=None)]: the first element with the least
    key. *)
Definition min_by {A} (key : A -> Z) (l : list A) : option A :=
  match l with
  | [] => None
  | a :: l' =>
      Some (fold_left (fun best b => if key b <? key best then b else best) l' a)
  end.

(** [max(seq, key=..., default=None)]: the first element with the greatest
    key. *)
Definition max_by {A} (key : A -> Z) (l : list A) : option A :=
  match l with
  | [] => None
  | a :: l' =>
      Some (fold_left (fun best b => if key best <? key b then b else best) l' a)
  end.

(** ** pygame.Rect *)

Module Rect.

Record t := mk { x : Z; y : Z; width : Z; height : Z }.

Definition left (r : t) : Z := x r.
Definition top (r : t) : Z := y r.
Definition right (r : t) : Z := x r + width r.
Definition bottom (r : t) : Z := y r + height r.

(** [centery] is [y + height / 2], the half rounded down. *)
Definition centery (r : t) : Z := y r + height r / 2.

(** Assigning [r.x], [r.left] or [r.right] moves the rectangle and keeps
    its size. *)
Definition set_x (r : t) (v : Z) : t := mk v (y r) (width r) (height r).
Definition set_left (r : t) (v : Z) : t := set_x r v.
Definition set_right (r : t) (v : Z) : t := set_x r (v - width r).

(** [r.inflate(dx, dy)]: the size grows by [(dx, dy)] around the centre;
    the halves are C integer divisions. *)
Definition inflate (r : t) (dx dy : Z) : t :=
  mk (x r - Z.quot dx 2) (y r - Z.quot dy 2) (width r + dx) (height r + dy).

(** [a.colliderect(b)]: rectangles of zero width or height collide with
    nothing; otherwise the (normalised) open intervals must meet on both
    axes. *)
Definition colliderect (a b : t) : bool :=
  if (width a =? 0) || (height a =? 0) || (width b =? 0) || (height b =? 0)
  then false
  else
    (Z.min (x a) (x a + width a) <? Z.max (x b) (x b + width b)) &&
    (Z.min (y a) (y a + height a) <? Z.max (y b) (y b + height b)) &&
    (Z.max (x a) (x a + width a) >? Z.min (x b) (x b + width b)) &&
    (Z.max (y a) (y a + height a) >? Z.min (y b) (y b + height b)).

End Rect.

(** ** Obstacle (obstacle.py) *)

Module Obstacle.

Definition fallback_colors : list (Z * Z * Z) :=
  [(255, 92, 92); (255, 165, 70); (255, 120, 210); (120, 255, 160)].

Record t := mk {
  rect : Rect.t;
  speed : Q;
  direction : Z;
  _base_image : option nat;
  color : Z * Z * Z
}.

(** [Obstacle.__init__]. *)
Definition __init__ (r : Rect.t) (spd : Q) (dir : Z) : Rand t :=
  (imgs <- loaded_car_images ;;
   img <- match imgs with
          | [] => ret None
          | i :: _ => (c <- choice i imgs ;; ret (Some c))
          end ;;
   col <- choice (0, 0, 0) fallback_colors ;;
   ret (mk r spd (if 0 <=? dir then 1 else -1) img col))%rand.

(** The amount added to [rect.x] by [update]:
    [int(self.direction * self.speed * dt)], a double product truncated. *)
Definition displacement (o : t) (dt : Q) : Z :=
  py_int (fmul (fmul (inject_Z (direction o)) (speed o)) dt).

(** [Obstacle.update]. *)
Definition update (o : t) (dt : Q) : t :=
  mk (Rect.set_x (rect o) (Rect.x (rect o) + displacement o dt))
     (speed o) (direction o) (_base_image o) (color o).

End Obstacle.

(** ** Lane (obstacle.py) *)

Module Lane.

Record t := mk {
  rect : Rect.t;
  direction : Z;
  speed : Q;
  spawn_every : Q;
  obstacle_width : Z;
  obstacle_height : Z;
  min_gap : Z;
  obstacles : list Obstacle.t;
  _spawn_timer : Q
}.

(** [Lane.__init__]. *)
Definition __init__ (r : Rect.t) (dir : Z) (spd every : Q) (ow oh gap : Z) : t :=
  mk r (if 0 <=? dir then 1 else -1) spd every ow oh gap [] 0.

Definition with_obstacles (l : t) (obs : list Obstacle.t) : t :=
  mk (rect l) (direction l) (speed l) (spawn_every l) (obstacle_width l)
     (obstacle_height l) (min_gap l) obs (_spawn_timer l).

Definition with_spawn_timer (l : t) (tm : Q) : t :=
  mk (rect l) (direction l) (speed l) (spawn_every l) (obstacle_width l)
     (obstacle_height l) (min_gap l) (obstacles l) tm.

Definition key_x (o : Obstacle.t) : Z := Rect.x (Obstacle.rect o).
Definition key_left (o : Obstacle.t) : Z := Rect.left (Obstacle.rect o).
Definition key_right (o : Obstacle.t) : Z := Rect.right (Obstacle.rect o).

(** The test of [reset] on a candidate rectangle [r] against an accepted
    one [p]. *)
Definition clear_of (gap : Z) (r p : Rect.t) : bool :=
  (Rect.right r + gap <=? Rect.left p) || (Rect.left r >=? Rect.right p + gap).

(** The seeding loop of [reset] over the sorted candidates. *)
Fixpoint place (l : t) (y seed_count : Z) (candidates : list Z)
  (placed : list Rect.t) : list Rect.t :=
  match candidates with
  | [] => placed
  | x :: rest =>
      if Z.of_nat (length placed) >=? seed_count then placed
      else
        let r := Rect.mk x y (obstacle_width l) (obstacle_height l) in
        if forallb (clear_of (min_gap l) r) placed
        then place l y seed_count rest (placed ++ [r])
        else place l y seed_count rest placed
  end.

(** [Lane.reset]. *)
Definition reset (l : t) : Rand t :=
  (seed_count <- randint 1 3 ;;
   candidates <- replicateM 40
     (randint 0 (Z.max 0 (Rect.width (rect l) - obstacle_width l))) ;;
   let candidates := sort_by (fun x => x) candidates in
   let y := Rect.centery (rect l) - obstacle_height l / 2 in
   let placed := place l y seed_count candidates [] in
   obs <- mapM (fun r => Obstacle.__init__ r (speed l) (direction l)) placed ;;
   ret (with_obstacles (with_spawn_timer l 0) (sort_by key_x obs)))%rand.

(** [Lane._can_spawn]. *)
Definition _can_spawn (l : t) (screen_width : Z) : bool :=
  if direction l >? 0 then
    let spawn_x := - obstacle_width l - 20 in
    match min_by key_left (obstacles l) with
    | None => true
    | Some nearest => Rect.left (Obstacle.rect nearest) - spawn_x >=? min_gap l
    end
  else
    let spawn_x := screen_width + 20 in
    match max_by key_right (obstacles l) with
    | None => true
    | Some nearest => spawn_x - Rect.right (Obstacle.rect nearest) >=? min_gap l
    end.

(** The x coordinate chosen by [_spawn]. *)
Definition spawn_x (l : t) (screen_width : Z) : Z :=
  if direction l >? 0 then
    let base_x := - obstacle_width l - 20 in
    match min_by key_left (obstacles l) with
    | Some nearest =>
        Z.min base_x
          (Rect.left (Obstacle.rect nearest) - min_gap l - obstacle_width l)
    | None => base_x
    end
  else
    let base_x := screen_width + 20 in
    match max_by key_right (obstacles l) with
    | Some nearest =>
        Z.max base_x (Rect.right (Obstacle.rect nearest) + min_gap l)
    | None => base_x
    end.

(** [Lane._spawn]. *)
Definition _spawn (l : t) (screen_width : Z) : Rand t :=
  let y := Rect.centery (rect l) - obstacle_height l / 2 in
  let r := Rect.mk (spawn_x l screen_width) y
             (obstacle_width l) (obstacle_height l) in
  (o <- Obstacle.__init__ r (speed l) (direction l) ;;
   ret (with_obstacles l (obstacles l ++ [o])))%rand.

Definition move_right_edge (o : Obstacle.t) (v : Z) : Obstacle.t :=
  Obstacle.mk (Rect.set_right (Obstacle.rect o) v) (Obstacle.speed o)
    (Obstacle.direction o) (Obstacle._base_image o) (Obstacle.color o).

Definition move_left_edge (o : Obstacle.t) (v : Z) : Obstacle.t :=
  Obstacle.mk (Rect.set_left (Obstacle.rect o) v) (Obstacle.speed o)
    (Obstacle.direction o) (Obstacle._base_image o) (Obstacle.color o).

(** The correction pass of a lane moving right: the loop runs from the
    second rightmost obstacle down to the leftmost one, each time against the
    already corrected obstacle in front. *)
Fixpoint push_back_right (gap : Z) (obs : list Obstacle.t) : list Obstacle.t :=
  match obs with
  | [] => []
  | back :: rest =>
      let rest' := push_back_right gap rest in
      match rest' with
      | [] => [back]
      | front :: _ =>
          let desired_right := Rect.left (Obstacle.rect front) - gap in
          (if Rect.right (Obstacle.rect back) >? desired_right
           then move_right_edge back desired_right else back) :: rest'
      end
  end.

(** The correction pass of a lane moving left: the loop runs from the second
    leftmost obstacle to the rightmost one, [front] being the corrected
    predecessor. *)
Fixpoint push_back_left_from (gap : Z) (front : Obstacle.t)
  (obs : list Obstacle.t) : list Obstacle.t :=
  match obs with
  | [] => []
  | back :: rest =>
      let desired_left := Rect.right (Obstacle.rect front) + gap in
      let back' := if Rect.left (Obstacle.rect back) <? desired_left
                   then move_left_edge back desired_left else back in
      back' :: push_back_left_from gap back' rest
  end.

Definition push_back_left (gap : Z) (obs : list Obstacle.t) : list Obstacle.t :=
  match obs with
  | [] => []
  | front :: rest => front :: push_back_left_from gap front rest
  end.

(** The first half of [update]: move, correct the gaps, drop what left the
    screen. *)
Definition advance_obstacles (l : t) (dt : Q) (screen_width : Z)
  : list Obstacle.t :=
  let moved := map (fun o => Obstacle.update o dt) (obstacles l) in
  let spaced :=
    if Z.of_nat (length moved) >? 1 then
      let sorted := sort_by key_x moved in
      if direction l >? 0 then push_back_right (min_gap l) sorted
      else push_back_left (min_gap l) sorted
    else moved in
  if direction l >? 0
  then filter (fun o => Rect.left (Obstacle.rect o) <? screen_width + 200) spaced
  else filter (fun o => Rect.right (Obstacle.rect o) >? -200) spaced.

(** [Lane.update]. *)
Definition update (l : t) (dt : Q) (screen_width : Z) : Rand t :=
  let l1 := with_obstacles l (advance_obstacles l dt screen_width) in
  let l2 := with_spawn_timer l1 (fadd (_spawn_timer l1) dt) in
  if Qle_bool (spawn_every l2) (_spawn_timer l2) then
    let l3 := with_spawn_timer l2 0 in
    if _can_spawn l3 screen_width then _spawn l3 screen_width else ret l3
  else ret l2.

(** A sequence of [update(dt, screen_width)] calls, and the same after a
    [reset()]. *)
Fixpoint updates (l : t) (calls : list (Q * Z)) : Rand t :=
  match calls with
  | [] => ret l
  | (dt, sw) :: rest => (l' <- update l dt sw ;; updates l' rest)%rand
  end.

Definition reset_then_updates (l : t) (calls : list (Q * Z)) : Rand t :=
  (l0 <- reset l ;; updates l0 calls)%rand.

End Lane.

(** ** The level generator (level.py) *)

Record LaneConfig := mkLaneConfig {
  cfg_direction : Z;
  cfg_speed : Q;
  cfg_spawn_every : Q;
  cfg_width : Z;
  cfg_gap_min : Z
}.

Record LevelConfig := mkLevelConfig {
  cfg_name : String.string;
  cfg_lane_count : Z;
  cfg_lane_height : Z;
  cfg_finish_padding : Z;
  cfg_player_step : Z;
  cfg_player_speed : Z;
  cfg_star_times_3 : Q;
  cfg_star_times_2 : Q;
  cfg_lanes : list LaneConfig
}.

(** [range(n)]. *)
Definition range (n : Z) : list Z := map Z.of_nat (seq 0 (Z.to_nat n)).

(** The body of the loop of [_make_level] for level [n] and lane [i].  The
    literal 1.25 is a double, as are 8.0, 12.0, 13.0 and 20.0 below. *)
Definition make_lane (n i : Z) : LaneConfig :=
  let direction := if i mod 2 =? 0 then 1 else -1 in
  let speed := 170 + (n - 1) * 28 + i * 6 in
  let spawn_every :=
    Qmax (fl 0.55)
      (fsub (fsub 1.25 (fmul (inject_Z (n - 1)) (fl 0.06)))
         (fmul (inject_Z i) (fl 0.01))) in
  let width := 120 - (n - 1) * 3 in
  let width := Z.max 70 (Z.min 130 width) in
  let gap_min := Z.max 95 (165 - (n - 1) * 6 - i * 1) in
  mkLaneConfig direction (py_float speed) spawn_every width gap_min.

(** [_make_level]. *)
Definition _make_level (level_num : Z) : LevelConfig :=
  let n := Z.max 1 (Z.min 10 level_num) in
  let lane_height := 70 - (n - 1) in
  let lane_count := 5 + n in
  let three_star := Qmax 8.0 (fsub 13.0 (fmul (inject_Z (n - 1)) (fl 0.4))) in
  let two_star := Qmax 12.0 (fsub 20.0 (fmul (inject_Z (n - 1)) (fl 0.45))) in
  let lanes := map (make_lane n) (range lane_count) in
  mkLevelConfig
    (String.append "Level " (DecimalString.NilZero.string_of_int (Z.to_int n)))%string
    lane_count lane_height (Z.max 22 (32 - n)) lane_height
    (420 + (n - 1) * 10) three_star two_star lanes.

(** [LEVELS]. *)
Definition LEVELS : list LevelConfig := map _make_level [1; 2; 3; 4; 5].

(** ** Input events *)

Inductive key :=
| K_UP | K_DOWN | K_LEFT | K_RIGHT
| K_w | K_a | K_s | K_d
| K_ESCAPE | K_r
| K_other (code : Z).

Inductive event :=
| KEYDOWN (k : key)
| KEYUP (k : key)
| QUIT
| OTHER_EVENT (type : Z).

(** ** Player (player.py) *)

Module Player.

Record t := mk {
  start_x : Z;
  start_y : Z;
  radius : Z;
  speed : Q;
  step : Z;
  bounds : Z * Z * Z * Z;
  x : Q;
  y : Q;
  _move_cooldown : Q;
  _cooldown_time : Q;
  _sprite : option (Z * Z)
}.

(** [Player.__init__]: the sprite is the scaled image when it could be
    loaded and scaled, [None] otherwise. *)
Definition __init__ (x0 y0 r : Z) (spd : Q) (stp : Z) (bnds : Z * Z * Z * Z)
  : Rand t :=
  fun w =>
    let sprite_size := (r * 2 + 10, r * 2 + 10) in
    let spr := if chicken_sprite w && (0 <=? r * 2 + 10)
               then Some sprite_size else None in
    (mk x0 y0 r spd stp bnds (py_float x0) (py_float y0) 0 (fl 0.09) spr, w).

Definition with_position (p : t) (nx ny : Q) (cd : Q) : t :=
  mk (start_x p) (start_y p) (radius p) (speed p) (step p) (bounds p)
     nx ny cd (_cooldown_time p) (_sprite p).

(** [Player.reset]. *)
Definition reset (p : t) : t :=
  with_position p (py_float (start_x p)) (py_float (start_y p)) 0.

(** [Player.rect]. *)
Definition rect (p : t) : Rect.t :=
  match _sprite p with
  | Some (w, h) =>
      let shrink_x := py_int (fmul (inject_Z w) (fl 0.28)) in
      let shrink_y := py_int (fmul (inject_Z h) (fl 0.32)) in
      let cw := Z.max 8 (w - shrink_x) in
      let ch := Z.max 8 (h - shrink_y) in
      Rect.mk (py_int (x p - inject_Z cw / 2)) (py_int (y p - inject_Z ch / 2))
        cw ch
  | None =>
      let r := radius p in
      let shrink := Z.max 0 (py_int (fmul (inject_Z r) (fl 0.35))) in
      let cr := Z.max 6 (r - shrink) in
      Rect.mk (py_int (x p - inject_Z cr)) (py_int (y p - inject_Z cr))
        (cr * 2) (cr * 2)
  end.

(** The [(dx, dy)] chosen by the [if]/[elif] chain on [event.key]. *)
Definition key_step (p : t) (k : key) : Z * Z :=
  match k with
  | K_UP | K_w => (0, - step p)
  | K_DOWN | K_s => (0, step p)
  | K_LEFT | K_a => (- step p, 0)
  | K_RIGHT | K_d => (step p, 0)
  | _ => (0, 0)
  end.

(** One iteration of the event loop of [update]. *)
Definition handle_event (p : t) (e : event) : t :=
  match e with
  | KEYDOWN k =>
      if Qle_bool (_move_cooldown p) 0 then
        let (dx, dy) := key_step p k in
        if negb (dx =? 0) || negb (dy =? 0) then
          with_position p (x p + inject_Z dx) (y p + inject_Z dy)
            (_cooldown_time p)
        else p
      else p
  | _ => p
  end.

(** The clamping at the end of [update]. *)
Definition clamp (p : t) : t :=
  let '(left_, top_, width_, height_) := bounds p in
  let right_ := left_ + width_ in
  let bottom_ := top_ + height_ in
  with_position p
    (Qmax (inject_Z (left_ + radius p))
       (Qmin (inject_Z (right_ - radius p)) (x p)))
    (Qmax (inject_Z (top_ + radius p))
       (Qmin (inject_Z (bottom_ - radius p)) (y p)))
    (_move_cooldown p).

Definition tick_cooldown (p : t) (dt : Q) : t :=
  with_position p (x p) (y p) (Qmax 0.0 (fsub (_move_cooldown p) dt)).

(** [Player.update]. *)
Definition update (p : t) (dt : Q) (events : list event) : t :=
  clamp (fold_left handle_event events (tick_cooldown p dt)).

(** A sequence of [update] calls. *)
Definition updates (p : t) (calls : list (Q * list event)) : t :=
  fold_left (fun q c => update q (fst c) (snd c)) calls p.

End Player.

(** ** Level (level.py) *)

Module Level.

Record t := mk {
  config : LevelConfig;
  screen_width : Z;
  screen_height : Z;
  lane_height : Z;
  lane_count : Z;
  finish_padding : Z;
  safe_zone_height : Z;
  player : Player.t;
  lanes : list Lane.t;
  _time_elapsed : Q;
  _running : bool;
  _won : bool;
  _lost : bool
}.

(** [enumerate(seq)]. *)
Definition enumerate {A} (l : list A) : list (Z * A) :=
  combine (range (Z.of_nat (length l))) l.

(** [car_height] and [car_width] of the lane loop: double products,
    truncated. *)
Definition car_height (lane_h : Z) : Z :=
  Z.max 26 (py_int (fmul (inject_Z lane_h) (fl 1.15))).

Definition car_width (lane_h : Z) : Z :=
  Z.max 90 (py_int (fmul (inject_Z (car_height lane_h)) (fl 1.49))).

(** The body of the lane loop of [Level.__init__]. *)
Definition make_lane (screen_w screen_h safe_zone lane_h : Z)
  (entry : Z * LaneConfig) : Lane.t :=
  let (i, lane_cfg) := entry in
  let lane_y_center :=
    (inject_Z (screen_h - safe_zone) - (inject_Z i + 0.5) * inject_Z lane_h)%Q in
  let lane_rect :=
    Rect.mk 0 (py_int (lane_y_center - inject_Z lane_h / 2)) screen_w lane_h in
  Lane.__init__ lane_rect (cfg_direction lane_cfg) (cfg_speed lane_cfg)
    (cfg_spawn_every lane_cfg) (car_width lane_h) (car_height lane_h)
    (cfg_gap_min lane_cfg).

(** [Level.__init__]. *)
Definition __init__ (cfg : LevelConfig) (screen_size : Z * Z) : Rand t :=
  let (screen_w, screen_h) := screen_size in
  let lane_h := cfg_lane_height cfg in
  let safe_zone := lane_h in
  let start_x := screen_w / 2 in
  let start_y := screen_h - safe_zone / 2 in
  (p <- Player.__init__ start_x start_y 18 (py_float (cfg_player_speed cfg)) lane_h
         (0, 0, screen_w, screen_h) ;;
   ret (mk cfg screen_w screen_h lane_h (cfg_lane_count cfg)
          (cfg_finish_padding cfg) safe_zone p
          (map (make_lane screen_w screen_h safe_zone lane_h)
             (enumerate (cfg_lanes cfg)))
          0 false false false))%rand.

Definition with_state (s : t) (p : Player.t) (ls : list Lane.t) (tm : Q)
  (r w l : bool) : t :=
  mk (config s) (screen_width s) (screen_height s) (lane_height s)
     (lane_count s) (finish_padding s) (safe_zone_height s) p ls tm r w l.

(** [Level.start]. *)
Definition start (s : t) : Rand t :=
  (ls <- mapM Lane.reset (lanes s) ;;
   ret (with_state s (Player.reset (player s)) ls 0 true false false))%rand.

(** The properties [time_elapsed], [is_won] and [is_lost]. *)
Definition time_elapsed (s : t) : Q := _time_elapsed s.
Definition is_won (s : t) : bool := _won s.
Definition is_lost (s : t) : bool := _lost s.

(** [Level.stars_earned]. *)
Definition stars_earned (s : t) : Z :=
  if negb (_won s) then 0
  else
    let t := _time_elapsed s in
    let t3 := cfg_star_times_3 (config s) in
    let t2 := cfg_star_times_2 (config s) in
    if Qle_bool t t3 then 3
    else if Qle_bool t t2 then 2
    else 1.

(** [Level._finish_line_y]. *)
Definition _finish_line_y (s : t) : Z :=
  let road_top :=
    screen_height s - safe_zone_height s - lane_count s * lane_height s in
  road_top.

(** The shrunken hitbox of an obstacle, as [update] computes it. *)
Definition hitbox (obs : Obstacle.t) : Rect.t :=
  let pad_x :=
    Z.max 6 (py_int (inject_Z (Rect.width (Obstacle.rect obs)) * 0.16)) in
  let pad_y :=
    Z.max 4 (py_int (inject_Z (Rect.height (Obstacle.rect obs)) * 0.20)) in
  Rect.inflate (Obstacle.rect obs) (- pad_x) (- pad_y).

(** The collision loops of [update]: [true] as soon as one obstacle of one
    lane is hit, lanes and obstacles taken in list order. *)
Definition collides (player_rect : Rect.t) (ls : list (list Obstacle.t))
  : bool :=
  existsb (existsb (fun obs => Rect.colliderect player_rect (hitbox obs))) ls.

(** [Level.update].  The call [road_bg.update(dt)] only moves the background
    picture; it returns on every screen of non-zero width (see
    [ScrollingRoadBackground.update] for width zero). *)
Definition update (s : t) (dt : Q) (events : list event) : Rand t :=
  if negb (_running s) || _won s || _lost s then ret s
  else
    let tm := fadd (_time_elapsed s) dt in
    let p := Player.update (player s) dt events in
    (ls <- mapM (fun lane => Lane.update lane dt (screen_width s)) (lanes s) ;;
     let player_rect := Player.rect p in
     if collides player_rect (map Lane.obstacles ls) then
       ret (with_state s p ls tm false (_won s) true)
     else if Qle_bool (Player.y p) (inject_Z (_finish_line_y s)) then
       ret (with_state s p ls tm false true (_lost s))
     else ret (with_state s p ls tm (_running s) (_won s) (_lost s)))%rand.

(** The operations a caller can apply to a level. *)
Inductive op :=
| Start
| Update (dt : Q) (events : list event).

Definition apply (s : t) (o : op) : Rand t :=
  match o with
  | Start => start s
  | Update dt events => update s dt events
  end.

Fixpoint run (s : t) (ops : list op) : Rand t :=
  match ops with
  | [] => ret s
  | o :: rest => (s' <- apply s o ;; run s' rest)%rand
  end.

(** A session: a level is built from a configuration and then driven by
    [start] and [update] calls. *)
Definition session (cfg : LevelConfig) (screen_size : Z * Z) (ops : list op)
  : Rand t :=
  (s <- __init__ cfg screen_size ;; run s ops)%rand.

End Level.

(** ** More of pygame.Rect: the centre and point tests

    The halves of the centre are rounded down, as for [centery]. *)

Module RectMore.

Definition centerx (r : Rect.t) : Z := Rect.x r + Rect.width r / 2.

Definition center (r : Rect.t) : Z * Z := (centerx r, Rect.centery r).

(** Assigning [r.center] moves the rectangle and keeps its size. *)
Definition set_center (r : Rect.t) (c : Z * Z) : Rect.t :=
  Rect.mk (fst c - Rect.width r / 2) (snd c - Rect.height r / 2)
    (Rect.width r) (Rect.height r).

(** [r.collidepoint(pos)]: the right and bottom edges are outside. *)
Definition collidepoint (r : Rect.t) (pos : Z * Z) : bool :=
  (fst pos >=? Rect.x r) && (fst pos <? Rect.x r + Rect.width r) &&
  (snd pos >=? Rect.y r) && (snd pos <? Rect.y r + Rect.height r).

End RectMore.

(** ** Events as the main loop sees them

    [pygame.event.get()] also returns mouse events; the player only looks at
    key events, for which a mouse event is an event of another type. *)

Inductive input :=
| MOUSEBUTTONDOWN (button : Z) (pos : Z * Z)
| EVENT (e : event).

Definition to_event (i : input) : event :=
  match i with
  | MOUSEBUTTONDOWN _ _ => OTHER_EVENT 1025
  | EVENT e => e
  end.

(** ** Button and UI (ui.py) *)

Module Button.

Record t := mk {
  text : String.string;
  rect : Rect.t;
  enabled : bool
}.

(** [Button.__init__]. *)
Definition __init__ (txt : String.string) (center size : Z * Z) : t :=
  mk txt (RectMore.set_center (Rect.mk 0 0 (fst size) (snd size)) center) true.

Definition with_enabled (b : t) (e : bool) : t := mk (text b) (rect b) e.

(** [Button.handle_event]. *)
Definition handle_event (b : t) (e : input) : bool :=
  if negb (enabled b) then false
  else
    match e with
    | MOUSEBUTTONDOWN button pos =>
        if button =? 1 then
          if RectMore.collidepoint (rect b) pos then true else false
        else false
    | EVENT _ => false
    end.

End Button.

Module UI.

(** The calls [_draw_star((x, cy), r_outer=28, r_inner=12, filled)] made by
    [UI._draw_stars], in order: centre, outer radius, inner radius, filled. *)
Definition _draw_stars (center : Z * Z) (stars : Z)
  : list ((Z * Z) * Z * Z * bool) :=
  let (cx, cy) := center in
  let spacing := 90 in
  map (fun i =>
         let x := cx + (i - 1) * spacing in
         let filled := i <? stars in
         ((x, cy), 28, 12, filled))
      (range 3).

(** The panel of [UI.draw_end_overlay] on a [w] x [h] screen and the stars
    it draws. *)
Definition end_panel (w h : Z) : Rect.t :=
  RectMore.set_center (Rect.mk 0 0 640 360) (w / 2, h / 2 - 40).

Definition draw_end_overlay_stars (w h : Z) (stars : Z)
  : list ((Z * Z) * Z * Z * bool) :=
  let panel := end_panel w h in
  _draw_stars (RectMore.centerx panel, Rect.top panel + 235) stars.

End UI.

(** ** ScrollingRoadBackground (road_bg.py) *)

(** [a % m] for a float [a] and an int [m]: [ZeroDivisionError] ([None]) when
    [m] is zero.  Otherwise C's [fmod] gives the exact remainder [r] with the
    sign of [a]; a zero remainder is returned as zero, a remainder whose sign
    differs from the sign of [m] is returned as the double sum [r + m], which
    can be [m] itself, and any other remainder as it is. *)
Definition py_fmod (a : Q) (m : Z) : option Q :=
  if m =? 0 then None
  else
    let w := py_float m in
    let r := (a - w * inject_Z (py_int (a / w)))%Q in
    if Qeq_bool r 0 then Some 0%Q
    else if xorb (m <? 0) (negb (Qle_bool 0 r)) then Some (fadd r w)
    else Some r.

Module ScrollingRoadBackground.

Record t := mk {
  screen_width : Z;
  screen_height : Z;
  scroll_speed : Q;
  _offset_x : Q;
  _lane_rects : list Rect.t
}.

(** [ScrollingRoadBackground.__init__]; [None] when the image cannot be
    loaded ([image_loads] is false) or scaled to a lane's size, which makes
    the constructor raise.  The [scroll_speed] argument is not stored. *)
Definition __init__ (image_loads : bool) (screen_size : Z * Z)
  (lane_rects : list Rect.t) (speed_arg : Q) : option t :=
  let (w, h) := screen_size in
  if image_loads && (0 <=? w)
     && forallb (fun r => 0 <=? Rect.height r) lane_rects
  then Some (mk w h 0.0 0.0 lane_rects)
  else None.

(** [ScrollingRoadBackground.update]. *)
Definition update (b : t) (dt : Q) : option t :=
  match py_fmod (fadd (_offset_x b) (fmul (scroll_speed b) dt))
          (screen_width b) with
  | Some off =>
      Some (mk (screen_width b) (screen_height b) (scroll_speed b) off
              (_lane_rects b))
  | None => None
  end.

Fixpoint updates (b : t) (dts : list Q) : option t :=
  match dts with
  | [] => Some b
  | dt :: rest =>
      match update b dt with
      | Some b' => updates b' rest
      | None => None
      end
  end.

(** The positions [(x1, r.top)] and [(x2, r.top)] at which [draw] blits the
    two copies of each lane's picture. *)
Definition draw (b : t) : list ((Z * Z) * (Z * Z)) :=
  let ox := py_int (_offset_x b) in
  map (fun r =>
         let x1 := - ox in
         let x2 := x1 + screen_width b in
         ((x1, Rect.top r), (x2, Rect.top r)))
      (_lane_rects b).

End ScrollingRoadBackground.

(** ** The main loop (main.py) *)

Module Main.

Definition SCREEN_WIDTH : Z := 900.
Definition SCREEN_HEIGHT : Z := 700.

Inductive state_t := STATE_HOME | STATE_PLAYING | STATE_WIN | STATE_LOSE.

(** The variables of [main] that outlive a frame.  [btn_next_enabled] is the
    [enabled] attribute of the Next Level button, the only button whose
    attribute is ever assigned. *)
Record t := mk {
  state : state_t;
  running : bool;
  level_index : Z;
  level : option Level.t;
  btn_next_enabled : bool
}.

Definition btn_start : Button.t :=
  Button.__init__ "Start"%string (SCREEN_WIDTH / 2, 360) (220, 55).
Definition btn_quit : Button.t :=
  Button.__init__ "Quit"%string (SCREEN_WIDTH / 2, 430) (220, 55).
Definition btn_home : Button.t :=
  Button.__init__ "Home"%string (SCREEN_WIDTH / 2, 430) (220, 55).
Definition btn_retry : Button.t :=
  Button.__init__ "Reattempt"%string (SCREEN_WIDTH / 2, 495) (220, 55).
Definition btn_next (a : t) : Button.t :=
  Button.with_enabled
    (Button.__init__ "Next Level"%string (SCREEN_WIDTH / 2, 560) (220, 55))
    (btn_next_enabled a).

(** The state of [main] when the loop is entered. *)
Definition initial : t := mk STATE_HOME true 0 None true.

Definition with_state (a : t) (st : state_t) : t :=
  mk st (running a) (level_index a) (level a) (btn_next_enabled a).

Definition with_running (a : t) (r : bool) : t :=
  mk (state a) r (level_index a) (level a) (btn_next_enabled a).

Definition with_level (a : t) (l : Level.t) : t :=
  mk (state a) (running a) (level_index a) (Some l) (btn_next_enabled a).

(** [start_level].  The index is in range after the clamp, so [LEVELS[...]]
    never raises and the default of [nth] is never returned. *)
Definition start_level (idx : Z) (a : t) : Rand t :=
  let level_index := Z.max 0 (Z.min idx (Z.of_nat (length LEVELS) - 1)) in
  (lvl <- Level.__init__ (nth (Z.to_nat level_index) LEVELS (_make_level 1))
            (SCREEN_WIDTH, SCREEN_HEIGHT) ;;
   lvl' <- Level.start lvl ;;
   ret (mk STATE_PLAYING (running a) level_index (Some lvl')
          (btn_next_enabled a)))%rand.

(** A loop over the frame's events, each handled in the state left by the
    previous one. *)
Fixpoint for_events (body : t -> input -> Rand t) (events : list input)
  (a : t) : Rand t :=
  match events with
  | [] => ret a
  | e :: rest => (a' <- body a e ;; for_events body rest a')%rand
  end.

(** The event loops of the three branches of the main loop. *)
Definition home_event (a : t) (e : input) : Rand t :=
  (a1 <- (if Button.handle_event btn_start e then start_level 0 a else ret a) ;;
   ret (if Button.handle_event btn_quit e then with_running a1 false else a1))%rand.

Definition playing_event (a : t) (e : input) : Rand t :=
  match e with
  | EVENT (KEYDOWN K_ESCAPE) => ret (with_state a STATE_HOME)
  | EVENT (KEYDOWN K_r) => start_level (level_index a) a
  | _ => ret a
  end.

Definition end_event (has_next : bool) (a : t) (e : input) : Rand t :=
  let a1 := if Button.handle_event btn_home e then with_state a STATE_HOME
            else a in
  (a2 <- (if Button.handle_event btn_retry e
          then start_level (level_index a1) a1 else ret a1) ;;
   if Button.handle_event (btn_next a2) e && has_next
   then start_level (level_index a2 + 1) a2 else ret a2)%rand.

Definition is_quit (e : input) : bool :=
  match e with
  | EVENT QUIT => true
  | _ => false
  end.

(** One iteration of the [while running] loop, for the frame time [dt]
    ([clock.tick(FPS) / 1000.0]) and the frame's events; [None] when an
    [assert level is not None] fails.  Drawing and sounds are left out. *)
Definition frame (dt : Q) (events : list input) (a : t) : Rand (option t) :=
  let a := if existsb is_quit events then with_running a false else a in
  match state a with
  | STATE_HOME =>
      (a' <- for_events home_event events a ;; ret (Some a'))%rand
  | STATE_PLAYING =>
      match level a with
      | None => ret None
      | Some _ =>
          (a1 <- for_events playing_event events a ;;
           match level a1 with
           | None => ret None
           | Some lvl =>
               (lvl' <- Level.update lvl dt (map to_event events) ;;
                let a2 := with_level a1 lvl' in
                if Level.is_won lvl' then ret (Some (with_state a2 STATE_WIN))
                else if Level.is_lost lvl'
                     then ret (Some (with_state a2 STATE_LOSE))
                     else ret (Some a2))
           end)%rand
      end
  | STATE_WIN | STATE_LOSE =>
      match level a with
      | None => ret None
      | Some _ =>
          let has_next :=
            (match state a with STATE_WIN => true | _ => false end)
            && (level_index a <? Z.of_nat (length LEVELS) - 1) in
          let a0 := mk (state a) (running a) (level_index a) (level a)
                      has_next in
          (a' <- for_events (end_event has_next) events a0 ;;
           ret (Some a'))%rand
      end
  end.

(** The stars handed to [draw_end_overlay] on the end screens. *)
Definition overlay_stars (a : t) : option Z :=
  match state a, level a with
  | STATE_WIN, Some lvl => Some (Level.stars_earned lvl)
  | STATE_LOSE, Some _ => Some 0
  | _, _ => None
  end.

(** The [while running] loop over a sequence of frames. *)
Fixpoint main_loop (frames : list (Q * list input)) (a : t)
  : Rand (option t) :=
  match frames with
  | [] => ret (Some a)
  | (dt, events) :: rest =>
      if running a then
        (r <- frame dt events a ;;
         match r with
         | Some a' => main_loop rest a'
         | None => ret None
         end)%rand
      else ret (Some a)
  end.

End Main.

(** ** Vocabulary of the properties *)

(** [post m P]: whatever the random source yields, the result of [m]
    satisfies [P]. *)
Definition post {A} (m : Rand A) (P : A -> Prop) : Prop :=
  forall w, P (fst (m w)).

(** Two rectangles of a lane are separated by at least [gap] along x: one
    ends at least [gap] before the other begins. *)
Definition separated (gap : Z) (a b : Rect.t) : Prop :=
  Rect.right a + gap <= Rect.left b \/ Rect.right b + gap <= Rect.left a.

Definition obstacles_separated (gap : Z) (a b : Obstacle.t) : Prop :=
  separated gap (Obstacle.rect a) (Obstacle.rect b).

(** Every two obstacles of the lane, at different places of its list, are
    separated by [min_gap]. *)
Definition gaps_respected (l : Lane.t) : Prop :=
  ForallOrdPairs (obstacles_separated (Lane.min_gap l)) (Lane.obstacles l).

(** In a list read from left to right, each obstacle ends at least [gap]
    before its successor begins. *)
Fixpoint adjacent_gaps (gap : Z) (obs : list Obstacle.t) : Prop :=
  match obs with
  | a :: (b :: _) as rest =>
      Rect.left (Obstacle.rect b) - Rect.right (Obstacle.rect a) >= gap /\
      adjacent_gaps gap rest
  | _ => True
  end.

(** The obstacles of a lane all carry the lane's speed, its (normalised)
    direction and its obstacle size. *)
Definition made_by (l : Lane.t) (o : Obstacle.t) : Prop :=
  Rect.width (Obstacle.rect o) = Lane.obstacle_width l /\
  Rect.height (Obstacle.rect o) = Lane.obstacle_height l /\
  Obstacle.speed o = Lane.speed l /\
  Obstacle.direction o = (if 0 <=? Lane.direction l then 1 else -1).

Definition uniform (l : Lane.t) : Prop := Forall (made_by l) (Lane.obstacles l).

(** An obstacle moved by [delta] pixels along x. *)
Definition translate (delta : Z) (o : Obstacle.t) : Obstacle.t :=
  Obstacle.mk (Rect.set_x (Obstacle.rect o) (Rect.x (Obstacle.rect o) + delta))
    (Obstacle.speed o) (Obstacle.direction o) (Obstacle._base_image o)
    (Obstacle.color o).

(** The displacement that [update(dt)] gives to every obstacle made by lane
    [l]. *)
Definition lane_displacement (l : Lane.t) (dt : Q) : Z :=
  py_int (fmul (fmul (inject_Z (if 0 <=? Lane.direction l then 1 else -1))
                  (Lane.speed l)) dt).

(** Two lanes that differ at most in their obstacles and spawn timer. *)
Definition same_lane (l l' : Lane.t) : Prop :=
  Lane.rect l' = Lane.rect l /\ Lane.direction l' = Lane.direction l /\
  Lane.speed l' = Lane.speed l /\ Lane.spawn_every l' = Lane.spawn_every l /\
  Lane.obstacle_width l' = Lane.obstacle_width l /\
  Lane.obstacle_height l' = Lane.obstacle_height l /\
  Lane.min_gap l' = Lane.min_gap l.

(** The keys that [Player.update] maps to a step. *)
Definition directional (k : key) : bool :=
  match k with
  | K_UP | K_w | K_DOWN | K_s | K_LEFT | K_a | K_RIGHT | K_d => true
  | _ => false
  end.


(** The axis and sense of a directional key, in screen coordinates (y grows
    downward). *)
Definition heading (k : key) : Z * Z :=
  match k with
  | K_UP | K_w => (0, -1)
  | K_DOWN | K_s => (0, 1)
  | K_LEFT | K_a => (-1, 0)
  | K_RIGHT | K_d => (1, 0)
  | _ => (0, 0)
  end.



(** [n] units of roundoff. *)
Definition roundoff (n : nat) : Q := (inject_Z (Z.of_nat n) * u53)%Q.

(** A coordinate clamped so that the player's circle stays within the
    bounds. *)
Definition clamped_x (p : Player.t) (v : Q) : Q :=
  let '(left_, _, width_, _) := Player.bounds p in
  Qmax (inject_Z (left_ + Player.radius p))
    (Qmin (inject_Z (left_ + width_ - Player.radius p)) v).

Definition clamped_y (p : Player.t) (v : Q) : Q :=
  let '(_, top_, _, height_) := Player.bounds p in
  Qmax (inject_Z (top_ + Player.radius p))
    (Qmin (inject_Z (top_ + height_ - Player.radius p)) v).

(** The lanes of a level keep their invariants and carry the obstacle size
    derived from the level's lane height. *)
Definition lane_ok (lane_h : Z) (lane : Lane.t) : Prop :=
  Lane.obstacle_width lane = Level.car_width lane_h /\
  Lane.obstacle_height lane = Level.car_height lane_h /\
  gaps_respected lane /\ uniform lane.

Definition lanes_ok (s : Level.t) : Prop :=
  Forall (lane_ok (Level.lane_height s)) (Level.lanes s).

(** A lane configuration with its [width] entry blanked, and a level
    configuration with every lane's [width] blanked: two configurations with
    the same image differ at most in the per-lane widths. *)
Definition forget_width (c : LaneConfig) : LaneConfig :=
  mkLaneConfig (cfg_direction c) (cfg_speed c) (cfg_spawn_every c) 0
    (cfg_gap_min c).

Definition forget_widths (c : LevelConfig) : LevelConfig :=
  mkLevelConfig (cfg_name c) (cfg_lane_count c) (cfg_lane_height c)
    (cfg_finish_padding c) (cfg_player_step c) (cfg_player_speed c)
    (cfg_star_times_3 c) (cfg_star_times_2 c) (map forget_width (cfg_lanes c)).

(** The level [s] with [c] stored as its configuration. *)
Definition set_config (s : Level.t) (c : LevelConfig) : Level.t :=
  Level.mk c (Level.screen_width s) (Level.screen_height s)
    (Level.lane_height s) (Level.lane_count s) (Level.finish_padding s)
    (Level.safe_zone_height s) (Level.player s) (Level.lanes s)
    (Level._time_elapsed s) (Level._running s) (Level._won s) (Level._lost s).

(** What every state of a session built from [cfg] satisfies. *)
Definition level_inv (cfg : LevelConfig) (s : Level.t) : Prop :=
  Level.lane_height s = cfg_lane_height cfg /\
  lanes_ok s /\
  ~ (Level._won s = true /\ Level._lost s = true).

(** [update] calls only. *)
Definition update_ops (calls : list (Q * list event)) : list Level.op :=
  map (fun c => Level.Update (fst c) (snd c)) calls.

(** ** Sample sessions *)

Definition sample_world : World :=
  mkWorld (fun n => Z.of_nat n * 7919 + 13) 0 [] false.

(** A call that presses key [k], and a call without input. *)
Definition press (dt : Q) (k : key) : Level.op := Level.Update dt [KEYDOWN k].
Definition wait (dt : Q) : Level.op := Level.Update dt [].

(** The level reached by building [cfg] on the 900 x 700 screen of main.py,
    starting it, and applying [ops]. *)
Definition play (cfg : LevelConfig) (ops : list Level.op) : Level.t :=
  fst (Level.session cfg (900, 700) (Level.Start :: ops) sample_world).

(** Level 1 with another number in every lane's [width] entry. *)
Definition level_1_other_widths : LevelConfig :=
  let c := _make_level 1 in
  mkLevelConfig (cfg_name c) (cfg_lane_count c) (cfg_lane_height c)
    (cfg_finish_padding c) (cfg_player_step c) (cfg_player_speed c)
    (cfg_star_times_3 c) (cfg_star_times_2 c)
    (map (fun l => mkLaneConfig (cfg_direction l) (cfg_speed l)
                     (cfg_spawn_every l) 77 (cfg_gap_min l)) (cfg_lanes c)).

(** ** Vocabulary of the further properties *)

(** The x range that the obstacles of a lane stay in, for a fixed screen
    width. *)
Definition lane_range (l : Lane.t) (screen_width : Z) : Z * Z :=
  if Lane.direction l >? 0
  then (- 2 * Lane.obstacle_width l - 20, screen_width + 199)
  else (- 199 - Lane.obstacle_width l, screen_width + 20).

Definition in_range (l : Lane.t) (screen_width : Z) (o : Obstacle.t) : Prop :=
  fst (lane_range l screen_width) <= Rect.x (Obstacle.rect o)
  <= snd (lane_range l screen_width).

(** What [reset] and [update] keep of a lane, for a fixed screen width. *)
Definition lane_bounded (screen_width : Z) (l : Lane.t) : Prop :=
  gaps_respected l /\ uniform l /\
  Forall (in_range l screen_width) (Lane.obstacles l).

(** What no method of [Player] changes once the player is built. *)
Definition player_static (p q : Player.t) : Prop :=
  Player.start_x q = Player.start_x p /\ Player.start_y q = Player.start_y p /\
  Player.radius q = Player.radius p /\ Player.speed q = Player.speed p /\
  Player.step q = Player.step p /\ Player.bounds q = Player.bounds p /\
  Player._cooldown_time q = Player._cooldown_time p /\
  Player._sprite q = Player._sprite p.

(** The obstacles of a lane are vertically centred on it, as [reset] and
    [_spawn] place them. *)
Definition lane_aligned (l : Lane.t) : Prop :=
  Forall (fun o => Rect.y (Obstacle.rect o)
                   = Rect.centery (Lane.rect l) - Lane.obstacle_height l / 2)
    (Lane.obstacles l).

(** The player that [Level.__init__] builds, up to its live position. *)
Definition player_placed (cfg : LevelConfig) (W H : Z) (p : Player.t) : Prop :=
  Player.start_x p = W / 2 /\
  Player.start_y p = H - cfg_lane_height cfg / 2 /\
  Player.radius p = 18 /\ Player.step p = cfg_lane_height cfg /\
  Player.bounds p = (0, 0, W, H) /\ Player._cooldown_time p = fl 0.09 /\
  (Player._sprite p = None \/ Player._sprite p = Some (46, 46)).

(** The lanes that [Level.__init__] builds, still empty. *)
Definition level_lanes (cfg : LevelConfig) (W H : Z) : list Lane.t :=
  map (Level.make_lane W H (cfg_lane_height cfg) (cfg_lane_height cfg))
    (Level.enumerate (cfg_lanes cfg)).

(** What every state of a session built from [cfg] on a [W] x [H] screen
    keeps, besides [level_inv]: the layout never changes, obstacles stay
    centred on their lanes, and a won level has the player at or above the
    finish line, inside the bounds. *)
Definition level_static (cfg : LevelConfig) (W H : Z) (s : Level.t) : Prop :=
  Level.config s = cfg /\ Level.screen_width s = W /\ Level.screen_height s = H /\
  Level.lane_height s = cfg_lane_height cfg /\
  Level.lane_count s = cfg_lane_count cfg /\
  Level.finish_padding s = cfg_finish_padding cfg /\
  Level.safe_zone_height s = cfg_lane_height cfg /\
  player_placed cfg W H (Level.player s) /\
  Forall2 same_lane (level_lanes cfg W H) (Level.lanes s) /\
  Forall lane_aligned (Level.lanes s) /\
  (Level._won s = true ->
   (18 <= Player.y (Level.player s))%Q /\
   (Player.y (Level.player s) <= inject_Z (Level._finish_line_y s))%Q).

(** A level that is lost has the player inside an obstacle's hitbox. *)
Definition lost_by_collision (s : Level.t) : Prop :=
  Level._lost s = true ->
  Level.collides (Player.rect (Level.player s))
    (map Lane.obstacles (Level.lanes s)) = true.

(** What a lane of a running level looks like, [i] being its index, [lc]
    its configuration entry and [lh] the lane height. *)
Definition lane_in_level (cfg : LevelConfig) (W H : Z) (lane : Lane.t) : Prop :=
  let lh := cfg_lane_height cfg in
  exists i lc,
    In lc (cfg_lanes cfg) /\ 0 <= i /\
    Lane.rect lane = Rect.mk 0 (H - (i + 2) * lh) W lh /\
    Lane.min_gap lane = cfg_gap_min lc /\
    gaps_respected lane /\
    Forall (fun o =>
              Rect.height (Obstacle.rect o) = Level.car_height lh /\
              Rect.y (Obstacle.rect o)
              = H - (i + 2) * lh + lh / 2 - Level.car_height lh / 2)
      (Lane.obstacles lane).

(** What the main loop can rely on about its level in each state. *)
Definition level_flags_ok (st : Main.state_t) (lvl : Level.t) : Prop :=
  match st with
  | Main.STATE_HOME => True
  | Main.STATE_PLAYING =>
      Level._running lvl = true /\ Level._won lvl = false /\
      Level._lost lvl = false
  | Main.STATE_WIN => Level._won lvl = true
  | Main.STATE_LOSE => Level._lost lvl = true
  end.

(** The invariant of the [while running] loop of main.py. *)
Definition app_inv (a : Main.t) : Prop :=
  0 <= Main.level_index a <= 4 /\
  match Main.level a with
  | None => Main.state a = Main.STATE_HOME
  | Some lvl =>
      level_static (_make_level (Main.level_index a + 1))
        Main.SCREEN_WIDTH Main.SCREEN_HEIGHT lvl /\
      level_flags_ok (Main.state a) lvl
  end.

(** How one frame with the events [events] can change the variables of the
    loop, from [a] to [a']: [running] is cleared by a QUIT event and never
    set again, and the level index moves as the state at the start of the
    frame allows. *)
Definition frame_rel (events : list input) (a a' : Main.t) : Prop :=
  (existsb Main.is_quit events = true \/ Main.running a = false ->
   Main.running a' = false) /\
  match Main.state a with
  | Main.STATE_HOME =>
      Main.level_index a' = Main.level_index a \/ Main.level_index a' = 0
  | Main.STATE_PLAYING | Main.STATE_LOSE =>
      Main.level_index a' = Main.level_index a
  | Main.STATE_WIN => Main.level_index a <= Main.level_index a'
  end.

(** The invariant of the event loops inside a frame that started from
    [a0]: [P] is what the branch guarantees about the level index. *)
Definition keeps (a0 : Main.t) (P : Z -> Prop) (a : Main.t) : Prop :=
  app_inv a /\ (Main.running a0 = false -> Main.running a = false) /\
  P (Main.level_index a).

(** * Properties *)

(** ** Doubles: powers of two, exponent and rounding *)

Lemma pow2_pos e : (0 < pow2 e)%Q.
Proof. apply Qpower_0_lt. reflexivity. Qed.

Lemma pow2_add a b : (pow2 (a + b) == pow2 a * pow2 b)%Q.
Proof. apply Qpower_plus. discriminate. Qed.

Lemma pow2_le a b : a <= b -> (pow2 a <= pow2 b)%Q.
Proof. intros H. apply Qpower_le_compat_l; [exact H | discriminate]. Qed.

Lemma pow2_lt a b : a < b -> (pow2 a < pow2 b)%Q.
Proof. intros H. apply Qpower_lt_compat_l; [exact H | reflexivity]. Qed.

Lemma pow2_le_inv a b : (pow2 a <= pow2 b)%Q -> a <= b.
Proof. intros H. apply (Qpower_le_compat_l_inv 2); [exact H | reflexivity]. Qed.

Lemma pow2_lt_inv a b : (pow2 a < pow2 b)%Q -> a < b.
Proof. intros H. apply (Qpower_lt_compat_l_inv 2); [exact H | reflexivity]. Qed.

Lemma pow2_Z n : 0 <= n -> (pow2 n == inject_Z (2 ^ n))%Q.
Proof. intros H. symmetry. apply (Zpower_Qpower 2 n H). Qed.

Lemma pow2_cancel e : (pow2 e * pow2 (- e) == 1)%Q.
Proof.
  rewrite <- pow2_add. replace (e + - e) with 0 by lia. reflexivity.
Qed.

Lemma pow2_succ e : (pow2 (e + 1) == 2 * pow2 e)%Q.
Proof. rewrite pow2_add. unfold pow2 at 2. rewrite Qpower_1_r. ring. Qed.

Lemma Qmult_le_cancel_r (a b c : Q) : (0 < c -> a * c <= b * c -> a <= b)%Q.
Proof. intros Hc H. apply (Qmult_le_r a b c Hc). exact H. Qed.

Lemma Qmult_lt_cancel_r (a b c : Q) : (0 < c -> a * c < b * c -> a < b)%Q.
Proof. intros Hc H. apply (Qmult_lt_r a b c Hc). exact H. Qed.

Lemma ilog2_spec x :
  (0 < x)%Q -> (pow2 (ilog2 x) <= x)%Q /\ (x < pow2 (ilog2 x + 1))%Q.
Proof.
  intros Hx. unfold ilog2.
  set (a := Z.log2 (Qnum x)). set (b := Z.log2 (Zpos (Qden x))).
  assert (Hn : 0 < Qnum x).
  { unfold Qlt in Hx. cbn in Hx. lia. }
  destruct (Z.log2_spec (Qnum x) Hn) as [Ha1 Ha2]. fold a in Ha1, Ha2.
  destruct (Z.log2_spec (Zpos (Qden x)) (Pos2Z.is_pos _)) as [Hb1 Hb2].
  fold b in Hb1, Hb2.
  assert (Ha0 : 0 <= a) by apply Z.log2_nonneg.
  assert (Hb0 : 0 <= b) by apply Z.log2_nonneg.
  set (d := inject_Z (Zpos (Qden x))).
  assert (Hd : (0 < d)%Q) by (unfold d, Qlt; cbn; lia).
  assert (Hxd : (x * d == inject_Z (Qnum x))%Q).
  { unfold d, Qeq, Qmult, inject_Z. cbn [Qnum Qden]. lia. }
  assert (Ha1q : (pow2 a <= inject_Z (Qnum x))%Q).
  { rewrite (pow2_Z a Ha0). rewrite <- Zle_Qle. exact Ha1. }
  assert (Ha2q : (inject_Z (Qnum x) < pow2 (a + 1))%Q).
  { rewrite (pow2_Z (a + 1)) by lia. rewrite <- Zlt_Qlt.
    replace (a + 1) with (Z.succ a) by lia. exact Ha2. }
  assert (Hb1q : (pow2 b <= d)%Q).
  { rewrite (pow2_Z b Hb0). unfold d. rewrite <- Zle_Qle. exact Hb1. }
  assert (Hb2q : (d < pow2 (b + 1))%Q).
  { rewrite (pow2_Z (b + 1)) by lia. unfold d. rewrite <- Zlt_Qlt.
    replace (b + 1) with (Z.succ b) by lia. exact Hb2. }
  assert (Hup : (x < pow2 (a - b + 1))%Q).
  { apply (Qmult_lt_cancel_r _ _ d Hd). rewrite Hxd.
    eapply Qlt_le_trans; [exact Ha2q |].
    replace (a + 1) with ((a - b + 1) + b) by lia. rewrite pow2_add.
    apply Qmult_le_l; [apply pow2_pos | exact Hb1q]. }
  assert (Hlo : (pow2 (a - b - 1) <= x)%Q).
  { apply (Qmult_le_cancel_r _ _ d Hd). rewrite Hxd.
    eapply Qle_trans; [| exact Ha1q].
    replace a with ((a - b - 1) + (b + 1)) at 2 by lia. rewrite pow2_add.
    apply Qmult_le_l; [apply pow2_pos | apply Qlt_le_weak; exact Hb2q]. }
  destruct (Qle_bool (pow2 (a - b)) x) eqn:E.
  - split; [apply Qle_bool_iff; exact E | exact Hup].
  - split; [exact Hlo |].
    replace (a - b - 1 + 1) with (a - b) by lia.
    apply Qnot_le_lt. intros H. apply Qle_bool_iff in H. congruence.
Qed.

Lemma ilog2_unique x k :
  (0 < x)%Q -> (pow2 k <= x)%Q -> (x < pow2 (k + 1))%Q -> ilog2 x = k.
Proof.
  intros Hx H1 H2. destruct (ilog2_spec x Hx) as [G1 G2].
  assert (k < ilog2 x + 1).
  { apply pow2_lt_inv. eapply Qle_lt_trans; eassumption. }
  assert (ilog2 x < k + 1).
  { apply pow2_lt_inv. eapply Qle_lt_trans; eassumption. }
  lia.
Qed.

Lemma ilog2_comp x y : (0 < x)%Q -> (x == y)%Q -> ilog2 x = ilog2 y.
Proof.
  intros Hx E. assert (Hy : (0 < y)%Q) by (rewrite <- E; exact Hx).
  destruct (ilog2_spec y Hy) as [G1 G2].
  apply ilog2_unique; [exact Hx | rewrite E; exact G1 | rewrite E; exact G2].
Qed.

Lemma ilog2_le x y : (0 < x)%Q -> (x <= y)%Q -> ilog2 x <= ilog2 y.
Proof.
  intros Hx L. assert (Hy : (0 < y)%Q) by (eapply Qlt_le_trans; eassumption).
  destruct (ilog2_spec x Hx) as [G1 _]. destruct (ilog2_spec y Hy) as [_ G2].
  assert (ilog2 x < ilog2 y + 1); [| lia].
  apply pow2_lt_inv. eapply Qle_lt_trans; [exact G1 |].
  eapply Qle_lt_trans; eassumption.
Qed.

Lemma rne_cases s :
  rne s = Qfloor s /\ (s - inject_Z (Qfloor s) <= 1 # 2)%Q \/
  rne s = Qfloor s + 1 /\ (1 # 2 <= s - inject_Z (Qfloor s))%Q.
Proof.
  unfold rne.
  destruct (Qcompare_spec (s - inject_Z (Qfloor s)) (1 # 2)) as [E | L | G].
  - destruct (Z.even (Qfloor s)); [left | right]; split; try reflexivity;
      rewrite E; apply Qle_refl.
  - left. split; [reflexivity | apply Qlt_le_weak; exact L].
  - right. split; [reflexivity | apply Qlt_le_weak; exact G].
Qed.

Lemma rne_comp s t : (s == t)%Q -> rne s = rne t.
Proof.
  intros E. unfold rne. rewrite (Qfloor_comp _ _ E).
  assert (C : Qcompare (s - inject_Z (Qfloor t)) (1 # 2)
              = Qcompare (t - inject_Z (Qfloor t)) (1 # 2)).
  { apply Qcompare_comp; [rewrite E |]; reflexivity. }
  rewrite C. reflexivity.
Qed.

Lemma rne_inject n : rne (inject_Z n) = n.
Proof.
  unfold rne. rewrite Qfloor_Z.
  assert (E : (inject_Z n - inject_Z n == 0)%Q) by ring.
  assert (C : Qcompare (inject_Z n - inject_Z n) (1 # 2) = Lt).
  { rewrite (Qcompare_comp _ _ E (1 # 2) (1 # 2) (Qeq_refl _)). reflexivity. }
  rewrite C. reflexivity.
Qed.

Lemma inject_Z_succ n : (inject_Z (n + 1) == inject_Z n + 1)%Q.
Proof. rewrite inject_Z_plus. reflexivity. Qed.

Lemma rne_near s :
  (s - (1 # 2) <= inject_Z (rne s))%Q /\ (inject_Z (rne s) <= s + (1 # 2))%Q.
Proof.
  pose proof (Qfloor_le s) as F1. pose proof (Qlt_floor s) as F2.
  rewrite inject_Z_succ in F2.
  destruct (rne_cases s) as [[E H] | [E H]]; rewrite E;
    try rewrite inject_Z_succ; split; lra.
Qed.

Lemma rne_mono s t : (s <= t)%Q -> rne s <= rne t.
Proof.
  intros L. pose proof (Qfloor_resp_le _ _ L) as F.
  pose proof (Qfloor_le s) as S1. pose proof (Qlt_floor s) as S2.
  pose proof (Qfloor_le t) as T1. pose proof (Qlt_floor t) as T2.
  destruct (Z.eq_dec (Qfloor s) (Qfloor t)) as [E | N].
  - unfold rne. rewrite <- E.
    destruct (Qcompare_spec (s - inject_Z (Qfloor s)) (1 # 2)) as [A | A | A];
    destruct (Qcompare_spec (t - inject_Z (Qfloor s)) (1 # 2)) as [B | B | B];
      try destruct (Z.even (Qfloor s)); try lia; exfalso; lra.
  - destruct (rne_cases s) as [[E1 _] | [E1 _]];
    destruct (rne_cases t) as [[E2 _] | [E2 _]]; lia.
Qed.

Lemma scaled_range x :
  (0 < x)%Q ->
  (pow2 52 <= x * pow2 (- (ilog2 x - 52)))%Q /\
  (x * pow2 (- (ilog2 x - 52)) < pow2 53)%Q.
Proof.
  intros Hx. destruct (ilog2_spec x Hx) as [G1 G2].
  set (k := ilog2 x) in *. set (c := pow2 (- (k - 52))).
  assert (Hc : (0 < c)%Q) by apply pow2_pos.
  assert (E1 : (pow2 52 == pow2 k * c)%Q).
  { unfold c. rewrite <- pow2_add. replace (k + - (k - 52)) with 52 by lia.
    reflexivity. }
  assert (E2 : (pow2 53 == pow2 (k + 1) * c)%Q).
  { unfold c. rewrite <- pow2_add. replace (k + 1 + - (k - 52)) with 53 by lia.
    reflexivity. }
  split.
  - rewrite E1. apply Qmult_le_r; assumption.
  - rewrite E2. apply Qmult_lt_r; assumption.
Qed.

Lemma significand_range x :
  (0 < x)%Q ->
  2 ^ 52 <= rne (x * pow2 (- (ilog2 x - 52))) <= 2 ^ 53.
Proof.
  intros Hx. destruct (scaled_range x Hx) as [S1 S2].
  rewrite (pow2_Z 52) in S1 by lia. rewrite (pow2_Z 53) in S2 by lia.
  split.
  - rewrite <- (rne_inject (2 ^ 52)). apply rne_mono. exact S1.
  - rewrite <- (rne_inject (2 ^ 53)). apply rne_mono. apply Qlt_le_weak.
    exact S2.
Qed.

Lemma fl_pos_bounds x :
  (0 < x)%Q ->
  (pow2 (ilog2 x) <= fl_pos x)%Q /\ (fl_pos x <= pow2 (ilog2 x + 1))%Q.
Proof.
  intros Hx. destruct (significand_range x Hx) as [M1 M2]. unfold fl_pos.
  set (m := rne _) in *. set (k := ilog2 x).
  pose proof (pow2_pos (k - 52)) as Hc.
  assert (E1 : (pow2 k == pow2 52 * pow2 (k - 52))%Q).
  { rewrite <- pow2_add. replace (52 + (k - 52)) with k by lia. reflexivity. }
  assert (E2 : (pow2 (k + 1) == pow2 53 * pow2 (k - 52))%Q).
  { rewrite <- pow2_add. replace (53 + (k - 52)) with (k + 1) by lia.
    reflexivity. }
  split.
  - rewrite E1. apply Qmult_le_r; [exact Hc |].
    rewrite (pow2_Z 52) by lia. rewrite <- Zle_Qle. exact M1.
  - rewrite E2. apply Qmult_le_r; [exact Hc |].
    rewrite (pow2_Z 53) by lia. rewrite <- Zle_Qle. exact M2.
Qed.

Lemma fl_pos_pos x : (0 < x)%Q -> (0 < fl_pos x)%Q.
Proof.
  intros Hx. destruct (fl_pos_bounds x Hx) as [B _].
  eapply Qlt_le_trans; [apply pow2_pos | exact B].
Qed.

Lemma fl_pos_comp x y : (0 < x)%Q -> (x == y)%Q -> (fl_pos x == fl_pos y)%Q.
Proof.
  intros Hx E. unfold fl_pos. rewrite <- (ilog2_comp x y Hx E).
  rewrite (rne_comp (x * pow2 (- (ilog2 x - 52))) (y * pow2 (- (ilog2 x - 52)))).
  - reflexivity.
  - apply Qmult_comp; [exact E | reflexivity].
Qed.

Lemma fl_pos_unscale x :
  (x * pow2 (- (ilog2 x - 52)) * pow2 (ilog2 x - 52) == x)%Q.
Proof.
  rewrite <- Qmult_assoc. rewrite (Qmult_comm (pow2 _)). rewrite pow2_cancel.
  ring.
Qed.

(** The rounding error is at most half a unit in the last place. *)
Lemma fl_pos_err x :
  (0 < x)%Q ->
  (x - pow2 (ilog2 x - 53) <= fl_pos x)%Q /\
  (fl_pos x <= x + pow2 (ilog2 x - 53))%Q.
Proof.
  intros Hx. unfold fl_pos. set (k := ilog2 x).
  set (s := (x * pow2 (- (k - 52)))%Q).
  destruct (rne_near s) as [N1 N2].
  pose proof (pow2_pos (k - 52)) as Hc.
  assert (Es : (s * pow2 (k - 52) == x)%Q) by apply fl_pos_unscale.
  assert (Eh : (pow2 (k - 53) == (1 # 2) * pow2 (k - 52))%Q).
  { replace (k - 52) with (k - 53 + 1) by lia. rewrite pow2_succ. field. }
  pose proof (proj2 (Qmult_le_r _ _ _ Hc) N1) as P1.
  pose proof (proj2 (Qmult_le_r _ _ _ Hc) N2) as P2.
  set (c := pow2 (k - 52)) in *. set (m := inject_Z (rne s)) in *.
  clearbody m c s. split; lra.
Qed.

Lemma half_ulp_le x : (0 < x)%Q -> (pow2 (ilog2 x - 53) <= x * u53)%Q.
Proof.
  intros Hx. destruct (ilog2_spec x Hx) as [G _]. unfold u53.
  replace (ilog2 x - 53) with (ilog2 x + -53) by lia. rewrite pow2_add.
  apply Qmult_le_r; [apply pow2_pos | exact G].
Qed.

Lemma fl_pos_exact x n :
  (0 < x)%Q -> (x * pow2 (- (ilog2 x - 52)) == inject_Z n)%Q ->
  (fl_pos x == x)%Q.
Proof.
  intros Hx E. unfold fl_pos. rewrite (rne_comp _ _ E), rne_inject, <- E.
  apply fl_pos_unscale.
Qed.

Lemma fl_pos_mono x y : (0 < x)%Q -> (x <= y)%Q -> (fl_pos x <= fl_pos y)%Q.
Proof.
  intros Hx L. assert (Hy : (0 < y)%Q) by (eapply Qlt_le_trans; eassumption).
  pose proof (ilog2_le x y Hx L) as K.
  destruct (Z.eq_dec (ilog2 x) (ilog2 y)) as [E | N].
  - unfold fl_pos. rewrite <- E.
    apply Qmult_le_r; [apply pow2_pos |]. rewrite <- Zle_Qle. apply rne_mono.
    apply Qmult_le_r; [apply pow2_pos | exact L].
  - destruct (fl_pos_bounds x Hx) as [_ B1].
    destruct (fl_pos_bounds y Hy) as [B2 _].
    eapply Qle_trans; [exact B1 |]. eapply Qle_trans; [| exact B2].
    apply pow2_le. lia.
Qed.

Lemma ilog2_scaled n j :
  0 < n -> ilog2 (inject_Z n * pow2 j) = Z.log2 n + j.
Proof.
  intros Hn. destruct (Z.log2_spec n Hn) as [A1 A2].
  pose proof (Z.log2_nonneg n) as A0. pose proof (pow2_pos j) as Hj.
  apply ilog2_unique.
  - apply Qmult_lt_0_compat; [| exact Hj]. unfold Qlt; cbn; lia.
  - rewrite pow2_add. apply Qmult_le_r; [exact Hj |].
    rewrite pow2_Z by lia. rewrite <- Zle_Qle. exact A1.
  - replace (Z.log2 n + j + 1) with (Z.log2 n + 1 + j) by lia.
    rewrite pow2_add. apply Qmult_lt_r; [exact Hj |].
    rewrite pow2_Z by lia. rewrite <- Zlt_Qlt.
    replace (Z.log2 n + 1) with (Z.succ (Z.log2 n)) by lia. exact A2.
Qed.

Lemma fl_pos_scaled n j :
  0 < n < 2 ^ 53 ->
  (fl_pos (inject_Z n * pow2 j) == inject_Z n * pow2 j)%Q.
Proof.
  intros [Hn Hb].
  assert (Hx : (0 < inject_Z n * pow2 j)%Q).
  { apply Qmult_lt_0_compat; [| apply pow2_pos]. unfold Qlt; cbn; lia. }
  assert (A : Z.log2 n < 53) by (apply Z.log2_lt_pow2; lia).
  apply (fl_pos_exact _ (n * 2 ^ (52 - Z.log2 n)) Hx).
  rewrite (ilog2_scaled n j Hn).
  replace (- (Z.log2 n + j - 52)) with (- j + (52 - Z.log2 n)) by lia.
  rewrite pow2_add, inject_Z_mult, (pow2_Z (52 - Z.log2 n)) by lia.
  rewrite Qmult_assoc, <- (Qmult_assoc (inject_Z n)), pow2_cancel. ring.
Qed.

(** Every rounded value is a 53-bit integer times a power of two. *)
Lemma fl_pos_double x :
  (0 < x)%Q ->
  exists n j, 0 < n < 2 ^ 53 /\ (fl_pos x == inject_Z n * pow2 j)%Q.
Proof.
  intros Hx. destruct (significand_range x Hx) as [M1 M2].
  destruct (Z.eq_dec (rne (x * pow2 (- (ilog2 x - 52)))) (2 ^ 53)) as [E | N].
  - exists (2 ^ 52), (ilog2 x - 52 + 1). split; [lia |].
    unfold fl_pos. rewrite E, pow2_succ.
    change (inject_Z (2 ^ 53)) with (2 * inject_Z (2 ^ 52))%Q. ring.
  - exists (rne (x * pow2 (- (ilog2 x - 52)))), (ilog2 x - 52).
    split; [lia | reflexivity].
Qed.

Lemma fl_of_pos x : (0 < x)%Q -> fl x = fl_pos x.
Proof.
  intros H. unfold fl.
  assert (C : Qcompare x 0 = Gt) by (apply Qgt_alt; exact H).
  rewrite C. reflexivity.
Qed.

Lemma fl_of_neg x : (x < 0)%Q -> fl x = (- fl_pos (- x))%Q.
Proof.
  intros H. unfold fl.
  assert (C : Qcompare x 0 = Lt) by (apply Qlt_alt; exact H).
  rewrite C. reflexivity.
Qed.

Lemma fl_of_zero x : (x == 0)%Q -> fl x = 0%Q.
Proof.
  intros H. unfold fl.
  assert (C : Qcompare x 0 = Eq) by (apply Qeq_alt; exact H).
  rewrite C. reflexivity.
Qed.

#[global] Instance fl_comp : Proper (Qeq ==> Qeq) fl.
Proof.
  intros x y E. unfold fl.
  rewrite <- (Qcompare_comp x y E 0%Q 0%Q (Qeq_refl 0)).
  destruct (Qcompare_spec x 0) as [Z | N | P].
  - reflexivity.
  - apply Qopp_comp. apply fl_pos_comp; [lra | rewrite E; reflexivity].
  - apply fl_pos_comp; assumption.
Qed.

#[global] Instance fadd_comp : Proper (Qeq ==> Qeq ==> Qeq) fadd.
Proof. intros a b E c d F. unfold fadd. rewrite E, F. reflexivity. Qed.

#[global] Instance fsub_comp : Proper (Qeq ==> Qeq ==> Qeq) fsub.
Proof. intros a b E c d F. unfold fsub. rewrite E, F. reflexivity. Qed.

#[global] Instance fmul_comp : Proper (Qeq ==> Qeq ==> Qeq) fmul.
Proof. intros a b E c d F. unfold fmul. rewrite E, F. reflexivity. Qed.

Lemma fl_opp x : (fl (- x) == - fl x)%Q.
Proof.
  destruct (Qcompare_spec x 0) as [Z | N | P].
  - rewrite (fl_of_zero x Z), (fl_of_zero (- x)); [reflexivity | lra].
  - rewrite (fl_of_neg x N), (fl_of_pos (- x)) by lra. ring.
  - rewrite (fl_of_pos x P), (fl_of_neg (- x)) by lra.
    apply Qopp_comp. apply fl_pos_comp; [lra | ring].
Qed.

(** Rounding keeps the sign. *)
Lemma fl_pos_lt x : (0 < x)%Q -> (0 < fl x)%Q.
Proof. intros H. rewrite (fl_of_pos x H). apply fl_pos_pos. exact H. Qed.

Lemma fl_neg_lt x : (x < 0)%Q -> (fl x < 0)%Q.
Proof.
  intros H. rewrite (fl_of_neg x H).
  assert (P : (0 < fl_pos (- x))%Q) by (apply fl_pos_pos; lra). lra.
Qed.

Lemma fl_nonneg x : (0 <= x)%Q -> (0 <= fl x)%Q.
Proof.
  intros H. destruct (Qcompare_spec x 0) as [Z | N | P].
  - rewrite (fl_of_zero x Z). apply Qle_refl.
  - lra.
  - apply Qlt_le_weak. apply fl_pos_lt. exact P.
Qed.

Lemma fl_nonpos x : (x <= 0)%Q -> (fl x <= 0)%Q.
Proof.
  intros H. destruct (Qcompare_spec x 0) as [Z | N | P].
  - rewrite (fl_of_zero x Z). apply Qle_refl.
  - apply Qlt_le_weak. apply fl_neg_lt. exact N.
  - lra.
Qed.

Lemma fl_le_0_inv x : (fl x <= 0)%Q -> (x <= 0)%Q.
Proof.
  intros H. apply Qnot_lt_le. intros P. apply fl_pos_lt in P. lra.
Qed.

Lemma fl_ge_0_inv x : (0 <= fl x)%Q -> (0 <= x)%Q.
Proof.
  intros H. apply Qnot_lt_le. intros P. apply fl_neg_lt in P. lra.
Qed.

Lemma fl_lt_0_inv x : (fl x < 0)%Q -> (x < 0)%Q.
Proof.
  intros H. apply Qnot_le_lt. intros P. apply fl_nonneg in P. lra.
Qed.

Lemma fl_gt_0_inv x : (0 < fl x)%Q -> (0 < x)%Q.
Proof.
  intros H. apply Qnot_le_lt. intros P. apply fl_nonpos in P. lra.
Qed.

(** Rounding is monotone. *)
Lemma fl_mono x y : (x <= y)%Q -> (fl x <= fl y)%Q.
Proof.
  intros L. destruct (Qcompare_spec x 0) as [Zx | Nx | Px].
  - rewrite (fl_of_zero x Zx). apply fl_nonneg. lra.
  - destruct (Qlt_le_dec y 0) as [Ny | Py].
    + rewrite (fl_of_neg x Nx), (fl_of_neg y Ny).
      apply Qopp_le_compat. apply fl_pos_mono; lra.
    + apply Qle_trans with 0%Q.
      * apply fl_nonpos. lra.
      * apply fl_nonneg. exact Py.
  - rewrite (fl_of_pos x Px), (fl_of_pos y) by lra.
    apply fl_pos_mono; assumption.
Qed.

(** An integer of at most 53 bits times a power of two is a double. *)
Lemma fl_scaled n j :
  - 2 ^ 53 < n < 2 ^ 53 ->
  (fl (inject_Z n * pow2 j) == inject_Z n * pow2 j)%Q.
Proof.
  intros [L U]. pose proof (pow2_pos j) as Hj.
  destruct (Z.lt_trichotomy n 0) as [N | [Z | P]].
  - setoid_replace (inject_Z n * pow2 j)%Q
      with (- (inject_Z (- n) * pow2 j))%Q by (rewrite inject_Z_opp; ring).
    rewrite fl_opp. apply Qopp_comp.
    assert (Hx : (0 < inject_Z (- n) * pow2 j)%Q).
    { apply Qmult_lt_0_compat; [| exact Hj]. unfold Qlt; cbn; lia. }
    rewrite (fl_of_pos _ Hx). apply fl_pos_scaled. lia.
  - subst n. rewrite fl_of_zero; ring.
  - assert (Hx : (0 < inject_Z n * pow2 j)%Q).
    { apply Qmult_lt_0_compat; [| exact Hj]. unfold Qlt; cbn; lia. }
    rewrite (fl_of_pos _ Hx). apply fl_pos_scaled. lia.
Qed.

(** The integers up to [2^53] are doubles. *)
Lemma fl_inject_Z n :
  - 2 ^ 53 <= n <= 2 ^ 53 -> (fl (inject_Z n) == inject_Z n)%Q.
Proof.
  intros [L U].
  assert (S : forall m, - 2 ^ 53 < m < 2 ^ 53 ->
              (fl (inject_Z m) == inject_Z m)%Q).
  { intros m Hm. pose proof (fl_scaled m 0 Hm) as E.
    assert (E1 : (inject_Z m * pow2 0 == inject_Z m)%Q)
      by (change (pow2 0) with 1%Q; ring).
    rewrite E1 in E. exact E. }
  assert (T : (fl (inject_Z (2 ^ 53)) == inject_Z (2 ^ 53))%Q).
  { pose proof (fl_scaled (2 ^ 52) 1 ltac:(lia)) as E.
    assert (E1 : (inject_Z (2 ^ 52) * pow2 1 == inject_Z (2 ^ 53))%Q)
      by reflexivity.
    rewrite E1 in E. exact E. }
  destruct (Z.eq_dec n (2 ^ 53)) as [A | A]; [subst n; exact T |].
  destruct (Z.eq_dec n (- 2 ^ 53)) as [B | B]; [| apply S; lia].
  subst n. rewrite inject_Z_opp, fl_opp, T. reflexivity.
Qed.

(** A rounded value is a double: rounding it again changes nothing. *)
Lemma fl_idem x : (fl (fl x) == fl x)%Q.
Proof.
  assert (P : forall y, (0 < y)%Q -> (fl (fl_pos y) == fl_pos y)%Q).
  { intros y Hy. destruct (fl_pos_double y Hy) as (n & j & Hn & E).
    rewrite E. apply fl_scaled. lia. }
  destruct (Qcompare_spec x 0) as [Z | N | Px].
  - rewrite (fl_of_zero x Z). reflexivity.
  - rewrite (fl_of_neg x N), fl_opp, P by lra. reflexivity.
  - rewrite (fl_of_pos x Px). apply P. exact Px.
Qed.

(** The relative error of a rounding is at most [2^-53]. *)
Lemma fl_err_nonneg x :
  (0 <= x)%Q -> (x * (1 - u53) <= fl x)%Q /\ (fl x <= x * (1 + u53))%Q.
Proof.
  intros H. destruct (Qcompare_spec x 0) as [Z | N | P].
  - rewrite (fl_of_zero x Z), Z. split; lra.
  - lra.
  - rewrite (fl_of_pos x P). destruct (fl_pos_err x P) as [E1 E2].
    pose proof (half_ulp_le x P). split; lra.
Qed.

Lemma fl_err_nonpos x :
  (x <= 0)%Q -> (x * (1 + u53) <= fl x)%Q /\ (fl x <= x * (1 - u53))%Q.
Proof.
  intros H. destruct (fl_err_nonneg (- x)) as [E1 E2]; [lra |].
  rewrite fl_opp in E1, E2. split; lra.
Qed.


(** ** Truncation and rational arithmetic *)

(** Comparisons of rationals built from integer variables and decimal
    constants, by cross-multiplication. *)
Ltac q_arith :=
  unfold Qle, Qlt, Qeq, Qminus, Qplus, Qopp, Qmult, inject_Z in *;
  cbn [Qnum Qden] in *; lia.

Lemma py_int_inject_Z (n : Z) : py_int (inject_Z n) = n.
Proof. unfold py_int; simpl. apply Z.quot_1_r. Qed.

(** Truncation moves a value by less than one unit. *)
Lemma py_int_near (q : Q) :
  (inject_Z (py_int q) - 1 < q /\ q < inject_Z (py_int q) + 1)%Q.
Proof.
  destruct q as [a b]. unfold py_int, Qlt, Qminus, Qplus, Qopp, inject_Z; simpl.
  pose proof (Z.quot_rem' a (Zpos b)) as E.
  assert (Hb : 0 < Zpos b) by lia.
  rewrite ?Z.mul_1_r.
  assert (R : Z.abs (Z.rem a (Z.pos b)) < Z.pos b).
  { pose proof (Z.rem_bound_abs a (Z.pos b) ltac:(lia)). lia. }
  set (B := Z.pos b) in *. set (d := a ÷ B) in *. set (r := Z.rem a B) in *.
  clearbody r d B. nia.
Qed.

Lemma Qle_bool_false (a b : Q) : Qle_bool a b = false <-> (b < a)%Q.
Proof.
  split; intros H.
  - apply Qnot_le_lt. intros L. apply Qle_bool_iff in L. congruence.
  - destruct (Qle_bool a b) eqn:E; [| reflexivity].
    apply Qle_bool_iff in E. exfalso. apply (Qlt_not_le _ _ H E).
Qed.

Lemma py_int_floor_nonneg (q : Q) : (0 <= q)%Q -> py_int q = Qfloor q.
Proof.
  destruct q as [a b]. unfold Qle, py_int, Qfloor; simpl. intros H.
  apply Z.quot_div_nonneg; lia.
Qed.

Lemma py_int_nonpos (q : Q) : (q <= 0)%Q -> py_int q <= 0.
Proof.
  destruct q as [a b]. unfold Qle, py_int; simpl. intros H.
  rewrite Z.mul_1_r in H.
  rewrite <- (Z.opp_involutive a), Z.quot_opp_l by lia.
  pose proof (Z.quot_pos (- a) (Z.pos b) ltac:(lia) ltac:(lia)). lia.
Qed.

Lemma Qfloor_nonpos (q : Q) : (q <= 0)%Q -> Qfloor q <= 0.
Proof.
  intros H. change 0 with (Qfloor 0). apply Qfloor_resp_le. exact H.
Qed.

(** Below a positive floor, truncation and rounding down agree. *)
Lemma max_py_int_floor (m : Z) (q : Q) :
  0 < m -> Z.max m (py_int q) = Z.max m (Qfloor q).
Proof.
  intros Hm. destruct (Qlt_le_dec q 0) as [H | H].
  - pose proof (py_int_nonpos q (Qlt_le_weak _ _ H)).
    pose proof (Qfloor_nonpos q (Qlt_le_weak _ _ H)). lia.
  - rewrite py_int_floor_nonneg by exact H. reflexivity.
Qed.

(** [max(m, int(q))] is [max(m, q)] rounded down to an integer. *)
Lemma max_py_int_bounds (m : Z) (q : Q) :
  0 < m ->
  (inject_Z (Z.max m (py_int q)) <= Qmax (inject_Z m) q /\
   Qmax (inject_Z m) q < inject_Z (Z.max m (py_int q)) + 1)%Q.
Proof.
  intros Hm. rewrite max_py_int_floor by exact Hm.
  pose proof (Qfloor_le q) as Hlo. pose proof (Qlt_floor q) as Hhi.
  rewrite inject_Z_plus in Hhi. change 1%Q with (inject_Z 1) in *.
  destruct (Z.max_spec m (Qfloor q)) as [[Hlt ->] | [Hle ->]].
  - split.
    + eapply Qle_trans; [exact Hlo | apply Q.le_max_r].
    + apply Q.max_lub_lt; [| exact Hhi].
      rewrite <- inject_Z_plus, <- Zlt_Qlt. lia.
  - split.
    + apply Q.le_max_l.
    + apply Q.max_lub_lt.
      * rewrite <- inject_Z_plus, <- Zlt_Qlt. lia.
      * eapply Qlt_le_trans; [exact Hhi |].
        rewrite <- !inject_Z_plus, <- Zle_Qle. lia.
Qed.

Lemma inject_Z_le (a b : Z) : a <= b -> (inject_Z a <= inject_Z b)%Q.
Proof. intros H. rewrite <- Zle_Qle. exact H. Qed.

Lemma py_int_nonneg (q : Q) : (0 <= q)%Q -> 0 <= py_int q.
Proof.
  intros H. rewrite py_int_floor_nonneg by exact H.
  change 0 with (Qfloor 0). apply Qfloor_resp_le. exact H.
Qed.

Lemma py_int_le_nonneg (q : Q) : (0 <= q)%Q -> (inject_Z (py_int q) <= q)%Q.
Proof.
  intros H. rewrite py_int_floor_nonneg by exact H. apply Qfloor_le.
Qed.

Lemma py_int_opp (q : Q) : py_int (- q) = - py_int q.
Proof.
  destruct q as [a b]. unfold py_int; simpl. apply Z.quot_opp_l. lia.
Qed.

Lemma py_int_Qeq (p q : Q) : (p == q)%Q -> py_int p = py_int q.
Proof.
  intros H.
  destruct (Qlt_le_dec p 0) as [Hp | Hp].
  - assert (Hq : (0 <= - q)%Q) by lra.
    assert (Hp' : (0 <= - p)%Q) by lra.
    assert (E : py_int (- p) = py_int (- q)).
    { rewrite !py_int_floor_nonneg by assumption.
      apply Qfloor_comp. rewrite H. reflexivity. }
    rewrite !py_int_opp in E. lia.
  - assert (Hq : (0 <= q)%Q) by lra.
    rewrite !py_int_floor_nonneg by assumption.
    apply Qfloor_comp. exact H.
Qed.

(** Truncation is monotone. *)
Lemma py_int_mono (p q : Q) : (p <= q)%Q -> py_int p <= py_int q.
Proof.
  intros H. destruct (Qlt_le_dec p 0) as [Hp | Hp];
    destruct (Qlt_le_dec q 0) as [Hq | Hq].
  - assert (E : py_int (- q) <= py_int (- p)).
    { rewrite !py_int_floor_nonneg by lra. apply Qfloor_resp_le. lra. }
    rewrite !py_int_opp in E. lia.
  - pose proof (py_int_nonpos p (Qlt_le_weak _ _ Hp)).
    pose proof (py_int_nonneg q Hq). lia.
  - lra.
  - rewrite !py_int_floor_nonneg by assumption. apply Qfloor_resp_le. exact H.
Qed.

(** The truncation of a rounded value is within one unit of the value that
    was rounded, as long as the integers around it are doubles. *)
Lemma py_int_fl_near_nonneg (x : Q) :
  (0 <= x)%Q -> (x <= inject_Z (2 ^ 53))%Q ->
  (inject_Z (py_int (fl x)) - 1 < x /\ x < inject_Z (py_int (fl x)) + 1)%Q.
Proof.
  intros H0 Hb.
  pose proof (fl_nonneg x H0) as F0.
  rewrite (py_int_floor_nonneg (fl x) F0).
  pose proof (Qfloor_le x) as N1. pose proof (Qlt_floor x) as N2.
  rewrite inject_Z_plus in N2. change (inject_Z 1) with 1%Q in N2.
  set (n := Qfloor x) in *.
  assert (Hn0 : 0 <= n).
  { change 0 with (Qfloor 0). apply Qfloor_resp_le. exact H0. }
  assert (Hnb : n <= 2 ^ 53).
  { rewrite <- (Qfloor_Z (2 ^ 53)). apply Qfloor_resp_le. exact Hb. }
  assert (Lo : n <= Qfloor (fl x)).
  { rewrite <- (Qfloor_Z n). apply Qfloor_resp_le.
    rewrite <- (fl_inject_Z n) by lia. apply fl_mono. exact N1. }
  pose proof (inject_Z_le _ _ Lo) as LoQ.
  split; [| lra].
  destruct (Qeq_dec x (inject_Z n)) as [E | NE].
  - assert (Ef : (fl x == inject_Z n)%Q)
      by (rewrite E; apply fl_inject_Z; lia).
    rewrite (Qfloor_comp _ _ Ef), Qfloor_Z. lra.
  - assert (S : (inject_Z n < x)%Q).
    { apply Qnot_le_lt. intros L. apply NE. apply Qle_antisym; assumption. }
    assert (Hn1 : n + 1 <= 2 ^ 53).
    { assert (n < 2 ^ 53); [| lia]. rewrite Zlt_Qlt.
      eapply Qlt_le_trans; eassumption. }
    assert (Up : Qfloor (fl x) <= n + 1).
    { rewrite <- (Qfloor_Z (n + 1)). apply Qfloor_resp_le.
      rewrite <- (fl_inject_Z (n + 1)) by lia. apply fl_mono.
      rewrite inject_Z_plus. change (inject_Z 1) with 1%Q. lra. }
    pose proof (inject_Z_le _ _ Up) as UpQ.
    rewrite inject_Z_plus in UpQ. change (inject_Z 1) with 1%Q in UpQ. lra.
Qed.

Lemma py_int_fl_near (x : Q) :
  (inject_Z (- 2 ^ 53) <= x)%Q -> (x <= inject_Z (2 ^ 53))%Q ->
  (inject_Z (py_int (fl x)) - 1 < x /\ x < inject_Z (py_int (fl x)) + 1)%Q.
Proof.
  intros Hl Hu. destruct (Qlt_le_dec x 0) as [N | P].
  - destruct (py_int_fl_near_nonneg (- x)) as [A B].
    + lra.
    + rewrite inject_Z_opp in Hl. lra.
    + rewrite (py_int_Qeq _ _ (fl_opp x)), py_int_opp, inject_Z_opp in A, B.
      split; lra.
  - apply py_int_fl_near_nonneg; assumption.
Qed.

(** ** Obstacle *)

(** The product of the direction and the speed is exact when the speed is
    a double. *)
Lemma fmul_direction (d : Z) (s : Q) :
  d = 1 \/ d = -1 -> (fl s == s)%Q -> (fmul (inject_Z d) s == inject_Z d * s)%Q.
Proof.
  intros [-> | ->] Hs; unfold fmul.
  - setoid_replace (inject_Z 1 * s)%Q with s by ring. exact Hs.
  - setoid_replace (inject_Z (-1) * s)%Q with (- s)%Q by ring.
    rewrite fl_opp, Hs. reflexivity.
Qed.

(** C3 (as amended).  For every obstacle with direction [-1] or [+1] and
    every [dt >= 0], [update] adds to [rect.x] the double product
    [direction * speed * dt] truncated toward zero to an integer, and leaves
    every other field of the obstacle unchanged.  When the speed is a double
    and the exact product is within [2^53], the double product is the exact
    product rounded once, and the new position is within one pixel of
    [x + direction * speed * dt], not exactly it. *)
Theorem obstacle_update_truncates (o : Obstacle.t) (dt : Q) :
  Obstacle.direction o = 1 \/ Obstacle.direction o = -1 ->
  (0 <= dt)%Q ->
  let exact := (inject_Z (Obstacle.direction o) * Obstacle.speed o * dt)%Q in
  let prod :=
    fmul (fmul (inject_Z (Obstacle.direction o)) (Obstacle.speed o)) dt in
  let o' := Obstacle.update o dt in
  Rect.x (Obstacle.rect o') = Rect.x (Obstacle.rect o) + py_int prod /\
  (inject_Z (py_int prod) - 1 < prod /\ prod < inject_Z (py_int prod) + 1)%Q /\
  ((fl (Obstacle.speed o) == Obstacle.speed o)%Q ->
   (inject_Z (- 2 ^ 53) <= exact)%Q -> (exact <= inject_Z (2 ^ 53))%Q ->
   (prod == fl exact)%Q /\
   (inject_Z (py_int prod) - 1 < exact /\
    exact < inject_Z (py_int prod) + 1)%Q) /\
  Rect.y (Obstacle.rect o') = Rect.y (Obstacle.rect o) /\
  Rect.width (Obstacle.rect o') = Rect.width (Obstacle.rect o) /\
  Rect.height (Obstacle.rect o') = Rect.height (Obstacle.rect o) /\
  Obstacle.speed o' = Obstacle.speed o /\
  Obstacle.direction o' = Obstacle.direction o /\
  Obstacle._base_image o' = Obstacle._base_image o /\
  Obstacle.color o' = Obstacle.color o.
Proof.
  intros Hd _ exact prod o'. subst o'.
  unfold Obstacle.update, Obstacle.displacement. simpl. fold prod.
  split; [reflexivity |]. split; [apply py_int_near |].
  split; [| repeat split; reflexivity].
  intros Hs Hl Hu.
  assert (E : (prod == fl exact)%Q).
  { unfold prod, exact. unfold fmul at 1.
    apply fl_comp. apply Qmult_comp; [| reflexivity].
    apply fmul_direction; assumption. }
  split; [exact E |].
  rewrite (py_int_Qeq _ _ E). apply py_int_fl_near; assumption.
Qed.

Lemma obstacle_update_truncates_witness :
  let o := Obstacle.mk (Rect.mk 40 300 119 80) 200 1 None (255, 92, 92) in
  Rect.x (Obstacle.rect (Obstacle.update o (fl 0.145))) = 68 /\
  Obstacle.speed (Obstacle.update o (fl 0.145)) = 200%Q.
Proof.
  intros o.
  destruct (obstacle_update_truncates o (fl 0.145))
    as (Hx & _ & _ & _ & _ & _ & Hs & _).
  - left. reflexivity.
  - vm_compute. discriminate.
  - split; [rewrite Hx; vm_compute; reflexivity | exact Hs].
Defined.

(** C3 as stated fails: at speed 170, direction [+1] and [dt = 0.01] the
    exact product is 1.7 and the obstacle moves by 1. *)
Lemma obstacle_update_not_exact :
  let o := Obstacle.mk (Rect.mk 40 300 119 80) 170 1 None (255, 92, 92) in
  ~ (inject_Z (Rect.x (Obstacle.rect (Obstacle.update o 0.01)))
     == inject_Z (Rect.x (Obstacle.rect o))
        + inject_Z (Obstacle.direction o) * Obstacle.speed o * 0.01)%Q.
Proof. intros o H. vm_compute in H. discriminate H. Qed.

(** ** The level generator *)

Lemma range_length (n : Z) : length (range n) = Z.to_nat n.
Proof. unfold range. rewrite length_map, length_seq. reflexivity. Qed.

Lemma range_nth_error (n i : Z) :
  0 <= i < n -> nth_error (range n) (Z.to_nat i) = Some i.
Proof.
  intros H. unfold range.
  rewrite nth_error_map, nth_error_seq.
  destruct (Nat.ltb_spec (Z.to_nat i) (Z.to_nat n)); [| lia].
  simpl. f_equal. lia.
Qed.

Lemma range_In (n k : Z) : 0 <= k < n -> In k (range n).
Proof.
  intros H. unfold range. apply in_map_iff. exists (Z.to_nat k).
  split; [lia |]. apply in_seq. lia.
Qed.

(** A check over the integers [0 .. n-1]. *)
Lemma range_check (f : Z -> bool) (n k : Z) :
  forallb f (range n) = true -> 0 <= k < n -> f k = true.
Proof.
  intros C H. exact (proj1 (forallb_forall f (range n)) C k (range_In n k H)).
Qed.

(** The spawn period of the generator, computed in doubles, is within
    [2^-52] of the decimal value of its formula. *)
Lemma spawn_every_close (n i : Z) :
  1 <= n <= 10 -> 0 <= i < 15 ->
  let formula := Qmax 0.55 (1.25 - inject_Z (n - 1) * 0.06 - inject_Z i * 0.01) in
  (formula - pow2 (-52) <= cfg_spawn_every (make_lane n i))%Q /\
  (cfg_spawn_every (make_lane n i) <= formula + pow2 (-52))%Q.
Proof.
  intros Hn Hi.
  set (f := fun n i =>
              let formula :=
                Qmax 0.55 (1.25 - inject_Z (n - 1) * 0.06 - inject_Z i * 0.01) in
              Qle_bool (formula - pow2 (-52)) (cfg_spawn_every (make_lane n i))
              && Qle_bool (cfg_spawn_every (make_lane n i))
                   (formula + pow2 (-52))).
  assert (K : forallb (fun n => forallb (f n) (range 15)) (range 11) = true)
    by (vm_compute; reflexivity).
  pose proof (range_check _ 11 n K ltac:(lia)) as Kn. cbv beta in Kn.
  pose proof (range_check _ 15 i Kn Hi) as C. clear K Kn.
  unfold f in C. cbv zeta in C. apply andb_true_iff in C.
  destruct C as [C1 C2]. cbv zeta.
  split; apply Qle_bool_iff; assumption.
Qed.

(** The thresholds of the generator, computed in doubles, are the doubles
    nearest to the decimal values of their formulas. *)
Lemma star_times_nearest (n : Z) :
  1 <= n <= 10 ->
  (Qmax 8.0 (fsub 13.0 (fmul (inject_Z (n - 1)) (fl 0.4)))
   == fl (Qmax 8.0 (13.0 - inject_Z (n - 1) * 0.4)))%Q /\
  (Qmax 12.0 (fsub 20.0 (fmul (inject_Z (n - 1)) (fl 0.45)))
   == fl (Qmax 12.0 (20.0 - inject_Z (n - 1) * 0.45)))%Q /\
  (Qmax 8.0 (fsub 13.0 (fmul (inject_Z (n - 1)) (fl 0.4)))
   <= Qmax 12.0 (fsub 20.0 (fmul (inject_Z (n - 1)) (fl 0.45))))%Q.
Proof.
  intros Hn.
  set (t3 := fun n => Qmax 8.0 (fsub 13.0 (fmul (inject_Z (n - 1)) (fl 0.4)))).
  set (t2 := fun n => Qmax 12.0 (fsub 20.0 (fmul (inject_Z (n - 1)) (fl 0.45)))).
  set (f := fun n =>
              Qeq_bool (t3 n) (fl (Qmax 8.0 (13.0 - inject_Z (n - 1) * 0.4)))
              && Qeq_bool (t2 n)
                   (fl (Qmax 12.0 (20.0 - inject_Z (n - 1) * 0.45)))
              && Qle_bool (t3 n) (t2 n)).
  assert (K : forallb f (range 11) = true) by (vm_compute; reflexivity).
  pose proof (range_check f 11 n K ltac:(lia)) as C. clear K.
  unfold f in C. rewrite !andb_true_iff in C. destruct C as [[C1 C2] C3].
  fold (t3 n). fold (t2 n).
  split; [apply Qeq_bool_iff; exact C1 |].
  split; [apply Qeq_bool_iff; exact C2 | apply Qle_bool_iff; exact C3].
Qed.

Lemma make_level_lane (k i : Z) :
  0 <= i < cfg_lane_count (_make_level k) ->
  nth_error (cfg_lanes (_make_level k)) (Z.to_nat i)
  = Some (make_lane (Z.max 1 (Z.min 10 k)) i).
Proof.
  intros H. unfold _make_level in *. simpl in *.
  rewrite nth_error_map, range_nth_error by exact H. reflexivity.
Qed.

(** The level index is clamped to [1..10] before anything else is
    computed. *)
Lemma make_level_clamp (k : Z) : _make_level k = _make_level (Z.max 1 (Z.min 10 k)).
Proof.
  unfold _make_level.
  replace (Z.max 1 (Z.min 10 (Z.max 1 (Z.min 10 k)))) with (Z.max 1 (Z.min 10 k))
    by lia.
  reflexivity.
Qed.

(** C2.  For every integer level index [k], with [n = max(1, min(10, k))]:
    the generated configuration is the one of level [n] (an index below 1
    behaves as 1, an index above 10 as 10); [lane_height = 70 - (n-1)],
    [lane_count = 5 + n], and lane [i] of the [lane_count] lanes has
    direction [+1] for even [i] and [-1] for odd [i],
    [speed = 170 + (n-1)*28 + i*6],
    [spawn_every = max(0.55, 1.25 - (n-1)*0.06 - i*0.01)] as Python
    evaluates it, in doubles, which is within [2^-52] of the decimal value
    of the formula,
    width [120 - (n-1)*3] clamped to [70..130] and
    [gap_min = max(95, 165 - (n-1)*6 - i)]; hence [gap_min >= 95] and
    [spawn_every >= 0.55]. *)
Theorem make_level_formulas (k i : Z) :
  0 <= i < cfg_lane_count (_make_level k) ->
  let n := Z.max 1 (Z.min 10 k) in
  let c := _make_level k in
  c = _make_level n /\
  (k <= 1 -> c = _make_level 1) /\
  (10 <= k -> c = _make_level 10) /\
  cfg_lane_height c = 70 - (n - 1) /\
  cfg_lane_count c = 5 + n /\
  length (cfg_lanes c) = Z.to_nat (cfg_lane_count c) /\
  exists lane,
    nth_error (cfg_lanes c) (Z.to_nat i) = Some lane /\
    cfg_direction lane = (if Z.even i then 1 else -1) /\
    (cfg_speed lane == inject_Z (170 + (n - 1) * 28 + i * 6))%Q /\
    cfg_spawn_every lane
    = Qmax (fl 0.55)
        (fsub (fsub 1.25 (fmul (inject_Z (n - 1)) (fl 0.06)))
           (fmul (inject_Z i) (fl 0.01))) /\
    (let formula :=
       Qmax 0.55 (1.25 - inject_Z (n - 1) * 0.06 - inject_Z i * 0.01) in
     formula - pow2 (-52) <= cfg_spawn_every lane /\
     cfg_spawn_every lane <= formula + pow2 (-52))%Q /\
    cfg_width lane = Z.max 70 (Z.min 130 (120 - (n - 1) * 3)) /\
    70 <= cfg_width lane <= 130 /\
    cfg_gap_min lane = Z.max 95 (165 - (n - 1) * 6 - i) /\
    95 <= cfg_gap_min lane /\
    (0.55 <= cfg_spawn_every lane)%Q.
Proof.
  intros Hi n c.
  split; [apply make_level_clamp |].
  split.
  { intros Hk. subst c. rewrite make_level_clamp.
    replace (Z.max 1 (Z.min 10 k)) with 1 by lia. reflexivity. }
  split.
  { intros Hk. subst c. rewrite make_level_clamp.
    replace (Z.max 1 (Z.min 10 k)) with 10 by lia. reflexivity. }
  split; [reflexivity |]. split; [reflexivity |].
  split.
  { subst c. unfold _make_level; simpl. rewrite length_map, range_length.
    reflexivity. }
  exists (make_lane n i). split; [apply make_level_lane; exact Hi |].
  assert (Hn : 1 <= n <= 10) by (subst n; lia).
  assert (Hi15 : 0 <= i < 15).
  { unfold _make_level in Hi. cbn [cfg_lane_count] in Hi. lia. }
  pose proof (spawn_every_close n i Hn Hi15) as Cl.
  unfold make_lane in *.
  cbn [cfg_direction cfg_speed cfg_spawn_every cfg_width cfg_gap_min] in *.
  split.
  { rewrite Zmod_even. destruct (Z.even i); reflexivity. }
  split; [reflexivity |]. split; [reflexivity |]. split; [exact Cl |].
  split; [reflexivity |].
  split; [lia |]. split; [replace (i * 1) with i by lia; reflexivity |].
  split; [lia |].
  eapply Qle_trans; [| apply Q.le_max_l]. vm_compute. discriminate.
Qed.

Lemma make_level_formulas_witness :
  _make_level 13 = _make_level 10 /\
  cfg_lane_count (_make_level 13) = 15 /\
  exists lane,
    nth_error (cfg_lanes (_make_level 13)) 3 = Some lane /\
    cfg_direction lane = -1 /\ cfg_gap_min lane = 108.
Proof.
  destruct (make_level_formulas 13 3)
    as (H1 & _ & _ & _ & H2 & _ & lane & L1 & L2 & _ & _ & _ & _ & _ & L3 & _).
  - vm_compute. split; [discriminate | reflexivity].
  - split; [exact H1 |]. split; [exact H2 |].
    exists lane. split; [exact L1 |]. split; [exact L2 | exact L3].
Defined.

(** C9.  For every level [n] in [1..10] the generated three-star threshold
    is [max(8.0, 13.0 - (n-1)*0.4)], the two-star threshold is
    [max(12.0, 20.0 - (n-1)*0.45)], both as Python evaluates them, in
    doubles, which gives the doubles nearest to the decimal values of the
    formulas, and the former is at most the latter. *)
Theorem star_thresholds_ordered (n : Z) :
  1 <= n <= 10 ->
  cfg_star_times_3 (_make_level n)
  = Qmax 8.0 (fsub 13.0 (fmul (inject_Z (n - 1)) (fl 0.4))) /\
  cfg_star_times_2 (_make_level n)
  = Qmax 12.0 (fsub 20.0 (fmul (inject_Z (n - 1)) (fl 0.45))) /\
  (cfg_star_times_3 (_make_level n)
   == fl (Qmax 8.0 (13.0 - inject_Z (n - 1) * 0.4)))%Q /\
  (cfg_star_times_2 (_make_level n)
   == fl (Qmax 12.0 (20.0 - inject_Z (n - 1) * 0.45)))%Q /\
  (cfg_star_times_3 (_make_level n) <= cfg_star_times_2 (_make_level n))%Q.
Proof.
  intros H. unfold _make_level. cbn [cfg_star_times_3 cfg_star_times_2].
  replace (Z.max 1 (Z.min 10 n)) with n by lia.
  destruct (star_times_nearest n H) as (E3 & E2 & L).
  split; [reflexivity |]. split; [reflexivity |].
  split; [exact E3 |]. split; [exact E2 | exact L].
Qed.

Lemma star_thresholds_ordered_witness :
  (cfg_star_times_3 (_make_level 10) <= cfg_star_times_2 (_make_level 10))%Q.
Proof.
  destruct (star_thresholds_ordered 10) as (_ & _ & _ & _ & H); [lia | exact H].
Defined.

(** ** The state monad *)

Lemma post_ret {A} (a : A) (P : A -> Prop) : P a -> post (ret a) P.
Proof. intros H w. exact H. Qed.

Lemma post_bind {A B} (m : Rand A) (f : A -> Rand B) (P : A -> Prop)
  (Q : B -> Prop) :
  post m P -> (forall a, P a -> post (f a) Q) -> post (bind m f) Q.
Proof.
  intros Hm Hf w. unfold bind. specialize (Hm w).
  destruct (m w) as [a w']. apply Hf. exact Hm.
Qed.

Lemma post_weaken {A} (m : Rand A) (P Q : A -> Prop) :
  post m P -> (forall a, P a -> Q a) -> post m Q.
Proof. intros H HPQ w. apply HPQ, H. Qed.

Lemma post_true {A} (m : Rand A) : post m (fun _ => True).
Proof. intros w. exact I. Qed.

Lemma post_mapM {A B} (f : A -> Rand B) (P : A -> B -> Prop) (l : list A) :
  (forall a, In a l -> post (f a) (P a)) -> post (mapM f l) (Forall2 P l).
Proof.
  induction l as [| a l IH]; intros H; simpl.
  - apply post_ret. constructor.
  - apply post_bind with (P := P a); [apply H; left; reflexivity |].
    intros b Hb.
    apply post_bind with (P := Forall2 P l).
    + apply IH. intros a' Ha'. apply H. right. exact Ha'.
    + intros bs Hbs. apply post_ret. constructor; assumption.
Qed.

(** ** Sorting and extremal elements *)

Lemma insert_by_perm {A} (key : A -> Z) (a : A) (l : list A) :
  Permutation (insert_by key a l) (a :: l).
Proof.
  induction l as [| b l IH]; simpl.
  - reflexivity.
  - destruct (key a <=? key b); [reflexivity |].
    rewrite IH. apply perm_swap.
Qed.

Lemma sort_by_perm {A} (key : A -> Z) (l : list A) :
  Permutation (sort_by key l) l.
Proof.
  induction l as [| a l IH]; simpl.
  - reflexivity.
  - rewrite insert_by_perm. constructor. exact IH.
Qed.

Lemma insert_by_sorted {A} (key : A -> Z) (a : A) (l : list A) :
  StronglySorted (fun u v => key u <= key v) l ->
  StronglySorted (fun u v => key u <= key v) (insert_by key a l).
Proof.
  induction l as [| b l IH]; intros H; simpl.
  - constructor; constructor.
  - apply StronglySorted_inv in H. destruct H as [Hl Hb].
    destruct (Z.leb_spec (key a) (key b)) as [Hab | Hab].
    + constructor; [constructor; assumption |].
      constructor; [exact Hab |].
      eapply Forall_impl; [| exact Hb]. simpl. intros; lia.
    + constructor; [apply IH; exact Hl |].
      eapply Permutation_Forall; [symmetry; apply insert_by_perm |].
      constructor; [lia | exact Hb].
Qed.

Lemma sort_by_sorted {A} (key : A -> Z) (l : list A) :
  StronglySorted (fun u v => key u <= key v) (sort_by key l).
Proof.
  induction l as [| a l IH]; simpl.
  - constructor.
  - apply insert_by_sorted. exact IH.
Qed.

Lemma fold_min_le {A} (key : A -> Z) (l : list A) (a : A) :
  let m := fold_left (fun best b => if key b <? key best then b else best) l a in
  key m <= key a /\ Forall (fun b => key m <= key b) l.
Proof.
  revert a. induction l as [| b l IH]; intros a; simpl.
  - split; [lia | constructor].
  - destruct (Z.ltb_spec (key b) (key a)) as [H | H].
    + destruct (IH b) as [H1 H2]. split; [lia |]. constructor; assumption.
    + destruct (IH a) as [H1 H2]. split; [lia |]. constructor; [lia | assumption].
Qed.

Lemma min_by_least {A} (key : A -> Z) (l : list A) (m : A) :
  min_by key l = Some m -> Forall (fun b => key m <= key b) l.
Proof.
  destruct l as [| a l]; simpl; [discriminate |].
  intros H. injection H as <-.
  destruct (fold_min_le key l a) as [H1 H2]. constructor; assumption.
Qed.

Lemma fold_max_ge {A} (key : A -> Z) (l : list A) (a : A) :
  let m := fold_left (fun best b => if key best <? key b then b else best) l a in
  key a <= key m /\ Forall (fun b => key b <= key m) l.
Proof.
  revert a. induction l as [| b l IH]; intros a; simpl.
  - split; [lia | constructor].
  - destruct (Z.ltb_spec (key a) (key b)) as [H | H].
    + destruct (IH b) as [H1 H2]. split; [lia |]. constructor; assumption.
    + destruct (IH a) as [H1 H2]. split; [lia |]. constructor; [lia | assumption].
Qed.

Lemma max_by_greatest {A} (key : A -> Z) (l : list A) (m : A) :
  max_by key l = Some m -> Forall (fun b => key b <= key m) l.
Proof.
  destruct l as [| a l]; simpl; [discriminate |].
  intros H. injection H as <-.
  destruct (fold_max_ge key l a) as [H1 H2]. constructor; assumption.
Qed.

Lemma min_by_none {A} (key : A -> Z) (l : list A) : min_by key l = None -> l = [].
Proof. destruct l; simpl; [reflexivity | discriminate]. Qed.

Lemma max_by_none {A} (key : A -> Z) (l : list A) : max_by key l = None -> l = [].
Proof. destruct l; simpl; [reflexivity | discriminate]. Qed.

(** ** Pairwise relations on lists *)

Section Pairwise.

Context {A : Type} (R : A -> A -> Prop).
Hypothesis R_sym : forall a b, R a b -> R b a.

Lemma pairwise_perm (l l' : list A) :
  Permutation l l' -> ForallOrdPairs R l -> ForallOrdPairs R l'.
Proof.
  induction 1 as [| a l l' HP IH | a b l | l l' l'' _ IH1 _ IH2]; intros H.
  - exact H.
  - inversion H as [| ? ? Ha Hl]; subst.
    constructor; [eapply Permutation_Forall; eassumption | apply IH; exact Hl].
  - inversion H as [| ? ? Hb Hl]; subst.
    inversion Hl as [| ? ? Ha Hl']; subst.
    inversion Hb as [| ? ? Hba Hb']; subst.
    constructor; [constructor; [apply R_sym; exact Hba | exact Ha] |].
    constructor; assumption.
  - apply IH2, IH1, H.
Qed.

Lemma pairwise_snoc (l : list A) (a : A) :
  ForallOrdPairs R l -> Forall (fun b => R b a) l -> ForallOrdPairs R (l ++ [a]).
Proof.
  induction l as [| b l IH]; intros H Ha; simpl.
  - constructor; constructor.
  - inversion H as [| ? ? Hb Hl]; subst.
    inversion Ha as [| ? ? Hba Ha']; subst.
    constructor.
    + apply Forall_app. split; [exact Hb | constructor; [exact Hba | constructor]].
    + apply IH; assumption.
Qed.

Lemma pairwise_filter (f : A -> bool) (l : list A) :
  ForallOrdPairs R l -> ForallOrdPairs R (filter f l).
Proof.
  induction 1 as [| a l Ha Hl IH]; simpl.
  - constructor.
  - destruct (f a); [| exact IH].
    constructor; [| exact IH].
    apply Forall_forall. intros b Hb. apply filter_In in Hb.
    rewrite Forall_forall in Ha. apply Ha, Hb.
Qed.

End Pairwise.

Lemma pairwise_map {A B} (R : A -> A -> Prop) (S : B -> B -> Prop) (f : A -> B)
  (l : list A) :
  (forall a b, R a b -> S (f a) (f b)) ->
  ForallOrdPairs R l -> ForallOrdPairs S (map f l).
Proof.
  intros HRS. induction 1 as [| a l Ha Hl IH]; simpl.
  - constructor.
  - constructor; [| exact IH].
    apply Forall_map. eapply Forall_impl; [| exact Ha]. intros b. apply HRS.
Qed.

Lemma pairwise_Forall2 {A B} (R : A -> A -> Prop) (S : B -> B -> Prop)
  (P : A -> B -> Prop) (l : list A) (l' : list B) :
  (forall a b a' b', P a a' -> P b b' -> R a b -> S a' b') ->
  Forall2 P l l' -> ForallOrdPairs R l -> ForallOrdPairs S l'.
Proof.
  intros HRS HP. induction HP as [| a a' l l' Ha Hl IH]; intros H.
  - constructor.
  - inversion H as [| ? ? Hal Hll]; subst.
    constructor; [| apply IH; exact Hll].
    clear IH Hll H. induction Hl as [| b b' l l' Hb Hl IH'].
    + constructor.
    + inversion Hal; subst. constructor; [eapply HRS; eassumption | auto].
Qed.

(** ** Lane: what [reset] and [update] preserve *)

Lemma separated_sym (gap : Z) (a b : Rect.t) :
  separated gap a b -> separated gap b a.
Proof. unfold separated. tauto. Qed.

Lemma obstacles_separated_sym (gap : Z) (a b : Obstacle.t) :
  obstacles_separated gap a b -> obstacles_separated gap b a.
Proof. apply separated_sym. Qed.

Lemma clear_of_separated (gap : Z) (r p : Rect.t) :
  Lane.clear_of gap r p = true <-> separated gap r p.
Proof.
  unfold Lane.clear_of, separated.
  rewrite orb_true_iff, Z.leb_le, Z.geb_le. tauto.
Qed.

Lemma same_lane_refl (l : Lane.t) : same_lane l l.
Proof. unfold same_lane. tauto. Qed.

Lemma same_lane_trans (l1 l2 l3 : Lane.t) :
  same_lane l1 l2 -> same_lane l2 l3 -> same_lane l1 l3.
Proof. unfold same_lane. intuition congruence. Qed.

Lemma made_by_same_lane (l l' : Lane.t) (o : Obstacle.t) :
  same_lane l l' -> made_by l o -> made_by l' o.
Proof.
  unfold same_lane, made_by. intros (_ & Hd & Hs & _ & Hw & Hh & _).
  rewrite Hd, Hs, Hw, Hh. tauto.
Qed.

Lemma obstacle_new_fields (r : Rect.t) (spd : Q) (dir : Z) :
  post (Obstacle.__init__ r spd dir)
    (fun o => Obstacle.rect o = r /\ Obstacle.speed o = spd /\
              Obstacle.direction o = (if 0 <=? dir then 1 else -1)).
Proof.
  intros w. unfold Obstacle.__init__, bind, loaded_car_images, choice, next_draw, ret.
  destruct (car_images w); simpl; repeat split; reflexivity.
Qed.

(** The seeding loop only accepts rectangles of the lane's obstacle size
    that keep [min_gap] from everything accepted before. *)
Lemma place_separated (l : Lane.t) (y seed_count : Z) (candidates : list Z)
  (placed : list Rect.t) :
  ForallOrdPairs (separated (Lane.min_gap l)) placed ->
  Forall (fun r => Rect.width r = Lane.obstacle_width l /\
                   Rect.height r = Lane.obstacle_height l) placed ->
  let res := Lane.place l y seed_count candidates placed in
  ForallOrdPairs (separated (Lane.min_gap l)) res /\
  Forall (fun r => Rect.width r = Lane.obstacle_width l /\
                   Rect.height r = Lane.obstacle_height l) res.
Proof.
  revert placed. induction candidates as [| x rest IH]; intros placed H1 H2; simpl.
  - split; assumption.
  - destruct (Z.of_nat (length placed) >=? seed_count); [split; assumption |].
    destruct (forallb _ placed) eqn:E; [| apply IH; assumption].
    apply IH.
    + apply pairwise_snoc; [exact H1 |].
      rewrite forallb_forall in E. apply Forall_forall. intros p Hp.
      apply separated_sym, clear_of_separated, E, Hp.
    + apply Forall_app. split; [exact H2 |].
      constructor; [split; reflexivity | constructor].
Qed.

(** The seeding loop never accepts more than [seed_count] rectangles (when
    it starts from at most that many). *)
Lemma place_length (l : Lane.t) (y seed_count : Z) (candidates : list Z)
  (placed : list Rect.t) :
  Z.of_nat (length placed) <= Z.max 0 seed_count ->
  Z.of_nat (length (Lane.place l y seed_count candidates placed))
  <= Z.max 0 seed_count.
Proof.
  revert placed. induction candidates as [| x rest IH]; intros placed H; simpl.
  - exact H.
  - destruct (Z.geb_spec (Z.of_nat (length placed)) seed_count) as [G | G];
      [exact H |].
    destruct (forallb _ placed); [| apply IH; exact H].
    apply IH. rewrite length_app; simpl. lia.
Qed.

Lemma reset_invariant (l : Lane.t) :
  post (Lane.reset l)
    (fun l' => same_lane l l' /\ gaps_respected l' /\ uniform l').
Proof.
  unfold Lane.reset.
  eapply post_bind; [apply post_true | intros seed_count _].
  eapply post_bind; [apply post_true | intros candidates _].
  set (y := Rect.centery (Lane.rect l) - Lane.obstacle_height l / 2).
  set (placed := Lane.place l y seed_count _ []).
  destruct (place_separated l y seed_count
              (sort_by (fun x => x) candidates) [])
    as [Hsep Hdim]; [constructor | constructor |].
  fold placed in Hsep, Hdim.
  eapply post_bind.
  { apply post_mapM with
      (P := fun r o => Obstacle.rect o = r /\ Obstacle.speed o = Lane.speed l /\
                       Obstacle.direction o
                       = (if 0 <=? Lane.direction l then 1 else -1)).
    intros r _. apply obstacle_new_fields. }
  intros obs Hobs. apply post_ret.
  split; [unfold same_lane; simpl; tauto |].
  unfold gaps_respected, uniform; simpl. split.
  - eapply pairwise_perm;
      [apply obstacles_separated_sym | symmetry; apply sort_by_perm |].
    eapply pairwise_Forall2; [| exact Hobs | exact Hsep].
    intros a b a' b' (Ea & _) (Eb & _) H.
    unfold obstacles_separated. rewrite Ea, Eb. exact H.
  - eapply Permutation_Forall; [symmetry; apply sort_by_perm |].
    clear Hsep. induction Hobs as [| r o rs os (Er & Es & Ed) _ IH].
    + constructor.
    + inversion Hdim as [| ? ? (Hw & Hh) Hdim']; subst.
      constructor; [| apply IH; exact Hdim'].
      unfold made_by; simpl. rewrite Hw, Hh. tauto.
Qed.

Lemma update_translate (l : Lane.t) (dt : Q) (o : Obstacle.t) :
  made_by l o -> Obstacle.update o dt = translate (lane_displacement l dt) o.
Proof.
  intros (_ & _ & Hs & Hd).
  unfold Obstacle.update, translate, Obstacle.displacement, lane_displacement.
  rewrite Hs, Hd. reflexivity.
Qed.

Lemma translate_made_by (l : Lane.t) (delta : Z) (o : Obstacle.t) :
  made_by l o -> made_by l (translate delta o).
Proof. unfold made_by, translate; simpl. tauto. Qed.

Lemma translate_separated (gap delta : Z) (a b : Obstacle.t) :
  obstacles_separated gap a b ->
  obstacles_separated gap (translate delta a) (translate delta b).
Proof.
  unfold obstacles_separated, separated, translate, Rect.right, Rect.left; simpl.
  lia.
Qed.

(** In a list sorted by x whose obstacles have one width and are pairwise
    separated, each obstacle ends [gap] before the next one begins. *)
Lemma sorted_adjacent_gaps (gap width : Z) (obs : list Obstacle.t) :
  StronglySorted (fun a b => Lane.key_x a <= Lane.key_x b) obs ->
  Forall (fun o => Rect.width (Obstacle.rect o) = width) obs ->
  ForallOrdPairs (obstacles_separated gap) obs ->
  adjacent_gaps gap obs.
Proof.
  induction obs as [| a rest IH]; intros Hs Hw Hp; [exact I |].
  destruct rest as [| b rest]; [exact I |].
  apply StronglySorted_inv in Hs. destruct Hs as [Hs Ha].
  inversion Hw as [| ? ? Wa Hw']; subst.
  inversion Hp as [| ? ? Pa Hp']; subst.
  split; [| apply IH; assumption].
  inversion Ha as [| ? ? Hab _]; subst.
  inversion Pa as [| ? ? Sab _]; subst.
  inversion Hw' as [| ? ? Wb _]; subst.
  unfold obstacles_separated, separated, Lane.key_x, Rect.right, Rect.left in *.
  lia.
Qed.

(** On such a list the correction pass of either direction changes
    nothing. *)
Lemma push_back_right_noop (gap : Z) (obs : list Obstacle.t) :
  adjacent_gaps gap obs -> Lane.push_back_right gap obs = obs.
Proof.
  induction obs as [| a rest IH]; intros H; [reflexivity |].
  destruct rest as [| b rest]; [reflexivity |].
  destruct H as [Hab H].
  change (Lane.push_back_right gap (a :: b :: rest))
    with (let rest' := Lane.push_back_right gap (b :: rest) in
          match rest' with
          | [] => [a]
          | front :: _ =>
              (if Rect.right (Obstacle.rect a)
                  >? Rect.left (Obstacle.rect front) - gap
               then Lane.move_right_edge a (Rect.left (Obstacle.rect front) - gap)
               else a) :: rest'
          end).
  rewrite (IH H). cbv beta iota zeta.
  match goal with |- context [if ?c then _ else _] => destruct c eqn:E end;
    [apply Z.gtb_lt in E; lia | reflexivity].
Qed.

Lemma push_back_left_from_noop (gap : Z) (front : Obstacle.t)
  (obs : list Obstacle.t) :
  adjacent_gaps gap (front :: obs) -> Lane.push_back_left_from gap front obs = obs.
Proof.
  revert front. induction obs as [| b rest IH]; intros front H; [reflexivity |].
  destruct H as [Hab H]. simpl.
  match goal with |- context [if ?c then _ else _] => destruct c eqn:E end;
    [apply Z.ltb_lt in E; lia |].
  rewrite (IH b H). reflexivity.
Qed.

Lemma push_back_left_noop (gap : Z) (obs : list Obstacle.t) :
  adjacent_gaps gap obs -> Lane.push_back_left gap obs = obs.
Proof.
  destruct obs as [| a rest]; intros H; [reflexivity |].
  simpl. rewrite push_back_left_from_noop by exact H. reflexivity.
Qed.

(** Moving, correcting and culling keep the lane's obstacles uniform and
    pairwise separated. *)
Lemma advance_obstacles_invariant (l : Lane.t) (dt : Q) (screen_width : Z) :
  gaps_respected l -> uniform l ->
  ForallOrdPairs (obstacles_separated (Lane.min_gap l))
    (Lane.advance_obstacles l dt screen_width) /\
  Forall (made_by l) (Lane.advance_obstacles l dt screen_width).
Proof.
  intros Hg Hu. unfold Lane.advance_obstacles.
  set (moved := map (fun o => Obstacle.update o dt) (Lane.obstacles l)).
  assert (Em : moved = map (translate (lane_displacement l dt)) (Lane.obstacles l)).
  { apply map_ext_in. intros o Ho. apply update_translate.
    unfold uniform in Hu. rewrite Forall_forall in Hu. apply Hu, Ho. }
  assert (Pm : ForallOrdPairs (obstacles_separated (Lane.min_gap l)) moved).
  { rewrite Em. eapply pairwise_map; [| exact Hg].
    intros a b. apply translate_separated. }
  assert (Um : Forall (made_by l) moved).
  { rewrite Em. apply Forall_map. eapply Forall_impl; [| exact Hu].
    intros o. apply translate_made_by. }
  set (sorted := sort_by Lane.key_x moved).
  assert (Ps : ForallOrdPairs (obstacles_separated (Lane.min_gap l)) sorted).
  { eapply pairwise_perm;
      [apply obstacles_separated_sym | symmetry; apply sort_by_perm | exact Pm]. }
  assert (Us : Forall (made_by l) sorted).
  { eapply Permutation_Forall; [symmetry; apply sort_by_perm | exact Um]. }
  assert (As : adjacent_gaps (Lane.min_gap l) sorted).
  { apply sorted_adjacent_gaps with (width := Lane.obstacle_width l);
      [apply sort_by_sorted | | exact Ps].
    eapply Forall_impl; [| exact Us]. intros o Ho. apply Ho. }
  set (spaced := if Z.of_nat (length moved) >? 1 then _ else moved).
  assert (Hsp : ForallOrdPairs (obstacles_separated (Lane.min_gap l)) spaced
                 /\ Forall (made_by l) spaced).
  { subst spaced. destruct (Z.of_nat (length moved) >? 1); [| split; assumption].
    destruct (Lane.direction l >? 0).
    - rewrite push_back_right_noop by exact As. split; assumption.
    - rewrite push_back_left_noop by exact As. split; assumption. }
  destruct Hsp as [Psp Usp].
  destruct (Lane.direction l >? 0); split;
    try (apply pairwise_filter; exact Psp);
    apply Forall_forall; intros o Ho; apply filter_In in Ho;
    rewrite Forall_forall in Usp; apply Usp, Ho.
Qed.

(** The x coordinate chosen by [_spawn] leaves [min_gap] to every obstacle
    of the lane: behind the leftmost one in a lane moving right, beyond the
    rightmost one in a lane moving left. *)
Lemma spawn_x_clear (l : Lane.t) (screen_width : Z) :
  (Lane.direction l > 0 ->
   Forall (fun o => Rect.left (Obstacle.rect o)
                    - (Lane.spawn_x l screen_width + Lane.obstacle_width l)
                    >= Lane.min_gap l) (Lane.obstacles l)) /\
  (Lane.direction l <= 0 ->
   Forall (fun o => Lane.spawn_x l screen_width - Rect.right (Obstacle.rect o)
                    >= Lane.min_gap l) (Lane.obstacles l)).
Proof.
  unfold Lane.spawn_x. split; intros Hd.
  - destruct (Z.gtb_spec (Lane.direction l) 0) as [_ | ?]; [| lia].
    destruct (min_by Lane.key_left (Lane.obstacles l)) as [nearest |] eqn:E.
    + apply min_by_least in E. eapply Forall_impl; [| exact E].
      unfold Lane.key_left. intros o Ho. cbv zeta. lia.
    + apply min_by_none in E. rewrite E. constructor.
  - destruct (Z.gtb_spec (Lane.direction l) 0) as [? | _]; [lia |].
    destruct (max_by Lane.key_right (Lane.obstacles l)) as [nearest |] eqn:E.
    + apply max_by_greatest in E. eapply Forall_impl; [| exact E].
      unfold Lane.key_right. intros o Ho. cbv zeta. lia.
    + apply max_by_none in E. rewrite E. constructor.
Qed.

(** What [_spawn] does to a lane: one obstacle of the lane's size, speed and
    direction is appended, at [spawn_x]. *)
Lemma spawn_appends (l : Lane.t) (screen_width : Z) :
  post (Lane._spawn l screen_width)
    (fun l' => same_lane l l' /\
       exists o, Lane.obstacles l' = Lane.obstacles l ++ [o] /\
                 made_by l o /\
                 Rect.x (Obstacle.rect o) = Lane.spawn_x l screen_width).
Proof.
  unfold Lane._spawn.
  eapply post_bind; [apply obstacle_new_fields |].
  intros o (Er & Es & Ed). apply post_ret.
  split; [unfold same_lane; simpl; tauto |].
  exists o. split; [reflexivity |].
  unfold made_by. rewrite Er, Es, Ed. simpl. tauto.
Qed.

Lemma spawn_invariant (l : Lane.t) (screen_width : Z) :
  gaps_respected l -> uniform l ->
  post (Lane._spawn l screen_width)
    (fun l' => same_lane l l' /\ gaps_respected l' /\ uniform l').
Proof.
  intros Hg Hu.
  eapply post_weaken; [apply spawn_appends |].
  intros l' (Hsame & o & Eo & Ho & Hx).
  split; [exact Hsame |].
  assert (Eg : Lane.min_gap l' = Lane.min_gap l) by apply Hsame.
  unfold gaps_respected, uniform. rewrite Eo, Eg. split.
  - apply pairwise_snoc; [exact Hg |].
    destruct (spawn_x_clear l screen_width) as [Hr Hl].
    destruct Ho as (Hw & _).
    destruct (Z.lt_ge_cases 0 (Lane.direction l)) as [Hd | Hd].
    + eapply Forall_impl; [| apply Hr; lia].
      unfold obstacles_separated, separated, Rect.right, Rect.left.
      intros o' Ho'. cbv beta in Ho'. lia.
    + eapply Forall_impl; [| apply Hl; lia].
      unfold obstacles_separated, separated, Rect.right, Rect.left.
      intros o' Ho'. cbv beta in Ho'. lia.
  - apply Forall_app. split.
    + eapply Forall_impl; [| exact Hu]. intros o'.
      apply made_by_same_lane. exact Hsame.
    + constructor; [| constructor].
      apply made_by_same_lane with (l := l); assumption.
Qed.

(** One [update] call keeps the obstacles of a lane uniform and pairwise
    separated by [min_gap]. *)
Lemma update_invariant (l : Lane.t) (dt : Q) (screen_width : Z) :
  gaps_respected l -> uniform l ->
  post (Lane.update l dt screen_width)
    (fun l' => same_lane l l' /\ gaps_respected l' /\ uniform l').
Proof.
  intros Hg Hu. unfold Lane.update.
  destruct (advance_obstacles_invariant l dt screen_width Hg Hu) as [Pa Ua].
  set (l1 := Lane.with_obstacles l (Lane.advance_obstacles l dt screen_width)).
  assert (S1 : same_lane l l1) by (unfold same_lane; simpl; tauto).
  assert (G1 : forall tm, gaps_respected (Lane.with_spawn_timer l1 tm))
    by (intros tm; exact Pa).
  assert (U1 : forall tm, uniform (Lane.with_spawn_timer l1 tm))
    by (intros tm; exact Ua).
  cbv zeta.
  match goal with |- context [if ?c then _ else _] => destruct c end.
  - match goal with |- context [if ?c then _ else _] => destruct c end.
    + eapply post_weaken; [apply spawn_invariant; [apply G1 | apply U1] |].
      intros l' (Hs & Hg' & Hu'). split; [| split; assumption].
      eapply same_lane_trans; [| exact Hs]. unfold same_lane; simpl; tauto.
    + apply post_ret. split; [unfold same_lane; simpl; tauto |].
      split; [apply G1 | apply U1].
  - apply post_ret. split; [unfold same_lane; simpl; tauto |].
    split; [apply G1 | apply U1].
Qed.

Lemma updates_invariant (calls : list (Q * Z)) (l : Lane.t) :
  gaps_respected l -> uniform l ->
  post (Lane.updates l calls)
    (fun l' => same_lane l l' /\ gaps_respected l' /\ uniform l').
Proof.
  revert l. induction calls as [| [dt sw] rest IH]; intros l Hg Hu; simpl.
  - apply post_ret. split; [apply same_lane_refl | split; assumption].
  - eapply post_bind; [apply update_invariant; assumption |].
    intros l1 (S1 & G1 & U1).
    eapply post_weaken; [apply IH; assumption |].
    intros l2 (S2 & G2 & U2). split; [| split; assumption].
    eapply same_lane_trans; eassumption.
Qed.

(** C1.  For every lane and every sequence of [update(dt, screen_width)]
    calls with [dt >= 0] that follows a [reset()], whatever the random
    draws: any two obstacles of the lane are separated along x by at least
    [min_gap]; read in ascending x, each obstacle ends at least [min_gap]
    before the next one begins; and whenever [_spawn] creates an obstacle,
    on any lane, it lies at least [min_gap] behind every existing obstacle
    in the direction of travel (to their left when the lane moves right, to
    their right when it moves left). *)
Theorem lane_min_gap_invariant (l : Lane.t) (calls : list (Q * Z)) (w : World) :
  Forall (fun c => 0 <= fst c)%Q calls ->
  let l' := fst (Lane.reset_then_updates l calls w) in
  Lane.min_gap l' = Lane.min_gap l /\
  ForallOrdPairs
    (fun a b => separated (Lane.min_gap l) (Obstacle.rect a) (Obstacle.rect b))
    (Lane.obstacles l') /\
  adjacent_gaps (Lane.min_gap l) (sort_by Lane.key_x (Lane.obstacles l')) /\
  forall (l0 : Lane.t) (screen_width : Z) (w0 : World),
  exists o,
    Lane.obstacles (fst (Lane._spawn l0 screen_width w0)) = Lane.obstacles l0 ++ [o] /\
    Forall (fun o' => separated (Lane.min_gap l0) (Obstacle.rect o') (Obstacle.rect o))
      (Lane.obstacles l0) /\
    (Lane.direction l0 > 0 ->
     Forall (fun o' => Rect.left (Obstacle.rect o') - Rect.right (Obstacle.rect o)
                       >= Lane.min_gap l0) (Lane.obstacles l0)) /\
    (Lane.direction l0 <= 0 ->
     Forall (fun o' => Rect.left (Obstacle.rect o) - Rect.right (Obstacle.rect o')
                       >= Lane.min_gap l0) (Lane.obstacles l0)).
Proof.
  intros _ l'.
  assert (H : same_lane l l' /\ gaps_respected l' /\ uniform l').
  { subst l'. unfold Lane.reset_then_updates.
    revert w. change (post (bind (Lane.reset l) (fun l0 => Lane.updates l0 calls))
                        (fun l' => same_lane l l' /\ gaps_respected l' /\ uniform l')).
    eapply post_bind; [apply reset_invariant |].
    intros l0 (S0 & G0 & U0).
    eapply post_weaken; [apply updates_invariant; assumption |].
    intros l1 (S1 & G1 & U1). split; [| split; assumption].
    eapply same_lane_trans; eassumption. }
  destruct H as (Hs & Hg & Hu).
  assert (Eg : Lane.min_gap l' = Lane.min_gap l) by apply Hs.
  split; [exact Eg |].
  unfold gaps_respected in Hg. rewrite Eg in Hg.
  split; [exact Hg |].
  split.
  { apply sorted_adjacent_gaps with (width := Lane.obstacle_width l').
    - apply sort_by_sorted.
    - eapply Permutation_Forall; [symmetry; apply sort_by_perm |].
      eapply Forall_impl; [| exact Hu]. intros o Ho. apply Ho.
    - eapply pairwise_perm;
        [apply obstacles_separated_sym | symmetry; apply sort_by_perm | exact Hg]. }
  intros l0 sw w0.
  destruct (spawn_appends l0 sw w0) as (_ & o & Eo & (Hw & _) & Hx).
  destruct (spawn_x_clear l0 sw) as [Hr Hl].
  exists o. split; [exact Eo |].
  assert (R : Lane.direction l0 > 0 ->
              Forall (fun o' => Rect.left (Obstacle.rect o')
                                - Rect.right (Obstacle.rect o) >= Lane.min_gap l0)
                (Lane.obstacles l0)).
  { intros Hd. eapply Forall_impl; [| apply Hr; exact Hd].
    unfold Rect.right. intros o' Ho'. cbv beta in Ho'. lia. }
  assert (L : Lane.direction l0 <= 0 ->
              Forall (fun o' => Rect.left (Obstacle.rect o)
                                - Rect.right (Obstacle.rect o') >= Lane.min_gap l0)
                (Lane.obstacles l0)).
  { intros Hd. eapply Forall_impl; [| apply Hl; exact Hd].
    unfold Rect.left. intros o' Ho'. cbv beta in Ho'. lia. }
  split; [| split; assumption].
  destruct (Z.lt_ge_cases 0 (Lane.direction l0)) as [Hd | Hd].
  - eapply Forall_impl; [| apply R; lia].
    unfold separated. intros o' Ho'. cbv beta in Ho'. lia.
  - eapply Forall_impl; [| apply L; lia].
    unfold separated. intros o' Ho'. cbv beta in Ho'. lia.
Qed.

Lemma lane_min_gap_invariant_witness :
  let l := Lane.__init__ (Rect.mk 0 560 900 70) 1 170 1.25 119 80 165 in
  let w := mkWorld (fun n => Z.of_nat n * 7919 + 13) 0 [] false in
  let calls := [(0.5%Q, 900); (0.5%Q, 900); (0.5%Q, 900)] in
  map Lane.key_x (Lane.obstacles (fst (Lane.reset_then_updates l calls w)))
  = [278; 565; -139] /\
  adjacent_gaps 165
    (sort_by Lane.key_x (Lane.obstacles (fst (Lane.reset_then_updates l calls w)))).
Proof.
  intros l w calls. split; [vm_compute; reflexivity |].
  destruct (lane_min_gap_invariant l calls w) as (_ & _ & H & _).
  - repeat constructor; unfold Qle; simpl; lia.
  - exact H.
Defined.

(** ** Level: one tick *)

Lemma Forall2_transfer {A} (P Q : A -> Prop) (R : A -> A -> Prop) (l l' : list A) :
  (forall a a', P a -> R a a' -> Q a') ->
  Forall P l -> Forall2 R l l' -> Forall Q l'.
Proof.
  intros H HP HR. induction HR as [| a a' l l' Ha _ IH].
  - constructor.
  - inversion HP; subst. constructor; [eapply H; eassumption | auto].
Qed.

(** What [Level.update] computes on a running session: player and lanes
    advance, then the collision test decides [lost], and only when it fails
    the finish-line test decides [won]. *)
Lemma update_running (s : Level.t) (dt : Q) (events : list event) (w : World) :
  Level._running s = true -> Level._won s = false -> Level._lost s = false ->
  let r := mapM (fun lane => Lane.update lane dt (Level.screen_width s))
             (Level.lanes s) w in
  let p := Player.update (Level.player s) dt events in
  let hit := Level.collides (Player.rect p) (map Lane.obstacles (fst r)) in
  let win := Qle_bool (Player.y p) (inject_Z (Level._finish_line_y s)) in
  Level.update s dt events w
  = (Level.with_state s p (fst r) (fadd (Level._time_elapsed s) dt)
       (negb hit && negb win) (negb hit && win) hit, snd r).
Proof.
  intros Hr Hw Hl r p hit win. subst hit win r. unfold Level.update.
  rewrite Hr, Hw, Hl. cbn [negb orb]. unfold bind. fold p.
  destruct (mapM _ (Level.lanes s) w) as [ls w']. cbn [fst snd].
  destruct (Level.collides (Player.rect p) (map Lane.obstacles ls));
    [reflexivity |].
  destruct (Qle_bool (Player.y p) (inject_Z (Level._finish_line_y s)));
    reflexivity.
Qed.

(** A session that is over, or was never started, ignores [update]. *)
Lemma update_not_running (s : Level.t) (dt : Q) (events : list event) (w : World) :
  Level._running s = false \/ Level._won s = true \/ Level._lost s = true ->
  Level.update s dt events w = (s, w).
Proof.
  intros H. unfold Level.update.
  destruct (Level._running s), (Level._won s), (Level._lost s); simpl;
    try reflexivity.
  destruct H as [H | [H | H]]; discriminate H.
Qed.

Lemma collides_exists (pr : Rect.t) (ls : list Lane.t) :
  Level.collides pr (map Lane.obstacles ls) = true <->
  exists lane obs, In lane ls /\ In obs (Lane.obstacles lane) /\
                   Rect.colliderect pr (Level.hitbox obs) = true.
Proof.
  unfold Level.collides. rewrite existsb_exists. split.
  - intros (obsl & Hin & Hex). apply in_map_iff in Hin.
    destruct Hin as (lane & <- & Hlane).
    apply existsb_exists in Hex. destruct Hex as (obs & Hobs & Hc).
    exists lane, obs. tauto.
  - intros (lane & obs & Hlane & Hobs & Hc).
    exists (Lane.obstacles lane). split; [apply in_map; exact Hlane |].
    apply existsb_exists. exists obs. tauto.
Qed.

(** The collision test only depends on which obstacles there are, not on
    how they are grouped or ordered. *)
Lemma collides_concat (pr : Rect.t) (ls : list (list Obstacle.t)) :
  Level.collides pr ls
  = existsb (fun obs => Rect.colliderect pr (Level.hitbox obs)) (concat ls).
Proof.
  unfold Level.collides. induction ls as [| l ls IH]; simpl.
  - reflexivity.
  - rewrite existsb_app, IH. reflexivity.
Qed.

Lemma existsb_perm {A} (f : A -> bool) (l l' : list A) :
  Permutation l l' -> existsb f l = existsb f l'.
Proof.
  induction 1 as [| a l l' _ IH | a b l | l l' l'' _ IH1 _ IH2]; simpl.
  - reflexivity.
  - rewrite IH. reflexivity.
  - destruct (f a), (f b); reflexivity.
  - congruence.
Qed.

(** C4.  On a running session, [Level.update] sets [lost] on that tick if
    and only if, after the player and the lanes have moved, the hitbox of
    some obstacle of some lane intersects the player's collision rectangle;
    the hitbox is the obstacle's rectangle deflated around its centre by
    [pad_x] in width and [pad_y] in height, where [pad_x] is
    [max(6, 16% of the width)] and [pad_y] is [max(4, 20% of the height)],
    each taken in whole pixels (rounded down); and
    visiting the same obstacles in any other grouping or order gives the
    same flag. *)
Theorem collision_sets_lost (s : Level.t) (dt : Q) (events : list event)
  (w : World) (order : list (list Obstacle.t)) (o : Obstacle.t) :
  Level._running s = true -> Level._won s = false -> Level._lost s = false ->
  let s' := fst (Level.update s dt events w) in
  let player_rect := Player.rect (Level.player s') in
  (Level._lost s' = true <->
   exists lane obs,
     In lane (Level.lanes s') /\ In obs (Lane.obstacles lane) /\
     Rect.colliderect player_rect (Level.hitbox obs) = true) /\
  (let pad_x := Rect.width (Obstacle.rect o) - Rect.width (Level.hitbox o) in
   let pad_y := Rect.height (Obstacle.rect o) - Rect.height (Level.hitbox o) in
   pad_x = Z.max 6 (py_int (inject_Z (Rect.width (Obstacle.rect o)) * 0.16)) /\
   pad_y = Z.max 4 (py_int (inject_Z (Rect.height (Obstacle.rect o)) * 0.20)) /\
   (inject_Z pad_x <= Qmax 6 (inject_Z (Rect.width (Obstacle.rect o)) * 0.16)
    /\ Qmax 6 (inject_Z (Rect.width (Obstacle.rect o)) * 0.16)
       < inject_Z pad_x + 1)%Q /\
   (inject_Z pad_y <= Qmax 4 (inject_Z (Rect.height (Obstacle.rect o)) * 0.20)
    /\ Qmax 4 (inject_Z (Rect.height (Obstacle.rect o)) * 0.20)
       < inject_Z pad_y + 1)%Q /\
   Rect.x (Level.hitbox o) = Rect.x (Obstacle.rect o) + Z.quot pad_x 2 /\
   Rect.y (Level.hitbox o) = Rect.y (Obstacle.rect o) + Z.quot pad_y 2) /\
  (Permutation (concat order) (concat (map Lane.obstacles (Level.lanes s'))) ->
   Level.collides player_rect order = Level._lost s').
Proof.
  intros Hr Hw Hl s' player_rect.
  subst player_rect s'. rewrite (update_running s dt events w Hr Hw Hl).
  cbv zeta. simpl fst. unfold Level.with_state; simpl.
  set (ls := fst (mapM _ (Level.lanes s) w)).
  set (p := Player.update (Level.player s) dt events).
  split; [apply collides_exists |].
  split.
  { unfold Level.hitbox, Rect.inflate; simpl.
    set (px := Z.max 6 (py_int (inject_Z (Rect.width (Obstacle.rect o)) * 0.16))).
    set (py := Z.max 4 (py_int (inject_Z (Rect.height (Obstacle.rect o)) * 0.20))).
    replace (Rect.width (Obstacle.rect o) - (Rect.width (Obstacle.rect o) + - px))
      with px by lia.
    replace (Rect.height (Obstacle.rect o) - (Rect.height (Obstacle.rect o) + - py))
      with py by lia.
    rewrite !Z.quot_opp_l by lia.
    split; [reflexivity |]. split; [reflexivity |].
    split; [apply (max_py_int_bounds 6); lia |].
    split; [apply (max_py_int_bounds 4); lia |].
    split; lia. }
  intros HP. rewrite !collides_concat. apply existsb_perm. exact HP.
Qed.

Lemma collision_sets_lost_witness :
  let s := play (_make_level 1) [press 0.09 K_LEFT] in
  let s' := fst (Level.update s 0.09 [KEYDOWN K_UP] sample_world) in
  Level._lost s' = true /\
  Level.collides (Player.rect (Level.player s'))
    [rev (concat (map Lane.obstacles (Level.lanes s')))] = true.
Proof.
  intros s s'.
  assert (L : Level._lost s' = true) by (vm_compute; reflexivity).
  split; [exact L |].
  destruct (collision_sets_lost s 0.09 [KEYDOWN K_UP] sample_world
              [rev (concat (map Lane.obstacles (Level.lanes s')))]
              (Obstacle.mk (Rect.mk 340 555 119 80) 170 1 None (255, 92, 92)))
    as (_ & _ & H); [vm_compute; reflexivity | vm_compute; reflexivity | vm_compute; reflexivity |].
  fold s' in H. rewrite L in H. apply H.
  generalize (concat (map Lane.obstacles (Level.lanes s'))). intros obs.
  cbn [concat]. rewrite app_nil_r. symmetry. apply Permutation_rev.
Defined.

(** C5.  On a running session and a tick on which no obstacle is hit,
    [Level.update] sets [won] exactly when the player's y coordinate is at
    most the finish line's, which is
    [screen_height - safe_zone_height - lane_count * lane_height]; otherwise
    [won] stays false. *)
Theorem win_at_finish_line (s : Level.t) (dt : Q) (events : list event)
  (w : World) :
  Level._running s = true -> Level._won s = false -> Level._lost s = false ->
  let s' := fst (Level.update s dt events w) in
  Level.collides (Player.rect (Level.player s'))
    (map Lane.obstacles (Level.lanes s')) = false ->
  Level._finish_line_y s'
  = Level.screen_height s' - Level.safe_zone_height s'
    - Level.lane_count s' * Level.lane_height s' /\
  Level._finish_line_y s' = Level._finish_line_y s /\
  Level.player s' = Player.update (Level.player s) dt events /\
  Level._lost s' = false /\
  (Level._won s' = true <->
   (Player.y (Level.player s') <= inject_Z (Level._finish_line_y s'))%Q) /\
  (Level._won s' = false <->
   (inject_Z (Level._finish_line_y s') < Player.y (Level.player s'))%Q).
Proof.
  intros Hr Hw Hl s'. subst s'.
  rewrite (update_running s dt events w Hr Hw Hl).
  cbv zeta. simpl fst. unfold Level.with_state; simpl.
  intros Hc. rewrite Hc. simpl.
  split; [reflexivity |]. split; [reflexivity |]. split; [reflexivity |].
  split; [reflexivity |].
  unfold Level._finish_line_y; simpl.
  split; [apply Qle_bool_iff | apply Qle_bool_false].
Qed.

Lemma win_at_finish_line_witness :
  let s := play (_make_level 1) (repeat (press 0.09 K_UP) 6) in
  let idle := fst (Level.update s 0.09 [] sample_world) in
  let moved := fst (Level.update s 0.09 [KEYDOWN K_UP] sample_world) in
  Level._finish_line_y s = 210 /\
  (Player.y (Level.player idle) == 245)%Q /\ Level._won idle = false /\
  (Player.y (Level.player moved) == 175)%Q /\ Level._won moved = true.
Proof.
  intros s idle moved.
  destruct (win_at_finish_line s 0.09 [] sample_world)
    as (_ & _ & _ & _ & _ & Hidle);
    [vm_compute; reflexivity | vm_compute; reflexivity | vm_compute; reflexivity | vm_compute; reflexivity |].
  destruct (win_at_finish_line s 0.09 [KEYDOWN K_UP] sample_world)
    as (_ & _ & _ & _ & Hmoved & _);
    [vm_compute; reflexivity | vm_compute; reflexivity | vm_compute; reflexivity | vm_compute; reflexivity |].
  split; [vm_compute; reflexivity |].
  split; [vm_compute; reflexivity |]. split; [apply Hidle; vm_compute; reflexivity |].
  split; [vm_compute; reflexivity |]. apply Hmoved. vm_compute. discriminate.
Defined.

(** ** Level: star rating *)

(** Whatever index it is called with, the generator orders the thresholds
    as [stars_earned] expects them. *)
Lemma generated_thresholds_ordered (k : Z) :
  (cfg_star_times_3 (_make_level k) <= cfg_star_times_2 (_make_level k))%Q.
Proof.
  unfold _make_level. cbn [cfg_star_times_3 cfg_star_times_2].
  assert (H : 1 <= Z.max 1 (Z.min 10 k) <= 10) by lia.
  apply (star_times_nearest _ H).
Qed.

(** C7.  [stars_earned] is 0 whenever the session is not won, hence non-zero
    only when won; when won, elapsed time [t <= t3] gives 3, [t3 < t <= t2]
    gives 2, and [t > t2] gives 1, the thresholds being ordered [t3 <= t2]
    as the generator orders them ([generated_thresholds_ordered]); the
    value lies in [0..3]; and between two won states with the same
    thresholds the one with the larger elapsed time never earns more.  For
    thresholds in any order, [t > t2] gives 1 when [t] also exceeds [t3]. *)
Theorem stars_earned_thresholds (s s' : Level.t) :
  let t := Level._time_elapsed s in
  let t3 := cfg_star_times_3 (Level.config s) in
  let t2 := cfg_star_times_2 (Level.config s) in
  (Level._won s = false -> Level.stars_earned s = 0) /\
  (Level.stars_earned s <> 0 -> Level._won s = true) /\
  (Level._won s = true -> (t <= t3)%Q -> Level.stars_earned s = 3) /\
  (Level._won s = true -> (t3 < t)%Q -> (t <= t2)%Q -> Level.stars_earned s = 2) /\
  (Level._won s = true -> (t3 < t)%Q -> (t2 < t)%Q -> Level.stars_earned s = 1) /\
  ((t3 <= t2)%Q -> Level._won s = true -> (t2 < t)%Q -> Level.stars_earned s = 1) /\
  0 <= Level.stars_earned s <= 3 /\
  (Level.config s' = Level.config s ->
   Level._won s = true -> Level._won s' = true ->
   (Level._time_elapsed s <= Level._time_elapsed s')%Q ->
   Level.stars_earned s' <= Level.stars_earned s).
Proof.
  intros t t3 t2. unfold Level.stars_earned. fold t t3 t2.
  assert (One : Level._won s = true -> (t3 < t)%Q -> (t2 < t)%Q ->
                (if negb (Level._won s) then 0
                 else if Qle_bool t t3 then 3
                      else if Qle_bool t t2 then 2 else 1) = 1).
  { intros -> H3 H2. simpl.
    apply Qle_bool_false in H3. apply Qle_bool_false in H2.
    rewrite H3, H2. reflexivity. }
  split; [intros ->; reflexivity |].
  split; [destruct (Level._won s); [reflexivity | intros H; now elim H] |].
  split.
  { intros -> H. simpl. apply Qle_bool_iff in H. rewrite H. reflexivity. }
  split.
  { intros -> H3 H2. simpl.
    apply Qle_bool_false in H3. apply Qle_bool_iff in H2.
    rewrite H3, H2. reflexivity. }
  split; [exact One |].
  split.
  { intros H32 Hw H2. apply One; [exact Hw | lra | exact H2]. }
  split.
  { destruct (Level._won s); simpl; [| lia].
    destruct (Qle_bool t t3); [lia |]. destruct (Qle_bool t t2); lia. }
  intros Ec -> -> Ht. rewrite Ec. fold t3 t2. simpl.
  destruct (Qle_bool (Level._time_elapsed s') t3) eqn:E3.
  - apply Qle_bool_iff in E3.
    assert (E : Qle_bool t t3 = true) by (apply Qle_bool_iff; subst t; lra).
    rewrite E. lia.
  - destruct (Qle_bool (Level._time_elapsed s') t2) eqn:E2.
    + apply Qle_bool_iff in E2.
      destruct (Qle_bool t t3); [lia |].
      assert (E : Qle_bool t t2 = true) by (apply Qle_bool_iff; subst t; lra).
      rewrite E. lia.
    + destruct (Qle_bool t t3); [lia |]. destruct (Qle_bool t t2); lia.
Qed.

Lemma stars_earned_thresholds_witness :
  let fast := play (_make_level 1) (repeat (press 0.09 K_UP) 7) in
  let slow := play (_make_level 1)
                (repeat (wait 0.5) 3 ++ repeat (press 1.8 K_UP) 7) in
  let slower := play (_make_level 1)
                  (repeat (wait 0.5) 17 ++ repeat (press 1.8 K_UP) 7) in
  let hit := play (_make_level 1) [press 0.09 K_LEFT; press 0.09 K_UP] in
  ((Level._time_elapsed fast < 0.64)%Q /\ Level.stars_earned fast = 3) /\
  ((14 < Level._time_elapsed slow)%Q /\ (Level._time_elapsed slow < 14.2)%Q /\
   Level.stars_earned slow = 2) /\
  ((21 < Level._time_elapsed slower)%Q /\ Level.stars_earned slower = 1) /\
  Level.stars_earned hit = 0.
Proof.
  intros fast slow slower hit.
  destruct (stars_earned_thresholds fast fast) as (_ & _ & A & _).
  destruct (stars_earned_thresholds slow slow) as (_ & _ & _ & B & _).
  destruct (stars_earned_thresholds slower slower)
    as (_ & _ & _ & _ & _ & C & _).
  destruct (stars_earned_thresholds hit hit) as (D & _).
  split; [split; [vm_compute; reflexivity |];
          apply A; [vm_compute; reflexivity | vm_compute; discriminate] |].
  split; [split; [vm_compute; reflexivity |]; split; [vm_compute; reflexivity |];
          apply B; [vm_compute; reflexivity | vm_compute; reflexivity | vm_compute; discriminate] |].
  split; [split; [vm_compute; reflexivity |];
          apply C; [vm_compute; discriminate | vm_compute; reflexivity
                   | vm_compute; reflexivity] |].
  apply D. vm_compute; reflexivity.
Defined.

(** ** Level: sessions *)

(** Induction over the calls of a session. *)
Lemma run_invariant (P : Level.t -> Prop) :
  (forall s, P s -> post (Level.start s) P) ->
  (forall s dt events, P s -> post (Level.update s dt events) P) ->
  forall ops s, P s -> post (Level.run s ops) P.
Proof.
  intros Hstart Hupdate. induction ops as [| o rest IH]; intros s Hs; simpl.
  - apply post_ret. exact Hs.
  - eapply post_bind; [| intros s' Hs'; apply IH; exact Hs'].
    destruct o as [| dt events]; simpl; [apply Hstart | apply Hupdate]; exact Hs.
Qed.

Lemma new_level_inv (cfg : LevelConfig) (screen_size : Z * Z) :
  post (Level.__init__ cfg screen_size) (level_inv cfg).
Proof.
  intros w. unfold Level.__init__. destruct screen_size as [sw sh].
  unfold bind, Player.__init__, ret; simpl.
  split; [reflexivity |]. split; [| intros [H _]; discriminate H].
  unfold lanes_ok; simpl. apply Forall_map. apply Forall_forall.
  intros [i lane_cfg] _. unfold Level.make_lane, Lane.__init__, lane_ok; simpl.
  split; [reflexivity |]. split; [reflexivity |].
  split; [constructor | constructor].
Qed.

Lemma start_level_inv (cfg : LevelConfig) (s : Level.t) :
  level_inv cfg s -> post (Level.start s) (level_inv cfg).
Proof.
  intros (Hh & Hl & _). unfold Level.start.
  eapply post_bind.
  { apply post_mapM with
      (P := fun l l' => same_lane l l' /\ gaps_respected l' /\ uniform l').
    intros l _. apply reset_invariant. }
  intros ls Hls. apply post_ret.
  split; [exact Hh |]. split; [| intros [H _]; discriminate H].
  unfold lanes_ok; simpl.
  eapply Forall2_transfer; [| exact Hl | exact Hls].
  intros l l' (Hw & Hht & _) (Hs & Hg & Hu).
  destruct Hs as (_ & _ & _ & _ & Ew & Eh & _).
  unfold lane_ok. rewrite Ew, Eh. tauto.
Qed.

Lemma update_level_inv (cfg : LevelConfig) (s : Level.t) (dt : Q)
  (events : list event) :
  level_inv cfg s -> post (Level.update s dt events) (level_inv cfg).
Proof.
  intros (Hh & Hl & Hx). unfold Level.update.
  destruct (negb (Level._running s) || Level._won s || Level._lost s) eqn:E.
  - apply post_ret. split; [exact Hh |]. split; assumption.
  - apply orb_false_iff in E. destruct E as [E Elost].
    apply orb_false_iff in E. destruct E as [_ Ewon].
    eapply post_bind.
    { apply post_mapM with
        (P := fun l l' => same_lane l l' /\ gaps_respected l' /\ uniform l').
      intros l Hin. unfold lanes_ok in Hl. rewrite Forall_forall in Hl.
      destruct (Hl l Hin) as (_ & _ & Hg & Hu).
      apply update_invariant; assumption. }
    intros ls Hls.
    assert (Hok : Forall (lane_ok (Level.lane_height s)) ls).
    { eapply Forall2_transfer; [| exact Hl | exact Hls].
      intros l l' (Hw & Hht & _) (Hs & Hg & Hu).
      destruct Hs as (_ & _ & _ & _ & Ew & Eh & _).
      unfold lane_ok. rewrite Ew, Eh. tauto. }
    cbv zeta.
    repeat match goal with
           | |- context [if ?c then _ else _] => destruct c
           end;
      apply post_ret; (split; [exact Hh |]); (split; [exact Hok |]);
      simpl; rewrite ?Ewon, ?Elost; intros [A B]; discriminate.
Qed.

Lemma session_level_inv (cfg : LevelConfig) (screen_size : Z * Z)
  (ops : list Level.op) :
  post (Level.session cfg screen_size ops) (level_inv cfg).
Proof.
  unfold Level.session.
  eapply post_bind; [apply new_level_inv |].
  intros s Hs. apply run_invariant; [| | exact Hs].
  - intros s0. apply start_level_inv.
  - intros s0 dt events. apply update_level_inv.
Qed.

Lemma run_updates_terminal (calls : list (Q * list event)) (s : Level.t)
  (w : World) :
  Level._won s = true \/ Level._lost s = true ->
  Level.run s (update_ops calls) w = (s, w).
Proof.
  intros H. induction calls as [| [dt events] rest IH]; simpl.
  - reflexivity.
  - unfold bind. rewrite update_not_running by tauto. exact IH.
Qed.

(** C6.  In every state of a session [won] and [lost] are never both true;
    once either is set, every [update] call, and therefore any sequence of
    them, returns the level exactly as it was (elapsed time, flags, player
    and lanes included) and draws no random number; [start] clears both
    flags, zeroes the elapsed time and sets the session running again. *)
Theorem won_lost_exclusive_terminal (cfg : LevelConfig) (screen_size : Z * Z)
  (ops : list Level.op) (w : World)
  (s0 : Level.t) (dt : Q) (events : list event)
  (calls : list (Q * list event)) (w0 : World) :
  let s := fst (Level.session cfg screen_size ops w) in
  ~ (Level._won s = true /\ Level._lost s = true) /\
  (Level._won s0 = true \/ Level._lost s0 = true ->
   Level.update s0 dt events w0 = (s0, w0) /\
   Level.run s0 (update_ops calls) w0 = (s0, w0)) /\
  (let s1 := fst (Level.start s0 w0) in
   Level._running s1 = true /\ Level._won s1 = false /\ Level._lost s1 = false /\
   Level._time_elapsed s1 = 0%Q).
Proof.
  intros s. split; [apply (session_level_inv cfg screen_size ops w) |].
  split.
  - intros H. split; [apply update_not_running; tauto |].
    apply run_updates_terminal. exact H.
  - unfold Level.start, bind.
    destruct (mapM Lane.reset (Level.lanes s0) w0) as [ls w1]. simpl. tauto.
Qed.

Lemma won_lost_exclusive_terminal_witness :
  let hit := play (_make_level 1) [press 0.09 K_LEFT; press 0.09 K_UP] in
  Level._lost hit = true /\
  Level.run hit (update_ops [(0.5%Q, [KEYDOWN K_UP]); (1%Q, [])]) sample_world
  = (hit, sample_world).
Proof.
  intros hit.
  assert (L : Level._lost hit = true) by (vm_compute; reflexivity).
  split; [exact L |].
  destruct (won_lost_exclusive_terminal (_make_level 1) (900, 700) []
              sample_world hit 0.5 [KEYDOWN K_UP]
              [(0.5%Q, [KEYDOWN K_UP]); (1%Q, [])] sample_world)
    as (_ & H & _).
  apply H. right. exact L.
Defined.

(** ** Level: the size of the obstacles *)

Lemma fmul_nonpos (n : Z) (c : Q) :
  n <= 0 -> (0 <= c)%Q -> (fmul (inject_Z n) c <= 0)%Q.
Proof.
  intros Hn Hc. apply fl_nonpos.
  assert (Hq : (inject_Z n <= 0)%Q) by (apply (inject_Z_le n 0); exact Hn).
  setoid_replace (inject_Z n * c)%Q with (- ((- inject_Z n) * c))%Q by ring.
  assert (P : (0 <= (- inject_Z n) * c)%Q) by (apply Qmult_le_0_compat; lra).
  lra.
Qed.

Lemma Qmult_nonpos_nonneg (a c : Q) : (a <= 0 -> 0 <= c -> a * c <= 0)%Q.
Proof.
  intros Ha Hc.
  setoid_replace (a * c)%Q with (- ((- a) * c))%Q by ring.
  assert (P : (0 <= (- a) * c)%Q) by (apply Qmult_le_0_compat; lra).
  lra.
Qed.

(** On every lane height below 100, which covers the heights 61 to 70 of the
    generator, the double product of [car_height] truncates to the same
    integer as the exact product.  At 100 it does not: the double
    [100 * 1.15] is just below 115. *)
Lemma car_height_floor (lane_h : Z) :
  lane_h < 100 ->
  Level.car_height lane_h = Z.max 26 (Qfloor (inject_Z lane_h * 1.15)).
Proof.
  intros H. destruct (Z_lt_le_dec lane_h 0) as [N | P].
  - unfold Level.car_height.
    assert (Hq : (inject_Z lane_h <= 0)%Q) by (apply (inject_Z_le lane_h 0); lia).
    pose proof (py_int_nonpos _ (fmul_nonpos lane_h (fl 1.15) ltac:(lia)
                                   ltac:(vm_compute; discriminate))).
    pose proof (Qfloor_nonpos _ (Qmult_nonpos_nonneg (inject_Z lane_h) 1.15 Hq
                                   ltac:(vm_compute; discriminate))).
    lia.
  - apply Z.eqb_eq.
    apply (range_check
             (fun n => Level.car_height n
                       =? Z.max 26 (Qfloor (inject_Z n * 1.15))) 100);
      [vm_compute; reflexivity | lia].
Qed.

Lemma car_height_bounds (lane_h : Z) :
  lane_h < 100 -> 26 <= Level.car_height lane_h < 115.
Proof.
  intros H. rewrite (car_height_floor lane_h H).
  assert (Qfloor (inject_Z lane_h * 1.15) < 115); [| lia].
  rewrite <- (Qfloor_Z 115). apply Z.le_lt_trans with (Qfloor (inject_Z 99 * 1.15)).
  - apply Qfloor_resp_le. apply Qmult_le_compat_r; [| discriminate].
    apply inject_Z_le. lia.
  - vm_compute. reflexivity.
Qed.

Lemma car_width_floor (lane_h : Z) :
  lane_h < 100 ->
  Level.car_width lane_h
  = Z.max 90 (Qfloor (inject_Z (Level.car_height lane_h) * 1.49)).
Proof.
  intros H. pose proof (car_height_bounds lane_h H) as B.
  unfold Level.car_width. generalize dependent (Level.car_height lane_h).
  intros h B. apply Z.eqb_eq.
  apply (range_check
           (fun n => Z.max 90 (py_int (fmul (inject_Z n) (fl 1.49)))
                     =? Z.max 90 (Qfloor (inject_Z n * 1.49))) 115);
    [vm_compute; reflexivity | lia].
Qed.

(** At lane height 100 the cars are 114 high and 169 wide, where the exact
    products would give 115 and 171. *)
Lemma car_size_at_100 :
  Level.car_height 100 = 114 /\ Level.car_width 100 = 169 /\
  Z.max 26 (Qfloor (inject_Z 100 * 1.15)) = 115 /\
  Z.max 90 (Qfloor (inject_Z 115 * 1.49)) = 171.
Proof. vm_compute. repeat split; reflexivity. Qed.

Lemma combine_map_r {A B C} (f : B -> C) (xs : list A) (l : list B) :
  combine xs (map f l) = map (fun e => (fst e, f (snd e))) (combine xs l).
Proof.
  revert l. induction xs as [| x xs IH]; intros [| b l]; simpl;
    try reflexivity.
  rewrite IH. reflexivity.
Qed.

Lemma enumerate_map {A B} (f : A -> B) (l : list A) :
  Level.enumerate (map f l)
  = map (fun e => (fst e, f (snd e))) (Level.enumerate l).
Proof.
  unfold Level.enumerate. rewrite length_map. apply combine_map_r.
Qed.

(** [Level.__init__] never reads the [width] entry of a lane
    configuration. *)
Lemma make_lanes_forget (sw sh safe lane_h : Z) (lanes : list LaneConfig) :
  map (Level.make_lane sw sh safe lane_h) (Level.enumerate lanes)
  = map (Level.make_lane sw sh safe lane_h)
      (Level.enumerate (map forget_width lanes)).
Proof.
  rewrite enumerate_map, map_map. apply map_ext.
  intros [i lane_cfg]. reflexivity.
Qed.

Lemma new_set_config (cfg cfg' : LevelConfig) (screen_size : Z * Z) (w : World) :
  forget_widths cfg' = forget_widths cfg ->
  Level.__init__ cfg' screen_size w
  = (set_config (fst (Level.__init__ cfg screen_size w)) cfg',
     snd (Level.__init__ cfg screen_size w)).
Proof.
  intros E.
  assert (Eh : cfg_lane_height cfg' = cfg_lane_height cfg)
    by exact (f_equal cfg_lane_height E).
  assert (Ec : cfg_lane_count cfg' = cfg_lane_count cfg)
    by exact (f_equal cfg_lane_count E).
  assert (Ef : cfg_finish_padding cfg' = cfg_finish_padding cfg)
    by exact (f_equal cfg_finish_padding E).
  assert (Es : cfg_player_speed cfg' = cfg_player_speed cfg)
    by exact (f_equal cfg_player_speed E).
  assert (El : map forget_width (cfg_lanes cfg') = map forget_width (cfg_lanes cfg))
    by exact (f_equal cfg_lanes E).
  unfold Level.__init__. destruct screen_size as [sw sh].
  unfold bind, Player.__init__, ret, set_config; simpl.
  rewrite Eh, Ec, Ef, Es.
  rewrite (make_lanes_forget _ _ _ _ (cfg_lanes cfg')), El,
    <- (make_lanes_forget _ _ _ _ (cfg_lanes cfg)).
  reflexivity.
Qed.

(** Neither [start] nor [update] reads the stored configuration. *)
Lemma apply_set_config (s : Level.t) (c : LevelConfig) (o : Level.op) (w : World) :
  Level.apply (set_config s c) o w
  = (set_config (fst (Level.apply s o w)) c, snd (Level.apply s o w)).
Proof.
  destruct o as [| dt events]; simpl.
  - unfold Level.start, bind; simpl.
    destruct (mapM Lane.reset (Level.lanes s) w) as [ls w']. reflexivity.
  - unfold Level.update; simpl.
    destruct (negb (Level._running s) || Level._won s || Level._lost s);
      [reflexivity |].
    unfold bind.
    destruct (mapM _ (Level.lanes s) w) as [ls w'].
    unfold Level._finish_line_y; simpl.
    repeat match goal with
           | |- context [if ?c then _ else _] => destruct c
           end; reflexivity.
Qed.

Lemma run_set_config (ops : list Level.op) (s : Level.t) (c : LevelConfig)
  (w : World) :
  Level.run (set_config s c) ops w
  = (set_config (fst (Level.run s ops w)) c, snd (Level.run s ops w)).
Proof.
  revert s w. induction ops as [| o rest IH]; intros s w; simpl.
  - reflexivity.
  - unfold bind. rewrite apply_set_config.
    destruct (Level.apply s o w) as [s1 w1]. simpl. apply IH.
Qed.

(** The pads of the hitboxes, written with exact products in
    [Level.hitbox], are the truncated double products of the code on every
    size below 2000. *)
Lemma hitbox_pads_doubles (n : Z) :
  0 <= n < 2000 ->
  py_int (fmul (inject_Z n) (fl 0.16)) = py_int (inject_Z n * 0.16) /\
  py_int (fmul (inject_Z n) (fl 0.20)) = py_int (inject_Z n * 0.20).
Proof.
  intros H.
  set (f := fun k => (py_int (fmul (inject_Z k) (fl 0.16))
                      =? py_int (inject_Z k * 0.16))
                     && (py_int (fmul (inject_Z k) (fl 0.20))
                         =? py_int (inject_Z k * 0.20))).
  assert (K : forallb f (range 2000) = true) by (vm_compute; reflexivity).
  pose proof (range_check f 2000 n K H) as C. clear K.
  unfold f in C. apply andb_true_iff in C. destruct C as [C1 C2].
  split; apply Z.eqb_eq; assumption.
Qed.

(** C10.  The [width] entries of the lane configurations are not used: two
    configurations that differ at most in them give, for the same calls and
    random draws, sessions that differ at most in the stored configuration;
    and in every state of a session every lane and every obstacle rectangle
    has the height [max(26, int(lane_height * 1.15))] and the width
    [max(90, int(height * 1.49))] that [Level.__init__] computes from the
    lane height alone.  For every lane height below 100, so for the heights
    61 to 70 of every generated level, these are
    [max(26, floor(lane_height * 1.15))] and
    [max(90, floor(height * 1.49))]. *)
Theorem obstacle_size_from_lane_height (cfg cfg' : LevelConfig)
  (screen_size : Z * Z) (ops : list Level.op) (w : World) :
  forget_widths cfg' = forget_widths cfg ->
  let s := fst (Level.session cfg screen_size ops w) in
  let s' := fst (Level.session cfg' screen_size ops w) in
  let h := Level.car_height (cfg_lane_height cfg) in
  let wd := Level.car_width (cfg_lane_height cfg) in
  Forall (fun lane =>
            Lane.obstacle_width lane = wd /\ Lane.obstacle_height lane = h /\
            Forall (fun o => Rect.width (Obstacle.rect o) = wd /\
                             Rect.height (Obstacle.rect o) = h)
              (Lane.obstacles lane))
    (Level.lanes s) /\
  s' = set_config s cfg' /\
  Level.lanes s' = Level.lanes s /\
  (cfg_lane_height cfg < 100 ->
   h = Z.max 26 (Qfloor (inject_Z (cfg_lane_height cfg) * 1.15)) /\
   wd = Z.max 90 (Qfloor (inject_Z h * 1.49))) /\
  (forall k, cfg = _make_level k ->
   61 <= cfg_lane_height cfg <= 70 /\
   h = Z.max 26 (Qfloor (inject_Z (cfg_lane_height cfg) * 1.15)) /\
   wd = Z.max 90 (Qfloor (inject_Z h * 1.49))).
Proof.
  intros E s s' h wd.
  assert (Fl : cfg_lane_height cfg < 100 ->
               h = Z.max 26 (Qfloor (inject_Z (cfg_lane_height cfg) * 1.15)) /\
               wd = Z.max 90 (Qfloor (inject_Z h * 1.49))).
  { intros Hlt. subst h wd.
    split; [apply car_height_floor | apply car_width_floor]; exact Hlt. }
  assert (Gen : forall k, cfg = _make_level k ->
                61 <= cfg_lane_height cfg <= 70).
  { intros k ->. unfold _make_level. cbn [cfg_lane_height]. lia. }
  assert (Es : s' = set_config s cfg').
  { subst s s'. unfold Level.session, bind.
    rewrite (new_set_config cfg cfg' screen_size w E).
    destruct (Level.__init__ cfg screen_size w) as [s0 w0]. simpl fst. simpl snd.
    rewrite run_set_config. reflexivity. }
  split; [| split; [exact Es | split; [rewrite Es; reflexivity |]]].
  2: { split; [exact Fl |]. intros k Ek. pose proof (Gen k Ek) as G.
       split; [exact G | apply Fl; lia]. }
  destruct (session_level_inv cfg screen_size ops w) as (Hh & Hl & _).
  fold s in Hh, Hl. unfold lanes_ok in Hl. rewrite Hh in Hl.
  eapply Forall_impl; [| exact Hl].
  intros lane (Hw & Hht & _ & Hu).
  subst wd h.
  split; [exact Hw |]. split; [exact Hht |].
  eapply Forall_impl; [| exact Hu].
  intros o (Ow & Oh & _). rewrite Ow, Oh. split; assumption.
Qed.

Lemma obstacle_size_from_lane_height_witness :
  let ops := [Level.Start; wait 0.5; press 1 K_UP] in
  let s := fst (Level.session (_make_level 1) (900, 700) ops sample_world) in
  let s' := fst (Level.session level_1_other_widths (900, 700) ops sample_world) in
  Level.lanes s' = Level.lanes s /\
  Forall (fun lane =>
            Forall (fun o => Rect.width (Obstacle.rect o) = 119 /\
                             Rect.height (Obstacle.rect o) = 80)
              (Lane.obstacles lane))
    (Level.lanes s).
Proof.
  intros ops s s'.
  destruct (obstacle_size_from_lane_height (_make_level 1) level_1_other_widths
              (900, 700) ops sample_world) as (H & _ & E & _).
  - vm_compute; reflexivity.
  - split; [exact E |].
    eapply Forall_impl; [| exact H]. intros lane (_ & _ & Ho). exact Ho.
Defined.

(** ** Player: steps and cooldown *)

Lemma handle_event_blocked (p : Player.t) (e : event) :
  (0 < Player._move_cooldown p)%Q -> Player.handle_event p e = p.
Proof.
  intros H. apply Qle_bool_false in H.
  destruct e; simpl; try reflexivity. rewrite H. reflexivity.
Qed.

Lemma events_blocked (events : list event) (p : Player.t) :
  (0 < Player._move_cooldown p)%Q -> fold_left Player.handle_event events p = p.
Proof.
  intros H. induction events as [| e rest IH]; simpl; [reflexivity |].
  rewrite handle_event_blocked by exact H. exact IH.
Qed.



Lemma key_step_heading (p : Player.t) (k : key) :
  Player.key_step p k
  = (fst (heading k) * Player.step p, snd (heading k) * Player.step p).
Proof.
  destruct k; cbn [heading fst snd Player.key_step]; f_equal; lia.
Qed.







Lemma clamp_position (p : Player.t) :
  Player.x (Player.clamp p) = clamped_x p (Player.x p) /\
  Player.y (Player.clamp p) = clamped_y p (Player.y p) /\
  Player._move_cooldown (Player.clamp p) = Player._move_cooldown p.
Proof.
  unfold Player.clamp, clamped_x, clamped_y.
  destruct (Player.bounds p) as [[[l t] wd] h]. simpl. tauto.
Qed.









Lemma roundoff_add (n m : nat) :
  (roundoff (n + m) == roundoff n + roundoff m)%Q.
Proof.
  unfold roundoff. rewrite Nat2Z.inj_add, inject_Z_plus. ring.
Qed.






Lemma tick_cooldown_position (p : Player.t) (dt c : Q) :
  Player.tick_cooldown (Player.with_position p (Player.x p) (Player.y p) c) dt
  = Player.with_position p (Player.x p) (Player.y p) (Qmax 0.0 (fsub c dt)).
Proof. reflexivity. Qed.



(** The length of the cooldown is fixed at construction: the double 0.09
    for every player, whatever is done to it afterwards. *)
Lemma init_cooldown_time (x0 y0 r : Z) (spd : Q) (stp : Z)
  (bnds : Z * Z * Z * Z) (w : World) :
  Player._cooldown_time (fst (Player.__init__ x0 y0 r spd stp bnds w))
  = fl 0.09.
Proof. reflexivity. Qed.

Lemma handle_event_cooldown_time (p : Player.t) (e : event) :
  Player._cooldown_time (Player.handle_event p e) = Player._cooldown_time p.
Proof.
  destruct e as [k | k | | n]; simpl; try reflexivity.
  destruct (Qle_bool (Player._move_cooldown p) 0); [| reflexivity].
  destruct (Player.key_step p k) as [dx dy].
  destruct (negb (dx =? 0) || negb (dy =? 0)); reflexivity.
Qed.

Lemma update_cooldown_time (p : Player.t) (dt : Q) (events : list event) :
  Player._cooldown_time (Player.update p dt events) = Player._cooldown_time p.
Proof.
  unfold Player.update.
  assert (H : forall q, Player._cooldown_time (Player.clamp q)
                        = Player._cooldown_time q).
  { intros q. unfold Player.clamp.
    destruct (Player.bounds q) as [[[l t] wd] h]. reflexivity. }
  rewrite H.
  change (Player._cooldown_time p)
    with (Player._cooldown_time (Player.tick_cooldown p dt)).
  generalize (Player.tick_cooldown p dt). induction events as [| e rest IH];
    intros q; simpl; [reflexivity |].
  rewrite IH. apply handle_event_cooldown_time.
Qed.

Lemma reset_cooldown_time (p : Player.t) :
  Player._cooldown_time (Player.reset p) = Player._cooldown_time p.
Proof. reflexivity. Qed.





(** C8 also needs the step not to be zero: a directional key-down processed
    by a player whose step is zero while the cooldown is zero leaves the
    cooldown at zero instead of re-arming it. *)
Lemma player_zero_step_no_rearm :
  let p := fst (Player.__init__ 450 665 18 420 0 (0, 0, 900, 700) sample_world) in
  (Player._move_cooldown p <= 0)%Q /\
  directional K_UP = true /\
  Player.handle_event p (KEYDOWN K_UP) = p /\
  ~ (Player._move_cooldown (Player.handle_event p (KEYDOWN K_UP)) == fl 0.09)%Q /\
  ~ (Player._move_cooldown (Player.update p 0 [KEYDOWN K_UP]) == fl 0.09)%Q.
Proof.
  intros p. split; [vm_compute; discriminate |].
  split; [reflexivity |]. split; [reflexivity |].
  split; intros H; vm_compute in H; discriminate H.
Qed.

(** * Further properties of the code *)

(** ** The generator: difficulty *)

Lemma fmul_mono_l (a b c : Q) :
  (a <= b)%Q -> (0 <= c)%Q -> (fmul a c <= fmul b c)%Q.
Proof.
  intros H Hc. apply fl_mono. apply Qmult_le_compat_r; assumption.
Qed.

Lemma fsub_mono (a b c d : Q) :
  (a <= b)%Q -> (d <= c)%Q -> (fsub a c <= fsub b d)%Q.
Proof. intros H1 H2. apply fl_mono. lra. Qed.

(** X1.  Difficulty never decreases with the level, in each of the ways the
    comment above [_make_level] lists: for levels [1 <= n <= m <= 10], level
    [m] has at least as many lanes, and in every lane that both levels have
    the obstacles are at least as fast, spawn at least as often and keep a
    gap that is no larger; the star thresholds are no looser; the lanes are
    no higher.  Between different levels the lane count and the speeds differ
    strictly. *)
Theorem difficulty_increases (n m i : Z) :
  1 <= n <= m -> m <= 10 -> 0 <= i < cfg_lane_count (_make_level n) ->
  let a := _make_level n in
  let b := _make_level m in
  cfg_lane_count a <= cfg_lane_count b /\
  cfg_lane_height b <= cfg_lane_height a /\
  (cfg_star_times_3 b <= cfg_star_times_3 a)%Q /\
  (cfg_star_times_2 b <= cfg_star_times_2 a)%Q /\
  (n < m -> cfg_lane_count a < cfg_lane_count b) /\
  exists la lb,
    nth_error (cfg_lanes a) (Z.to_nat i) = Some la /\
    nth_error (cfg_lanes b) (Z.to_nat i) = Some lb /\
    cfg_direction lb = cfg_direction la /\
    (cfg_speed la <= cfg_speed lb)%Q /\
    (n < m -> (cfg_speed la < cfg_speed lb)%Q) /\
    (cfg_spawn_every lb <= cfg_spawn_every la)%Q /\
    cfg_gap_min lb <= cfg_gap_min la /\
    cfg_width lb <= cfg_width la.
Proof.
  intros Hn Hm Hi a b.
  assert (En : Z.max 1 (Z.min 10 n) = n) by lia.
  assert (Em : Z.max 1 (Z.min 10 m) = m) by lia.
  assert (Ca : cfg_lane_count a = 5 + n) by (subst a; unfold _make_level; cbn [cfg_lane_count]; lia).
  assert (Cb : cfg_lane_count b = 5 + m) by (subst b; unfold _make_level; cbn [cfg_lane_count]; lia).
  fold a in Hi.
  split; [lia |].
  split; [subst a b; unfold _make_level; cbn [cfg_lane_height]; lia |].
  pose proof (inject_Z_le (n - 1) (m - 1) ltac:(lia)) as Hnm.
  split.
  { subst a b. unfold _make_level; cbn [cfg_star_times_3]. rewrite En, Em.
    apply Q.max_le_compat_l. apply fsub_mono; [apply Qle_refl |].
    apply fmul_mono_l; [exact Hnm | vm_compute; discriminate]. }
  split.
  { subst a b. unfold _make_level; cbn [cfg_star_times_2]. rewrite En, Em.
    apply Q.max_le_compat_l. apply fsub_mono; [apply Qle_refl |].
    apply fmul_mono_l; [exact Hnm | vm_compute; discriminate]. }
  split; [lia |].
  exists (make_lane n i), (make_lane m i).
  split; [subst a; rewrite make_level_lane by exact Hi; rewrite En; reflexivity |].
  split; [subst b; rewrite make_level_lane by lia; rewrite Em; reflexivity |].
  unfold make_lane;
    cbn [cfg_direction cfg_speed cfg_spawn_every cfg_gap_min cfg_width].
  split; [reflexivity |].
  split; [apply inject_Z_le; lia |].
  split; [intros Hlt; unfold py_float; rewrite <- Zlt_Qlt; lia |].
  split.
  { apply Q.max_le_compat_l. apply fsub_mono; [| apply Qle_refl].
    apply fsub_mono; [apply Qle_refl |].
    apply fmul_mono_l; [exact Hnm | vm_compute; discriminate]. }
  split; lia.
Qed.

Lemma difficulty_increases_witness :
  cfg_lane_count (_make_level 2) < cfg_lane_count (_make_level 5) /\
  (cfg_star_times_3 (_make_level 5) <= cfg_star_times_3 (_make_level 2))%Q.
Proof.
  destruct (difficulty_increases 2 5 3) as (_ & _ & H3 & _ & Hc & _);
    [lia | lia | vm_compute; split; [discriminate | reflexivity] |].
  split; [apply Hc; lia | exact H3].
Defined.

(** ** Obstacle: direction and sense of motion *)

Lemma py_int_ge_nonpos (q : Q) : (q <= 0)%Q -> (q <= inject_Z (py_int q))%Q.
Proof.
  intros H. assert (Hn : (0 <= - q)%Q) by lra.
  pose proof (py_int_le_nonneg _ Hn) as L.
  rewrite py_int_opp, inject_Z_opp in L. lra.
Qed.

Lemma fmul_nonneg (a b : Q) : (0 <= a)%Q -> (0 <= b)%Q -> (0 <= fmul a b)%Q.
Proof.
  intros Ha Hb. apply fl_nonneg. apply Qmult_le_0_compat; assumption.
Qed.

Lemma fmul_nonpos_l (a b : Q) : (a <= 0)%Q -> (0 <= b)%Q -> (fmul a b <= 0)%Q.
Proof.
  intros Ha Hb. apply fl_nonpos. apply Qmult_nonpos_nonneg; assumption.
Qed.

(** X2.  An obstacle's direction is normalised to [+1] or [-1] when it is
    built (0 counts as [+1]); with a non-negative speed and [dt >= 0],
    [update] never moves it against that direction and never farther than
    the double product [direction * speed * dt]. *)
Theorem obstacle_moves_forward (r : Rect.t) (spd : Q) (dir : Z) (dt : Q)
  (w : World) :
  (0 <= spd)%Q -> (0 <= dt)%Q ->
  let o := fst (Obstacle.__init__ r spd dir w) in
  let dx := Rect.x (Obstacle.rect (Obstacle.update o dt)) - Rect.x (Obstacle.rect o) in
  Obstacle.rect o = r /\
  (0 <= dir -> Obstacle.direction o = 1 /\ 0 <= dx /\
               (inject_Z dx <= fmul (fmul 1 spd) dt)%Q) /\
  (dir < 0 -> Obstacle.direction o = -1 /\ dx <= 0 /\
              (fmul (fmul (-1) spd) dt <= inject_Z dx)%Q).
Proof.
  intros Hs Hd o dx.
  destruct (obstacle_new_fields r spd dir w) as (Er & Es & Ed).
  fold o in Er, Es, Ed.
  assert (Edx : dx = Obstacle.displacement o dt).
  { subst dx. unfold Obstacle.update; simpl. lia. }
  split; [exact Er |].
  unfold Obstacle.displacement in Edx. rewrite Es, Ed in Edx.
  split; intros Hdir.
  - destruct (Z.leb_spec 0 dir) as [_ | ?]; [| lia].
    split; [exact Ed |].
    change (inject_Z 1) with 1%Q in Edx.
    assert (Hp : (0 <= fmul (fmul 1 spd) dt)%Q).
    { apply fmul_nonneg; [apply fmul_nonneg; lra | exact Hd]. }
    rewrite Edx.
    split; [apply py_int_nonneg; exact Hp | apply py_int_le_nonneg; exact Hp].
  - destruct (Z.leb_spec 0 dir) as [? | _]; [lia |].
    split; [exact Ed |].
    change (inject_Z (-1)) with (-1)%Q in Edx.
    assert (Hp : (fmul (fmul (-1) spd) dt <= 0)%Q).
    { apply fmul_nonpos_l; [apply fmul_nonpos_l; lra | exact Hd]. }
    rewrite Edx.
    split; [apply py_int_nonpos; exact Hp | apply py_int_ge_nonpos; exact Hp].
Qed.

Lemma obstacle_moves_forward_witness :
  let o := fst (Obstacle.__init__ (Rect.mk 40 555 119 80) 176 0 sample_world) in
  Obstacle.direction o = 1 /\
  Rect.x (Obstacle.rect (Obstacle.update o 0.016)) = 42.
Proof.
  intros o.
  destruct (obstacle_moves_forward (Rect.mk 40 555 119 80) 176 0 0.016
              sample_world) as (_ & H & _);
    [vm_compute; discriminate | vm_compute; discriminate |].
  destruct H as (Hd & _); [lia |].
  split; [exact Hd | vm_compute; reflexivity].
Defined.

(** ** Lane: the correction pass of [update] *)

Lemma translate_0 (o : Obstacle.t) : translate 0 o = o.
Proof.
  destruct o as [[x y w h] s d i c]. unfold translate, Rect.set_x; simpl.
  rewrite Z.add_0_r. reflexivity.
Qed.

Lemma move_right_edge_translate (o : Obstacle.t) (v : Z) :
  Lane.move_right_edge o v = translate (v - Rect.right (Obstacle.rect o)) o.
Proof.
  unfold Lane.move_right_edge, translate, Rect.set_right, Rect.set_x, Rect.right.
  f_equal. f_equal. lia.
Qed.

Lemma move_left_edge_translate (o : Obstacle.t) (v : Z) :
  Lane.move_left_edge o v = translate (v - Rect.left (Obstacle.rect o)) o.
Proof.
  unfold Lane.move_left_edge, translate, Rect.set_left, Rect.set_x, Rect.left.
  f_equal. f_equal. lia.
Qed.

Lemma push_back_right_spaces (gap : Z) (obs : list Obstacle.t) :
  adjacent_gaps gap (Lane.push_back_right gap obs) /\
  Forall2 (fun o o' => exists d, 0 <= d /\ o' = translate (- d) o)
    obs (Lane.push_back_right gap obs) /\
  forall d, last (Lane.push_back_right gap obs) d = last obs d.
Proof.
  induction obs as [| back rest (IHa & IHf & IHl)].
  - simpl. repeat split. constructor.
  - cbn [Lane.push_back_right].
    destruct (Lane.push_back_right gap rest) as [| front rest'] eqn:E.
    + inversion IHf; subst. cbv zeta. split; [exact I |]. split; [| reflexivity].
      constructor; [| constructor].
      exists 0. split; [lia | symmetry; apply translate_0].
    + cbv zeta.
      assert (Hrest : rest <> []) by (intros ->; inversion IHf).
      split; [| split].
      * cbn [adjacent_gaps]. split; [| exact IHa].
        destruct (Z.gtb_spec (Rect.right (Obstacle.rect back))
                    (Rect.left (Obstacle.rect front) - gap)) as [G | G].
        -- unfold Lane.move_right_edge, Rect.set_right, Rect.set_x, Rect.right,
             Rect.left; simpl. lia.
        -- lia.
      * constructor; [| exact IHf].
        destruct (Z.gtb_spec (Rect.right (Obstacle.rect back))
                    (Rect.left (Obstacle.rect front) - gap)) as [G | G].
        -- exists (Rect.right (Obstacle.rect back)
                   - (Rect.left (Obstacle.rect front) - gap)).
           split; [lia |]. rewrite move_right_edge_translate. f_equal. lia.
        -- exists 0. split; [lia | symmetry; apply translate_0].
      * intros d. specialize (IHl d).
        destruct rest as [| r0 rest0]; [congruence |].
        cbn [last] in *. exact IHl.
Qed.

Lemma push_back_left_from_spaces (gap : Z) (obs : list Obstacle.t)
  (front : Obstacle.t) :
  adjacent_gaps gap (front :: Lane.push_back_left_from gap front obs) /\
  Forall2 (fun o o' => exists d, 0 <= d /\ o' = translate d o)
    obs (Lane.push_back_left_from gap front obs).
Proof.
  revert front. induction obs as [| back rest IH]; intros front.
  - simpl. split; [exact I | constructor].
  - cbn [Lane.push_back_left_from]. cbv zeta.
    set (back' := if Rect.left (Obstacle.rect back)
                     <? Rect.right (Obstacle.rect front) + gap
                  then _ else back).
    destruct (IH back') as [IHa IHf].
    split.
    + cbn [adjacent_gaps]. split; [| exact IHa].
      subst back'.
      destruct (Z.ltb_spec (Rect.left (Obstacle.rect back))
                  (Rect.right (Obstacle.rect front) + gap)) as [G | G].
      * unfold Lane.move_left_edge, Rect.set_left, Rect.set_x, Rect.left; simpl.
        lia.
      * lia.
    + constructor; [| exact IHf].
      subst back'.
      destruct (Z.ltb_spec (Rect.left (Obstacle.rect back))
                  (Rect.right (Obstacle.rect front) + gap)) as [G | G].
      * exists (Rect.right (Obstacle.rect front) + gap
                - Rect.left (Obstacle.rect back)).
        split; [lia |]. apply move_left_edge_translate.
      * exists 0. split; [lia | symmetry; apply translate_0].
Qed.

Lemma push_back_left_spaces (gap : Z) (obs : list Obstacle.t) :
  adjacent_gaps gap (Lane.push_back_left gap obs) /\
  Forall2 (fun o o' => exists d, 0 <= d /\ o' = translate d o)
    obs (Lane.push_back_left gap obs) /\
  hd_error (Lane.push_back_left gap obs) = hd_error obs.
Proof.
  destruct obs as [| front rest]; simpl.
  - repeat split. constructor.
  - destruct (push_back_left_from_spaces gap rest front) as [Ha Hf].
    split; [exact Ha |]. split; [| reflexivity].
    constructor; [| exact Hf].
    exists 0. split; [lia | symmetry; apply translate_0].
Qed.

(** X3.  The gap correction pass of [Lane.update], on any list of obstacles
    and for either direction: afterwards every obstacle ends at least
    [min_gap] before the next one begins; no obstacle is added or dropped;
    an obstacle is only ever shifted against the lane's direction (its other
    fields untouched), and the obstacle in front (the last one for a lane
    moving right, the first one for a lane moving left) is not moved. *)
Theorem correction_pass_spaces (gap : Z) (obs : list Obstacle.t) :
  let r := Lane.push_back_right gap obs in
  let l := Lane.push_back_left gap obs in
  (adjacent_gaps gap r /\
   length r = length obs /\
   Forall2 (fun o o' => exists d, 0 <= d /\ o' = translate (- d) o) obs r /\
   forall d, last r d = last obs d) /\
  (adjacent_gaps gap l /\
   length l = length obs /\
   Forall2 (fun o o' => exists d, 0 <= d /\ o' = translate d o) obs l /\
   hd_error l = hd_error obs).
Proof.
  intros r l.
  destruct (push_back_right_spaces gap obs) as (Ra & Rf & Rl).
  destruct (push_back_left_spaces gap obs) as (La & Lf & Lh).
  split.
  - split; [exact Ra |]. split; [symmetry; eapply Forall2_length; exact Rf |].
    split; assumption.
  - split; [exact La |]. split; [symmetry; eapply Forall2_length; exact Lf |].
    split; assumption.
Qed.

(** ** Lane: what [reset] seeds *)

Lemma randint_range (a b : Z) :
  a <= b -> post (randint a b) (fun v => a <= v <= b).
Proof.
  intros H w. unfold randint, bind, next_draw, ret; simpl.
  pose proof (Z.mod_pos_bound (draws w (cursor w)) (b - a + 1) ltac:(lia)). lia.
Qed.

Lemma post_replicateM {A} (n : nat) (m : Rand A) (P : A -> Prop) :
  post m P -> post (replicateM n m) (fun l => length l = n /\ Forall P l).
Proof.
  intros H. induction n as [| n IH]; simpl.
  - apply post_ret. split; [reflexivity | constructor].
  - eapply post_bind; [exact H | intros a Ha].
    eapply post_bind; [exact IH | intros l [Hl HP]].
    apply post_ret. split; [simpl; congruence | constructor; assumption].
Qed.

Lemma place_all (l : Lane.t) (y seed_count : Z) (R : Rect.t -> Prop)
  (candidates : list Z) (placed : list Rect.t) :
  Forall R placed ->
  Forall (fun x => R (Rect.mk x y (Lane.obstacle_width l) (Lane.obstacle_height l)))
    candidates ->
  Forall R (Lane.place l y seed_count candidates placed).
Proof.
  revert placed. induction candidates as [| x rest IH]; intros placed Hp Hc; simpl.
  - exact Hp.
  - inversion Hc; subst.
    destruct (Z.of_nat (length placed) >=? seed_count); [exact Hp |].
    destruct (forallb _ placed); [| apply IH; assumption].
    apply IH; [| assumption].
    apply Forall_app. split; [exact Hp | constructor; [assumption | constructor]].
Qed.

Lemma place_grows (l : Lane.t) (y seed_count : Z) (candidates : list Z)
  (placed : list Rect.t) :
  (length placed <= length (Lane.place l y seed_count candidates placed))%nat.
Proof.
  revert placed. induction candidates as [| x rest IH]; intros placed; simpl.
  - lia.
  - destruct (Z.of_nat (length placed) >=? seed_count); [lia |].
    destruct (forallb _ placed); [| apply IH].
    specialize (IH (placed ++ [Rect.mk x y (Lane.obstacle_width l)
                                 (Lane.obstacle_height l)])).
    rewrite length_app in IH. simpl in IH. lia.
Qed.

Lemma place_first (l : Lane.t) (y seed_count : Z) (candidates : list Z) :
  1 <= seed_count -> candidates <> [] ->
  (1 <= length (Lane.place l y seed_count candidates []))%nat.
Proof.
  intros Hs Hc. destruct candidates as [| x rest]; [congruence |].
  simpl. destruct (Z.geb_spec 0 seed_count) as [G | G]; [lia |].
  pose proof (place_grows l y seed_count rest
                [Rect.mk x y (Lane.obstacle_width l) (Lane.obstacle_height l)]) as H.
  simpl in H. exact H.
Qed.

Lemma reset_seeds_post (l : Lane.t) :
  post (Lane.reset l)
    (fun l' =>
       (1 <= length (Lane.obstacles l') <= 3)%nat /\
       Forall (fun o =>
                 0 <= Rect.x (Obstacle.rect o)
                   <= Z.max 0 (Rect.width (Lane.rect l) - Lane.obstacle_width l) /\
                 Rect.y (Obstacle.rect o)
                 = Rect.centery (Lane.rect l) - Lane.obstacle_height l / 2 /\
                 Rect.width (Obstacle.rect o) = Lane.obstacle_width l /\
                 Rect.height (Obstacle.rect o) = Lane.obstacle_height l)
         (Lane.obstacles l') /\
       StronglySorted (fun a b => Lane.key_x a <= Lane.key_x b) (Lane.obstacles l') /\
       Lane._spawn_timer l' = 0%Q).
Proof.
  unfold Lane.reset.
  eapply post_bind; [apply (randint_range 1 3); lia | intros seed_count Hseed].
  cbv beta in Hseed.
  eapply post_bind.
  { apply post_replicateM. apply randint_range. lia. }
  intros candidates [Hlen Hcand].
  set (span := Z.max 0 (Rect.width (Lane.rect l) - Lane.obstacle_width l)) in *.
  set (y := Rect.centery (Lane.rect l) - Lane.obstacle_height l / 2).
  set (sorted := sort_by (fun x => x) candidates).
  set (placed := Lane.place l y seed_count sorted []).
  assert (Hsorted : Forall (fun v => 0 <= v <= span) sorted).
  { eapply Permutation_Forall; [symmetry; apply sort_by_perm | exact Hcand]. }
  assert (Hne : sorted <> []).
  { intros E. pose proof (Permutation_length (sort_by_perm (fun x => x) candidates)) as L.
    fold sorted in L. rewrite E, Hlen in L. discriminate. }
  assert (Hcount : (1 <= length placed <= 3)%nat).
  { split; [apply place_first; [lia | exact Hne] |].
    pose proof (place_length l y seed_count sorted [] ltac:(simpl; lia)) as L.
    fold placed in L. lia. }
  assert (Hrects : Forall (fun r => 0 <= Rect.x r <= span /\ Rect.y r = y /\
                                    Rect.width r = Lane.obstacle_width l /\
                                    Rect.height r = Lane.obstacle_height l) placed).
  { apply place_all; [constructor |].
    eapply Forall_impl; [| exact Hsorted]. intros v Hv. cbv beta in Hv. simpl. repeat split; try reflexivity; lia. }
  eapply post_bind.
  { apply post_mapM with (P := fun r o => Obstacle.rect o = r).
    intros r _. eapply post_weaken; [apply obstacle_new_fields |].
    intros o Ho. apply Ho. }
  intros obs Hobs. apply post_ret. cbn [Lane.obstacles Lane.with_obstacles
    Lane._spawn_timer Lane.with_spawn_timer].
  pose proof (Permutation_length (sort_by_perm Lane.key_x obs)) as L.
  pose proof (Forall2_length Hobs) as L2.
  split; [lia |].
  split; [| split; [apply sort_by_sorted | reflexivity]].
  eapply Permutation_Forall; [symmetry; apply sort_by_perm |].
  clear - Hobs Hrects.
  induction Hobs as [| r o rs os Er _ IH]; [constructor |].
  inversion Hrects; subst. constructor; [assumption | apply IH; assumption].
Qed.

(** X4.  [Lane.reset] seeds between one and three obstacles; each has the
    lane's obstacle size, is vertically centred on the lane
    ([y = centery - obstacle_height // 2]) and starts at an x between 0 and
    [max(0, rect.width - obstacle_width)]; the list is left sorted by x and
    the spawn timer is 0. *)
Theorem reset_seeds (l : Lane.t) (w : World) :
  let l' := fst (Lane.reset l w) in
  (1 <= length (Lane.obstacles l') <= 3)%nat /\
  Forall (fun o =>
            0 <= Rect.x (Obstacle.rect o)
              <= Z.max 0 (Rect.width (Lane.rect l) - Lane.obstacle_width l) /\
            Rect.y (Obstacle.rect o)
            = Rect.centery (Lane.rect l) - Lane.obstacle_height l / 2 /\
            Rect.width (Obstacle.rect o) = Lane.obstacle_width l /\
            Rect.height (Obstacle.rect o) = Lane.obstacle_height l)
    (Lane.obstacles l') /\
  StronglySorted (fun a b => Lane.key_x a <= Lane.key_x b) (Lane.obstacles l') /\
  Lane._spawn_timer l' = 0%Q.
Proof. intros l'. apply (reset_seeds_post l w). Qed.

(** ** Lane: how [update] moves, paces and places obstacles *)

Lemma post_conj {A} (m : Rand A) (P Q : A -> Prop) :
  post m P -> post m Q -> post m (fun a => P a /\ Q a).
Proof. intros HP HQ w. split; [apply HP | apply HQ]. Qed.

Lemma reset_then_updates_invariant (l : Lane.t) (calls : list (Q * Z)) :
  post (Lane.reset_then_updates l calls)
    (fun l' => same_lane l l' /\ gaps_respected l' /\ uniform l').
Proof.
  unfold Lane.reset_then_updates.
  eapply post_bind; [apply reset_invariant |].
  intros l0 (S0 & G0 & U0).
  eapply post_weaken; [apply updates_invariant; assumption |].
  intros l' (S1 & G1 & U1).
  split; [eapply same_lane_trans; eassumption | split; assumption].
Qed.

Lemma sort_by_short {A} (key : A -> Z) (l : list A) :
  (length l <= 1)%nat -> sort_by key l = l.
Proof. destruct l as [| a [| b l]]; simpl; intros; try reflexivity; lia. Qed.

Lemma moved_adjacent (l : Lane.t) (delta : Z) :
  gaps_respected l -> uniform l ->
  adjacent_gaps (Lane.min_gap l)
    (sort_by Lane.key_x (map (translate delta) (Lane.obstacles l))).
Proof.
  intros Hg Hu.
  apply sorted_adjacent_gaps with (width := Lane.obstacle_width l).
  - apply sort_by_sorted.
  - eapply Permutation_Forall; [symmetry; apply sort_by_perm |].
    apply Forall_map. eapply Forall_impl; [| exact Hu].
    intros o Ho. apply (translate_made_by l delta o Ho).
  - eapply pairwise_perm;
      [apply obstacles_separated_sym | symmetry; apply sort_by_perm |].
    eapply pairwise_map; [| exact Hg].
    intros a b. apply translate_separated.
Qed.

(** In a lane whose obstacles are uniform and keep their gaps, the first
    half of [update] is a rigid motion followed by the off-screen filter. *)
Lemma advance_rigid (l : Lane.t) (dt : Q) (screen_width : Z) :
  gaps_respected l -> uniform l ->
  Lane.advance_obstacles l dt screen_width
  = let moved := sort_by Lane.key_x
                   (map (translate (lane_displacement l dt)) (Lane.obstacles l)) in
    if Lane.direction l >? 0
    then filter (fun o => Rect.left (Obstacle.rect o) <? screen_width + 200) moved
    else filter (fun o => Rect.right (Obstacle.rect o) >? -200) moved.
Proof.
  intros Hg Hu. unfold Lane.advance_obstacles.
  assert (Em : map (fun o => Obstacle.update o dt) (Lane.obstacles l)
               = map (translate (lane_displacement l dt)) (Lane.obstacles l)).
  { apply map_ext_in. intros o Ho. apply update_translate.
    unfold uniform in Hu. rewrite Forall_forall in Hu. apply Hu, Ho. }
  rewrite Em.
  set (moved := map (translate (lane_displacement l dt)) (Lane.obstacles l)).
  pose proof (moved_adjacent l (lane_displacement l dt) Hg Hu) as As.
  fold moved in As.
  assert (Es : (if Z.of_nat (length moved) >? 1
                then if Lane.direction l >? 0
                     then Lane.push_back_right (Lane.min_gap l)
                            (sort_by Lane.key_x moved)
                     else Lane.push_back_left (Lane.min_gap l)
                            (sort_by Lane.key_x moved)
                else moved) = sort_by Lane.key_x moved).
  { destruct (Z.gtb_spec (Z.of_nat (length moved)) 1).
    - destruct (Lane.direction l >? 0);
        [apply push_back_right_noop | apply push_back_left_noop]; exact As.
    - symmetry. apply sort_by_short. lia. }
  cbv zeta. rewrite Es. reflexivity.
Qed.

(** X5.  In every lane state reached by [reset] and [update] calls, the gap
    correction pass of [update] has nothing to correct: the obstacles move
    as one rigid body, each by the lane's displacement
    [int(direction * speed * dt)], the double product truncated, and the
    only other change is the removal of those that left the screen by more
    than 200 pixels. *)
Theorem lane_moves_rigidly (l : Lane.t) (calls : list (Q * Z)) (w : World)
  (dt : Q) (screen_width : Z) :
  let l' := fst (Lane.reset_then_updates l calls w) in
  let moved := sort_by Lane.key_x
                 (map (translate (lane_displacement l' dt)) (Lane.obstacles l')) in
  Lane.advance_obstacles l' dt screen_width
  = if Lane.direction l' >? 0
    then filter (fun o => Rect.left (Obstacle.rect o) <? screen_width + 200) moved
    else filter (fun o => Rect.right (Obstacle.rect o) >? -200) moved.
Proof.
  intros l' moved.
  destruct (reset_then_updates_invariant l calls w) as (_ & Hg & Hu).
  apply (advance_rigid l' dt screen_width Hg Hu).
Qed.

Lemma advance_length (l : Lane.t) (dt : Q) (screen_width : Z) :
  (length (Lane.advance_obstacles l dt screen_width)
   <= length (Lane.obstacles l))%nat.
Proof.
  unfold Lane.advance_obstacles.
  set (moved := map (fun o => Obstacle.update o dt) (Lane.obstacles l)).
  assert (Lm : length moved = length (Lane.obstacles l)) by apply length_map.
  set (spaced := if Z.of_nat (length moved) >? 1 then _ else moved).
  assert (Ls : length spaced = length moved).
  { subst spaced. destruct (Z.of_nat (length moved) >? 1); [| reflexivity].
    pose proof (Permutation_length (sort_by_perm Lane.key_x moved)) as Lp.
    destruct (Lane.direction l >? 0).
    - destruct (push_back_right_spaces (Lane.min_gap l) (sort_by Lane.key_x moved))
        as (_ & F & _).
      apply Forall2_length in F. congruence.
    - destruct (push_back_left_spaces (Lane.min_gap l) (sort_by Lane.key_x moved))
        as (_ & F & _).
      apply Forall2_length in F. congruence. }
  cbv zeta.
  destruct (Lane.direction l >? 0);
    match goal with |- (length (filter ?f ?s) <= _)%nat =>
      pose proof (filter_length_le f s) end; lia.
Qed.

(** The three ways an [update] call can end. *)
Lemma update_cases (l : Lane.t) (dt : Q) (screen_width : Z) :
  post (Lane.update l dt screen_width)
    (fun l' =>
       let adv := Lane.advance_obstacles l dt screen_width in
       let l3 := Lane.with_spawn_timer (Lane.with_obstacles l adv) 0 in
       (Qle_bool (Lane.spawn_every l) (fadd (Lane._spawn_timer l) dt) = false /\
        l' = Lane.with_spawn_timer (Lane.with_obstacles l adv)
               (fadd (Lane._spawn_timer l) dt)) \/
       (Qle_bool (Lane.spawn_every l) (fadd (Lane._spawn_timer l) dt) = true /\
        Lane._can_spawn l3 screen_width = false /\ l' = l3) \/
       (Qle_bool (Lane.spawn_every l) (fadd (Lane._spawn_timer l) dt) = true /\
        Lane._can_spawn l3 screen_width = true /\
        exists o, l' = Lane.with_obstacles l3 (adv ++ [o]) /\ made_by l o /\
                  Rect.x (Obstacle.rect o) = Lane.spawn_x l3 screen_width)).
Proof.
  unfold Lane.update. cbv zeta.
  cbn [Lane._spawn_timer Lane.with_obstacles Lane.with_spawn_timer Lane.spawn_every].
  destruct (Qle_bool (Lane.spawn_every l) (fadd (Lane._spawn_timer l) dt)) eqn:E.
  - match goal with |- context [if ?c then _ else _] => destruct c eqn:C end.
    + unfold Lane._spawn.
      eapply post_bind; [apply obstacle_new_fields |].
      intros o (Er & Es & Ed). apply post_ret.
      right; right. split; [reflexivity |]. split; [exact C |].
      exists o. split; [reflexivity |].
      unfold made_by. rewrite Er, Es, Ed. simpl. tauto.
    + apply post_ret. right; left. split; [reflexivity |].
      split; [exact C | reflexivity].
  - apply post_ret. left. split; reflexivity.
Qed.

Lemma update_pacing (l : Lane.t) (dt : Q) (screen_width : Z) :
  post (Lane.update l dt screen_width)
    (fun l' =>
       same_lane l l' /\
       (length (Lane.obstacles l') <= S (length (Lane.obstacles l)))%nat /\
       (Qle_bool (Lane.spawn_every l) (fadd (Lane._spawn_timer l) dt) = false ->
        (length (Lane.obstacles l') <= length (Lane.obstacles l))%nat /\
        Lane._spawn_timer l' = (fadd (Lane._spawn_timer l) dt)) /\
       (Qle_bool (Lane.spawn_every l) (fadd (Lane._spawn_timer l) dt) = true ->
        Lane._spawn_timer l' = 0%Q)).
Proof.
  eapply post_weaken; [apply update_cases |].
  pose proof (advance_length l dt screen_width) as La.
  intros l' [(E & ->) | [(E & C & ->) | (E & C & o & -> & Ho & Hx)]];
    cbn [Lane.obstacles Lane._spawn_timer Lane.with_obstacles Lane.with_spawn_timer];
    (split; [unfold same_lane; simpl; tauto |]);
    rewrite ?length_app; cbn [length];
    (split; [lia |]); split; intros E'; try congruence; try reflexivity;
    split; [lia | reflexivity].
Qed.

Lemma updates_timer (calls : list (Q * Z)) (l : Lane.t) :
  (0 < Lane.spawn_every l)%Q ->
  Forall (fun c => 0 <= fst c)%Q calls ->
  (0 <= Lane._spawn_timer l)%Q /\ (Lane._spawn_timer l < Lane.spawn_every l)%Q ->
  post (Lane.updates l calls)
    (fun l' => same_lane l l' /\
               (0 <= Lane._spawn_timer l')%Q /\
               (Lane._spawn_timer l' < Lane.spawn_every l)%Q).
Proof.
  intros He Hc. revert l He.
  induction Hc as [| [dt sw] rest Hdt _ IH]; intros l He [H0 H1]; simpl.
  - apply post_ret. split; [apply same_lane_refl | split; assumption].
  - simpl in Hdt.
    eapply post_bind; [apply update_pacing |].
    intros l1 (S1 & _ & Hf & Ht).
    assert (Ee : Lane.spawn_every l1 = Lane.spawn_every l) by apply S1.
    assert (T1 : (0 <= Lane._spawn_timer l1)%Q /\
                 (Lane._spawn_timer l1 < Lane.spawn_every l1)%Q).
    { rewrite Ee.
      destruct (Qle_bool (Lane.spawn_every l) (fadd (Lane._spawn_timer l) dt)) eqn:E.
      - rewrite (Ht eq_refl). split; [lra | exact He].
      - destruct (Hf eq_refl) as [_ ->]. apply Qle_bool_false in E.
        split; [apply fl_nonneg; lra | exact E]. }
    eapply post_weaken; [apply IH; [rewrite Ee; exact He | exact T1] |].
    intros l' (S' & A & B). rewrite Ee in B.
    split; [eapply same_lane_trans; eassumption | split; assumption].
Qed.

Lemma reset_then_updates_timer (l : Lane.t) (calls : list (Q * Z)) :
  (0 < Lane.spawn_every l)%Q ->
  Forall (fun c => 0 <= fst c)%Q calls ->
  post (Lane.reset_then_updates l calls)
    (fun l1 => same_lane l l1 /\ (0 <= Lane._spawn_timer l1)%Q /\
               (Lane._spawn_timer l1 < Lane.spawn_every l)%Q).
Proof.
  intros He Hc. unfold Lane.reset_then_updates.
  eapply post_bind.
  { apply post_conj; [apply reset_invariant | apply reset_seeds_post]. }
  intros l0 ((S0 & _) & (_ & _ & _ & T0)).
  assert (Ee : Lane.spawn_every l0 = Lane.spawn_every l) by apply S0.
  eapply post_weaken.
  { apply updates_timer; [rewrite Ee; exact He | exact Hc |].
    rewrite T0, Ee. split; [lra | exact He]. }
  intros l' (S' & A & B). rewrite Ee in B.
  split; [eapply same_lane_trans; eassumption | split; assumption].
Qed.

(** X6.  Spawning is paced by the lane's timer.  With a positive
    [spawn_every] and non-negative time steps, the timer of a lane stays in
    [[0, spawn_every)] after [reset] and any [update] calls; one more
    [update] adds at most one obstacle, and none when the double sum of the
    timer and [dt] is still below [spawn_every]. *)
Theorem spawn_pacing (l : Lane.t) (calls : list (Q * Z)) (w : World)
  (dt : Q) (screen_width : Z) (w' : World) :
  (0 < Lane.spawn_every l)%Q ->
  Forall (fun c => 0 <= fst c)%Q calls ->
  let l1 := fst (Lane.reset_then_updates l calls w) in
  let l2 := fst (Lane.update l1 dt screen_width w') in
  (0 <= Lane._spawn_timer l1)%Q /\
  (Lane._spawn_timer l1 < Lane.spawn_every l)%Q /\
  (length (Lane.obstacles l2) <= length (Lane.obstacles l1) + 1)%nat /\
  ((fadd (Lane._spawn_timer l1) dt < Lane.spawn_every l)%Q ->
   (length (Lane.obstacles l2) <= length (Lane.obstacles l1))%nat).
Proof.
  intros He Hc l1 l2.
  destruct (reset_then_updates_timer l calls He Hc w) as (S1 & A & B).
  fold l1 in S1, A, B.
  destruct (update_pacing l1 dt screen_width w') as (_ & L & Hf & _).
  fold l2 in L, Hf.
  split; [exact A |]. split; [exact B |]. split; [lia |].
  intros Hlt. apply Hf. apply Qle_bool_false.
  replace (Lane.spawn_every l1) with (Lane.spawn_every l) by (symmetry; apply S1).
  exact Hlt.
Qed.

Lemma spawn_pacing_witness :
  let l := Lane.__init__ (Rect.mk 0 560 900 70) 1 170 1.25 119 80 165 in
  let l1 := fst (Lane.reset_then_updates l [(0.5%Q, 900); (0.5%Q, 900)] sample_world) in
  (Lane._spawn_timer l1 < 1.25)%Q /\
  (length (Lane.obstacles (fst (Lane.update l1 0.1 900 sample_world)))
   <= length (Lane.obstacles l1))%nat.
Proof.
  intros l l1.
  destruct (spawn_pacing l [(0.5%Q, 900); (0.5%Q, 900)] sample_world 0.1 900
              sample_world) as (_ & B & _ & N).
  - vm_compute; reflexivity.
  - repeat constructor; vm_compute; discriminate.
  - split; [exact B |]. apply N. vm_compute; reflexivity.
Defined.

(** ** Lane: where new obstacles start *)

Lemma spawn_x_off_screen (l : Lane.t) (screen_width : Z) :
  (Lane.direction l > 0 ->
   Lane.spawn_x l screen_width <= - Lane.obstacle_width l - 20) /\
  (Lane.direction l <= 0 -> screen_width + 20 <= Lane.spawn_x l screen_width).
Proof.
  unfold Lane.spawn_x. split; intros Hd.
  - destruct (Z.gtb_spec (Lane.direction l) 0) as [_ | ?]; [| lia].
    destruct (min_by Lane.key_left (Lane.obstacles l)); cbv zeta; lia.
  - destruct (Z.gtb_spec (Lane.direction l) 0) as [? | _]; [lia |].
    destruct (max_by Lane.key_right (Lane.obstacles l)); cbv zeta; lia.
Qed.

Lemma spawn_x_gated (l : Lane.t) (screen_width : Z) :
  Lane._can_spawn l screen_width = true ->
  (Lane.direction l > 0 -> 0 <= Lane.obstacle_width l ->
   - 2 * Lane.obstacle_width l - 20 <= Lane.spawn_x l screen_width) /\
  (Lane.direction l <= 0 -> Lane.spawn_x l screen_width = screen_width + 20).
Proof.
  unfold Lane._can_spawn, Lane.spawn_x. intros C. split.
  - intros Hd Hw.
    destruct (Z.gtb_spec (Lane.direction l) 0) as [_ | ?]; [| lia].
    destruct (min_by Lane.key_left (Lane.obstacles l)); cbv zeta in *; lia.
  - intros Hd.
    destruct (Z.gtb_spec (Lane.direction l) 0) as [? | _]; [lia |].
    destruct (max_by Lane.key_right (Lane.obstacles l)); cbv zeta in *; lia.
Qed.

(** X7.  [_spawn] appends exactly one obstacle and it starts outside the
    visible screen: in a lane moving right its right edge is at [-20] or
    further left, in a lane moving left its left edge is at
    [screen_width + 20] or further right.  When [_can_spawn] holds, as it
    does whenever [update] spawns, the obstacle of a lane moving left starts
    exactly at [screen_width + 20], and the one of a lane moving right
    starts no further left than [-2 * obstacle_width - 20]. *)
Theorem spawn_starts_off_screen (l : Lane.t) (screen_width : Z) (w : World) :
  let l' := fst (Lane._spawn l screen_width w) in
  exists o,
    Lane.obstacles l' = Lane.obstacles l ++ [o] /\
    (Lane.direction l > 0 ->
     Rect.right (Obstacle.rect o) <= -20 /\
     (Lane._can_spawn l screen_width = true -> 0 <= Lane.obstacle_width l ->
      - 2 * Lane.obstacle_width l - 20 <= Rect.left (Obstacle.rect o))) /\
    (Lane.direction l <= 0 ->
     screen_width + 20 <= Rect.left (Obstacle.rect o) /\
     (Lane._can_spawn l screen_width = true ->
      Rect.left (Obstacle.rect o) = screen_width + 20)).
Proof.
  intros l'.
  destruct (spawn_appends l screen_width w) as (_ & o & Eo & (Hw & _) & Hx).
  exists o. split; [exact Eo |].
  destruct (spawn_x_off_screen l screen_width) as [Or Ol].
  unfold Rect.right, Rect.left. rewrite Hx, Hw.
  split; intros Hd.
  - split; [specialize (Or Hd); lia |].
    intros C H0. destruct (spawn_x_gated l screen_width C) as [Gr _].
    apply Gr; assumption.
  - split; [apply Ol; exact Hd |].
    intros C. destruct (spawn_x_gated l screen_width C) as [_ Gl].
    apply Gl; assumption.
Qed.

Lemma spawn_starts_off_screen_witness :
  let l := Lane.__init__ (Rect.mk 0 490 900 70) (-1) 176 1.24 119 80 164 in
  exists o,
    Lane.obstacles (fst (Lane._spawn l 900 sample_world)) = [o] /\
    Rect.left (Obstacle.rect o) = 920.
Proof.
  intros l.
  destruct (spawn_starts_off_screen l 900 sample_world) as (o & Eo & _ & H).
  exists o. split; [exact Eo |].
  destruct H as [_ H]; [vm_compute; discriminate |].
  apply H. vm_compute; reflexivity.
Defined.

(** ** Lane: how many obstacles it can hold *)

(** Obstacles of width [width] that keep [gap] between neighbours take
    [width + gap] pixels each. *)
Lemma chain_span (gap width hi : Z) (obs : list Obstacle.t) (a : Obstacle.t) :
  adjacent_gaps gap (a :: obs) ->
  Forall (fun o => Rect.width (Obstacle.rect o) = width) (a :: obs) ->
  Forall (fun o => Rect.x (Obstacle.rect o) <= hi) (a :: obs) ->
  Rect.x (Obstacle.rect a) + Z.of_nat (length obs) * (width + gap) <= hi.
Proof.
  revert a. induction obs as [| b rest IH]; intros a Ha Hw Hx.
  - inversion Hx; subst. simpl. lia.
  - destruct Ha as [Hab Hrest].
    inversion Hw as [| ? ? Wa Hw']; subst.
    inversion Hx as [| ? ? Xa Hx']; subst.
    specialize (IH b Hrest Hw' Hx').
    unfold Rect.left, Rect.right in Hab.
    change (length (b :: rest)) with (S (length rest)).
    rewrite Nat2Z.inj_succ, Z.mul_succ_l. lia.
Qed.

Lemma capacity_bound (gap width lo hi : Z) (obs : list Obstacle.t) :
  0 <= width + gap -> lo <= hi + width + gap ->
  ForallOrdPairs (obstacles_separated gap) obs ->
  Forall (fun o => Rect.width (Obstacle.rect o) = width) obs ->
  Forall (fun o => lo <= Rect.x (Obstacle.rect o) <= hi) obs ->
  Z.of_nat (length obs) * (width + gap) <= hi - lo + width + gap.
Proof.
  intros H0 Hlo Hp Hw Hx.
  pose proof (sort_by_perm Lane.key_x obs) as P.
  rewrite <- (Permutation_length P).
  assert (Hw' : Forall (fun o => Rect.width (Obstacle.rect o) = width)
                  (sort_by Lane.key_x obs))
    by (eapply Permutation_Forall; [symmetry; exact P | exact Hw]).
  assert (Hx' : Forall (fun o => lo <= Rect.x (Obstacle.rect o) <= hi)
                  (sort_by Lane.key_x obs))
    by (eapply Permutation_Forall; [symmetry; exact P | exact Hx]).
  assert (Ha : adjacent_gaps gap (sort_by Lane.key_x obs)).
  { apply sorted_adjacent_gaps with (width := width);
      [apply sort_by_sorted | exact Hw' |].
    eapply pairwise_perm;
      [apply obstacles_separated_sym | symmetry; exact P | exact Hp]. }
  destruct (sort_by Lane.key_x obs) as [| a rest]; [simpl; lia |].
  pose proof (chain_span gap width hi rest a Ha Hw') as C.
  assert (Hhi : Forall (fun o => Rect.x (Obstacle.rect o) <= hi) (a :: rest)).
  { eapply Forall_impl; [| exact Hx']. intros o Ho. cbv beta in Ho. lia. }
  specialize (C Hhi).
  inversion Hx' as [| ? ? Xa _]; subst. cbv beta in Xa.
  change (length (a :: rest)) with (S (length rest)).
  rewrite Nat2Z.inj_succ, Z.mul_succ_l. lia.
Qed.

Lemma in_range_same_lane (l l' : Lane.t) (screen_width : Z) (o : Obstacle.t) :
  same_lane l l' -> in_range l screen_width o -> in_range l' screen_width o.
Proof.
  intros (_ & Ed & _ & _ & Ew & _). unfold in_range, lane_range.
  rewrite Ed, Ew. tauto.
Qed.

Lemma lane_displacement_sign (l : Lane.t) (dt : Q) :
  (0 <= Lane.speed l)%Q -> (0 <= dt)%Q ->
  (Lane.direction l = 1 -> 0 <= lane_displacement l dt) /\
  (Lane.direction l = -1 -> lane_displacement l dt <= 0).
Proof.
  intros Hs Hd.
  unfold lane_displacement. split; intros ->.
  - change (inject_Z (if 0 <=? 1 then 1 else -1)) with 1%Q.
    apply py_int_nonneg.
    apply fmul_nonneg; [apply fmul_nonneg; lra | exact Hd].
  - change (inject_Z (if 0 <=? -1 then 1 else -1)) with (-1)%Q.
    apply py_int_nonpos.
    apply fmul_nonpos_l; [apply fmul_nonpos_l; lra | exact Hd].
Qed.

Lemma advance_in_range (l : Lane.t) (dt : Q) (screen_width : Z) :
  Lane.direction l = 1 \/ Lane.direction l = -1 ->
  (0 <= Lane.speed l)%Q -> (0 <= dt)%Q ->
  gaps_respected l -> uniform l ->
  Forall (in_range l screen_width) (Lane.obstacles l) ->
  Forall (in_range l screen_width) (Lane.advance_obstacles l dt screen_width).
Proof.
  intros Hdir Hs Hd Hg Hu Hr.
  rewrite advance_rigid by assumption. cbv zeta.
  destruct (lane_displacement_sign l dt Hs Hd) as [Dr Dl].
  set (delta := lane_displacement l dt) in *.
  assert (Hmoved : forall o', In o' (sort_by Lane.key_x
                                        (map (translate delta) (Lane.obstacles l))) ->
                   exists o, In o (Lane.obstacles l) /\ o' = translate delta o).
  { intros o' Ho'.
    apply (Permutation_in _ (sort_by_perm Lane.key_x _)) in Ho'.
    apply in_map_iff in Ho'. destruct Ho' as (o & E & Ho). exists o. auto. }
  rewrite Forall_forall in Hr. unfold uniform in Hu. rewrite Forall_forall in Hu.
  apply Forall_forall. intros o' Ho'.
  unfold in_range, lane_range in *.
  destruct Hdir as [E | E]; rewrite E in *.
  - change (1 >? 0) with true in *. cbv iota in Ho'.
    apply filter_In in Ho'. destruct Ho' as [Hin Hf].
    destruct (Hmoved o' Hin) as (o & Ho & ->).
    specialize (Hr o Ho). specialize (Dr eq_refl). cbn [fst snd] in *.
    apply Z.ltb_lt in Hf.
    unfold translate, Rect.left, Rect.set_x in *;
      cbn [Obstacle.rect Rect.x Rect.width] in *.
    lia.
  - change (-1 >? 0) with false in *. cbv iota in Ho'.
    apply filter_In in Ho'. destruct Ho' as [Hin Hf].
    destruct (Hmoved o' Hin) as (o & Ho & ->).
    specialize (Hr o Ho). specialize (Dl eq_refl). cbn [fst snd] in *.
    destruct (Hu o Ho) as (Hw & _).
    apply Z.gtb_lt in Hf.
    unfold translate, Rect.right, Rect.set_x in *;
      cbn [Obstacle.rect Rect.x Rect.width] in *.
    lia.
Qed.

Lemma update_bounded (l : Lane.t) (dt : Q) (screen_width : Z) :
  Lane.direction l = 1 \/ Lane.direction l = -1 ->
  (0 <= Lane.speed l)%Q -> (0 <= dt)%Q ->
  0 <= Lane.obstacle_width l -> 0 <= screen_width ->
  lane_bounded screen_width l ->
  post (Lane.update l dt screen_width)
    (fun l' => same_lane l l' /\ lane_bounded screen_width l').
Proof.
  intros Hdir Hs Hd Hw Hsw (Hg & Hu & Hr).
  eapply post_weaken.
  { apply post_conj; [apply update_invariant; assumption | apply update_cases]. }
  intros l' ((S' & G' & U') & Hc). cbv zeta in Hc.
  split; [exact S' |]. split; [exact G' |]. split; [exact U' |].
  pose proof (advance_in_range l dt screen_width Hdir Hs Hd Hg Hu Hr) as Ha.
  assert (Ha' : Forall (in_range l' screen_width)
                  (Lane.advance_obstacles l dt screen_width)).
  { eapply Forall_impl; [| exact Ha]. intros o. apply in_range_same_lane. exact S'. }
  destruct Hc as [(_ & E) | [(_ & _ & E) | (_ & C & o & E & Ho & Hx)]].
  - rewrite E at 2. exact Ha'.
  - rewrite E at 2. exact Ha'.
  - rewrite E at 2. cbn [Lane.obstacles Lane.with_obstacles].
    apply Forall_app. split; [exact Ha' |]. constructor; [| constructor].
    apply in_range_same_lane with (l := l); [exact S' |].
    destruct (spawn_x_gated _ _ C) as [Gr Gl].
    destruct (spawn_x_off_screen
                (Lane.with_spawn_timer
                   (Lane.with_obstacles l (Lane.advance_obstacles l dt screen_width)) 0)
                screen_width) as [Or Ol].
    cbn [Lane.direction Lane.obstacle_width Lane.with_obstacles
         Lane.with_spawn_timer] in Gr, Gl, Or, Ol.
    unfold in_range, lane_range. rewrite Hx.
    destruct Hdir as [D | D]; rewrite D in *.
    + change (1 >? 0) with true. cbn [fst snd].
      specialize (Gr ltac:(lia) Hw). specialize (Or ltac:(lia)). lia.
    + change (-1 >? 0) with false. cbn [fst snd].
      specialize (Gl ltac:(lia)). lia.
Qed.

Lemma updates_bounded (screen_width : Z) (calls : list (Q * Z)) (l : Lane.t) :
  Lane.direction l = 1 \/ Lane.direction l = -1 ->
  (0 <= Lane.speed l)%Q -> 0 <= Lane.obstacle_width l -> 0 <= screen_width ->
  Forall (fun c => (0 <= fst c)%Q /\ snd c = screen_width) calls ->
  lane_bounded screen_width l ->
  post (Lane.updates l calls)
    (fun l' => same_lane l l' /\ lane_bounded screen_width l').
Proof.
  intros Hdir Hs Hw Hsw Hc. revert l Hdir Hs Hw.
  induction Hc as [| [dt sw] rest [Hdt Esw] _ IH]; intros l Hdir Hs Hw Hb; simpl.
  - apply post_ret. split; [apply same_lane_refl | exact Hb].
  - simpl in Hdt, Esw. subst sw.
    eapply post_bind; [apply update_bounded; assumption |].
    intros l1 (S1 & B1).
    assert (E1 : Lane.direction l1 = Lane.direction l) by apply S1.
    assert (E2 : Lane.speed l1 = Lane.speed l) by apply S1.
    assert (E3 : Lane.obstacle_width l1 = Lane.obstacle_width l) by apply S1.
    eapply post_weaken;
      [apply IH; [rewrite E1 | rewrite E2 | rewrite E3 |]; assumption |].
    intros l' (S' & B'). split; [eapply same_lane_trans; eassumption | exact B'].
Qed.

Lemma reset_bounded (l : Lane.t) (screen_width : Z) :
  Lane.direction l = 1 \/ Lane.direction l = -1 ->
  0 <= Lane.obstacle_width l -> 0 <= screen_width ->
  Rect.width (Lane.rect l) <= screen_width ->
  post (Lane.reset l) (fun l' => same_lane l l' /\ lane_bounded screen_width l').
Proof.
  intros Hdir Hw Hsw Hr.
  eapply post_weaken.
  { apply post_conj; [apply reset_invariant | apply reset_seeds_post]. }
  intros l' ((S' & G' & U') & (_ & Hx & _)).
  split; [exact S' |]. split; [exact G' |]. split; [exact U' |].
  eapply Forall_impl; [| exact Hx].
  intros o (Ho & _). apply in_range_same_lane with (l := l); [exact S' |].
  unfold in_range, lane_range.
  destruct Hdir as [D | D]; rewrite D;
    [change (1 >? 0) with true | change (-1 >? 0) with false];
    cbn [fst snd]; lia.
Qed.

Lemma reset_then_updates_bounded (l : Lane.t) (screen_width : Z)
  (calls : list (Q * Z)) :
  Lane.direction l = 1 \/ Lane.direction l = -1 ->
  (0 <= Lane.speed l)%Q -> 0 <= Lane.obstacle_width l -> 0 <= screen_width ->
  Rect.width (Lane.rect l) <= screen_width ->
  Forall (fun c => (0 <= fst c)%Q /\ snd c = screen_width) calls ->
  post (Lane.reset_then_updates l calls)
    (fun l' => same_lane l l' /\ lane_bounded screen_width l').
Proof.
  intros Hdir Hs Hw Hsw Hr Hc. unfold Lane.reset_then_updates.
  eapply post_bind; [apply (reset_bounded l screen_width); assumption |].
  intros l0 (S0 & B0).
  assert (E1 : Lane.direction l0 = Lane.direction l) by apply S0.
  assert (E2 : Lane.speed l0 = Lane.speed l) by apply S0.
  assert (E3 : Lane.obstacle_width l0 = Lane.obstacle_width l) by apply S0.
  eapply post_weaken.
  { apply updates_bounded with (screen_width := screen_width);
      [rewrite E1 | rewrite E2 | rewrite E3 | | |]; assumption. }
  intros l1 (S1 & B1). split; [eapply same_lane_trans; eassumption | exact B1].
Qed.

Lemma bounded_capacity (l : Lane.t) (screen_width : Z) :
  Lane.direction l = 1 \/ Lane.direction l = -1 ->
  0 <= Lane.obstacle_width l -> 0 <= Lane.min_gap l -> 0 <= screen_width ->
  lane_bounded screen_width l ->
  (Lane.direction l = 1 ->
   Forall (fun o => - 2 * Lane.obstacle_width l - 20 <= Rect.x (Obstacle.rect o)
                    < screen_width + 200) (Lane.obstacles l)) /\
  (Lane.direction l = -1 ->
   Forall (fun o => - 200 - Lane.obstacle_width l < Rect.x (Obstacle.rect o)
                    <= screen_width + 20) (Lane.obstacles l)) /\
  (Z.of_nat (length (Lane.obstacles l)) - 1)
  * (Lane.obstacle_width l + Lane.min_gap l)
  <= screen_width + 2 * Lane.obstacle_width l + 219.
Proof.
  intros Hdir Hw Hgap Hsw (G & U & R).
  unfold in_range, lane_range in R. unfold gaps_respected in G.
  assert (Hwid : Forall (fun o => Rect.width (Obstacle.rect o)
                                  = Lane.obstacle_width l) (Lane.obstacles l)).
  { eapply Forall_impl; [| exact U]. intros o (Ho & _). exact Ho. }
  destruct Hdir as [D | D]; rewrite D in R;
    [change (1 >? 0) with true in R | change (-1 >? 0) with false in R];
    cbn [fst snd] in R.
  - split; [| split].
    + intros _. eapply Forall_impl; [| exact R]. intros o Ho.
      cbv beta in Ho. lia.
    + intros D'. rewrite D in D'. discriminate D'.
    + pose proof (capacity_bound (Lane.min_gap l) (Lane.obstacle_width l)
                    (- 2 * Lane.obstacle_width l - 20) (screen_width + 199)
                    (Lane.obstacles l) ltac:(lia) ltac:(lia) G Hwid R). lia.
  - split; [| split].
    + intros D'. rewrite D in D'. discriminate D'.
    + intros _. eapply Forall_impl; [| exact R]. intros o Ho.
      cbv beta in Ho. lia.
    + pose proof (capacity_bound (Lane.min_gap l) (Lane.obstacle_width l)
                    (- 199 - Lane.obstacle_width l) (screen_width + 20)
                    (Lane.obstacles l) ltac:(lia) ltac:(lia) G Hwid R). lia.
Qed.

(** X8.  A lane never fills up.  For a lane built by [Lane.__init__] on a
    screen at least as wide as the lane, with non-negative obstacle width,
    gap and speed, after [reset] and any [update] calls with non-negative
    time steps: every obstacle of a lane moving right has its x in
    [[-2 * obstacle_width - 20, screen_width + 200)], every obstacle of a
    lane moving left in [(-200 - obstacle_width, screen_width + 20]], and
    the number [n] of obstacles obeys
    [(n - 1) * (obstacle_width + min_gap) <= screen_width + 2 * obstacle_width + 219]. *)
Theorem lane_capacity (r : Rect.t) (dir : Z) (spd every : Q)
  (ow oh gap screen_width : Z) (calls : list (Q * Z)) (w : World) :
  0 <= ow -> 0 <= gap -> 0 <= screen_width -> Rect.width r <= screen_width ->
  (0 <= spd)%Q ->
  Forall (fun c => (0 <= fst c)%Q /\ snd c = screen_width) calls ->
  let l := Lane.__init__ r dir spd every ow oh gap in
  let l' := fst (Lane.reset_then_updates l calls w) in
  (0 <= dir ->
   Forall (fun o => - 2 * ow - 20 <= Rect.x (Obstacle.rect o) < screen_width + 200)
     (Lane.obstacles l')) /\
  (dir < 0 ->
   Forall (fun o => - 200 - ow < Rect.x (Obstacle.rect o) <= screen_width + 20)
     (Lane.obstacles l')) /\
  (Z.of_nat (length (Lane.obstacles l')) - 1) * (ow + gap)
  <= screen_width + 2 * ow + 219.
Proof.
  intros Hw Hgap Hsw Hr Hs Hc l.
  assert (Hd : Lane.direction l = if 0 <=? dir then 1 else -1) by reflexivity.
  assert (Hdir : Lane.direction l = 1 \/ Lane.direction l = -1)
    by (rewrite Hd; destruct (0 <=? dir); auto).
  assert (Ew : Lane.obstacle_width l = ow) by reflexivity.
  assert (Eg : Lane.min_gap l = gap) by reflexivity.
  assert (Es : Lane.speed l = spd) by reflexivity.
  assert (Er : Lane.rect l = r) by reflexivity.
  clearbody l. intros l'.
  destruct (reset_then_updates_bounded l screen_width calls Hdir
              ltac:(rewrite Es; exact Hs) ltac:(rewrite Ew; exact Hw) Hsw
              ltac:(rewrite Er; exact Hr) Hc w) as (S' & B').
  fold l' in S', B'. clearbody l'.
  assert (Ed' : Lane.direction l' = Lane.direction l) by apply S'.
  assert (Ew' : Lane.obstacle_width l' = ow) by (rewrite <- Ew; apply S').
  assert (Eg' : Lane.min_gap l' = gap) by (rewrite <- Eg; apply S').
  destruct (bounded_capacity l' screen_width) as (A1 & A2 & A3);
    [rewrite Ed'; exact Hdir | rewrite Ew'; exact Hw | rewrite Eg'; exact Hgap
    | exact Hsw | exact B' |].
  rewrite Ed', Hd, Ew' in A1, A2. rewrite Ew', Eg' in A3.
  split; [| split; [| exact A3]].
  - intros H. apply A1. destruct (Z.leb_spec 0 dir); [reflexivity | lia].
  - intros H. apply A2. destruct (Z.leb_spec 0 dir); [lia | reflexivity].
Qed.

Lemma lane_capacity_witness :
  let l := Lane.__init__ (Rect.mk 0 560 900 70) 1 170 1.25 119 80 165 in
  let l' := fst (Lane.reset_then_updates l
                   [(0.5%Q, 900); (0.5%Q, 900); (0.5%Q, 900)] sample_world) in
  (Z.of_nat (length (Lane.obstacles l')) - 1) * (119 + 165) <= 900 + 2 * 119 + 219.
Proof.
  intros l l'.
  refine (proj2 (proj2 (lane_capacity (Rect.mk 0 560 900 70) 1 170 1.25 119 80 165
                          900 [(0.5%Q, 900); (0.5%Q, 900); (0.5%Q, 900)]
                          sample_world _ _ _ _ _ _))).
  - lia.
  - lia.
  - lia.
  - simpl; lia.
  - vm_compute; discriminate.
  - repeat constructor; vm_compute; discriminate.
Defined.
(** ** Player: steps, bounds and collision rectangle *)

Lemma player_static_refl (p : Player.t) : player_static p p.
Proof. unfold player_static. tauto. Qed.

Lemma player_static_trans (p q r : Player.t) :
  player_static p q -> player_static q r -> player_static p r.
Proof. unfold player_static. intuition congruence. Qed.

Lemma with_position_static (p : Player.t) (nx ny cd : Q) :
  player_static p (Player.with_position p nx ny cd).
Proof. unfold player_static; simpl. tauto. Qed.

(** A key-down either leaves the player alone or is an accepted step. *)
Lemma handle_event_cases (p : Player.t) (e : event) :
  Player.handle_event p e = p \/
  exists k, e = KEYDOWN k /\ directional k = true /\
            (Player._move_cooldown p <= 0)%Q /\
            Player.handle_event p e
            = Player.with_position p
                (Player.x p + inject_Z (fst (Player.key_step p k)))
                (Player.y p + inject_Z (snd (Player.key_step p k)))
                (Player._cooldown_time p).
Proof.
  destruct e as [k | k | | n]; try (left; reflexivity).
  unfold Player.handle_event.
  destruct (Qle_bool (Player._move_cooldown p) 0) eqn:E; [| left; reflexivity].
  destruct (Player.key_step p k) as [dx dy] eqn:K.
  destruct (negb (dx =? 0) || negb (dy =? 0)) eqn:C; [| left; reflexivity].
  right. exists k. split; [reflexivity |]. split.
  - destruct k; try reflexivity; simpl in K; inversion K; subst; simpl in C;
      discriminate.
  - split; [apply Qle_bool_iff; exact E | rewrite K; reflexivity].
Qed.

Lemma handle_event_static (p : Player.t) (e : event) :
  player_static p (Player.handle_event p e).
Proof.
  destruct (handle_event_cases p e) as [-> | (k & _ & _ & _ & ->)];
    [apply player_static_refl | apply with_position_static].
Qed.

Lemma events_static (events : list event) (p : Player.t) :
  player_static p (fold_left Player.handle_event events p).
Proof.
  revert p. induction events as [| e rest IH]; intros p; simpl.
  - apply player_static_refl.
  - eapply player_static_trans; [apply handle_event_static | apply IH].
Qed.

Lemma update_static (p : Player.t) (dt : Q) (events : list event) :
  player_static p (Player.update p dt events).
Proof.
  unfold Player.update.
  set (q := fold_left _ _ _).
  assert (Hq : player_static p q).
  { subst q. eapply player_static_trans; [| apply events_static].
    apply with_position_static. }
  eapply player_static_trans; [exact Hq |].
  unfold Player.clamp. destruct (Player.bounds q) as [[[l t] wd] h].
  apply with_position_static.
Qed.

(** With a positive cooldown time, a list of events moves the player by at
    most one step: the first accepted key-down blocks the rest. *)
Lemma events_at_most_one (events : list event) (p : Player.t) :
  (0 < Player._cooldown_time p)%Q ->
  fold_left Player.handle_event events p = p \/
  exists k, In (KEYDOWN k) events /\ directional k = true /\
            (Player._move_cooldown p <= 0)%Q /\
            fold_left Player.handle_event events p
            = Player.with_position p
                (Player.x p + inject_Z (fst (Player.key_step p k)))
                (Player.y p + inject_Z (snd (Player.key_step p k)))
                (Player._cooldown_time p).
Proof.
  intros Hc. induction events as [| e rest IH]; simpl; [left; reflexivity |].
  destruct (handle_event_cases p e) as [E | (k & -> & Hk & Hcd & E)]; rewrite E.
  - destruct IH as [IH | (k & Hin & Hk & Hcd & IH)]; [left; exact IH |].
    right. exists k. split; [right; exact Hin |]. split; [exact Hk |].
    split; assumption.
  - right. exists k. split; [left; reflexivity |]. split; [exact Hk |].
    split; [exact Hcd |]. apply events_blocked. simpl. exact Hc.
Qed.

(** X9.  However many key-downs one [update] call receives, the player
    moves by at most one step, provided the cooldown time is positive (it is
    the double 0.09).  Either no step is taken, and the call only clamps the
    position and lets the cooldown run down by the double subtraction of
    [dt]; or exactly one directional key-down of
    the list is accepted, the cooldown had run out by the end of [dt], the
    player moves by [step] along that key's axis only (then clamped), and
    the cooldown is re-armed. *)
Theorem player_one_step_per_call (p : Player.t) (dt : Q) (events : list event) :
  (0 < Player._cooldown_time p)%Q ->
  let q := Player.update p dt events in
  (Player.x q = clamped_x p (Player.x p) /\
   Player.y q = clamped_y p (Player.y p) /\
   Player._move_cooldown q = Qmax 0.0 (fsub (Player._move_cooldown p) dt)) \/
  (exists k,
     In (KEYDOWN k) events /\ directional k = true /\
     (Player._move_cooldown p <= dt)%Q /\
     Player.x q
     = clamped_x p (Player.x p + inject_Z (fst (heading k) * Player.step p)) /\
     Player.y q
     = clamped_y p (Player.y p + inject_Z (snd (heading k) * Player.step p)) /\
     Player._move_cooldown q = Player._cooldown_time p).
Proof.
  intros Hc q. subst q. unfold Player.update.
  set (p0 := Player.tick_cooldown p dt).
  assert (Hc0 : (0 < Player._cooldown_time p0)%Q) by exact Hc.
  destruct (events_at_most_one events p0 Hc0) as [E | (k & Hin & Hk & Hcd & E)];
    rewrite E.
  - left. destruct (clamp_position p0) as (Ex & Ey & Ec).
    rewrite Ex, Ey, Ec. unfold clamped_x, clamped_y. subst p0. simpl.
    repeat split; reflexivity.
  - right. exists k. split; [exact Hin |]. split; [exact Hk |].
    split.
    { subst p0. unfold Player.tick_cooldown in Hcd; simpl in Hcd.
      pose proof (Q.le_max_r 0.0 (fsub (Player._move_cooldown p) dt)) as M.
      assert (Z : (fsub (Player._move_cooldown p) dt <= 0)%Q) by lra.
      apply fl_le_0_inv in Z. lra. }
    match goal with |- context [Player.clamp ?t] =>
      destruct (clamp_position t) as (Ex & Ey & Ec) end.
    rewrite Ex, Ey, Ec. rewrite (key_step_heading p0 k).
    unfold clamped_x, clamped_y. subst p0. simpl.
    repeat split; reflexivity.
Qed.

Lemma player_one_step_per_call_witness :
  let p := fst (Player.__init__ 450 665 18 420 70 (0, 0, 900, 700) sample_world) in
  let q := Player.update p 0.016 [KEYDOWN K_UP; KEYDOWN K_UP; KEYDOWN K_LEFT] in
  (0 < Player._cooldown_time p)%Q /\
  ((Player.x q = clamped_x p (Player.x p) /\
    Player.y q = clamped_y p (Player.y p) /\
    Player._move_cooldown q = Qmax 0.0 (fsub (Player._move_cooldown p) 0.016)) \/
   (exists k,
      In (KEYDOWN k) [KEYDOWN K_UP; KEYDOWN K_UP; KEYDOWN K_LEFT] /\
      directional k = true /\
      (Player._move_cooldown p <= 0.016)%Q /\
      Player.x q
      = clamped_x p (Player.x p + inject_Z (fst (heading k) * Player.step p)) /\
      Player.y q
      = clamped_y p (Player.y p + inject_Z (snd (heading k) * Player.step p)) /\
      Player._move_cooldown q = Player._cooldown_time p)).
Proof.
  intros p q.
  assert (H : (0 < Player._cooldown_time p)%Q) by (vm_compute; reflexivity).
  split; [exact H |].
  exact (player_one_step_per_call p 0.016
           [KEYDOWN K_UP; KEYDOWN K_UP; KEYDOWN K_LEFT] H).
Defined.

Lemma qclamp_bounds (lo hi v : Q) :
  (lo <= Qmax lo (Qmin hi v))%Q /\
  (lo <= hi -> Qmax lo (Qmin hi v) <= hi)%Q /\
  (hi < lo -> Qmax lo (Qmin hi v) == lo)%Q.
Proof.
  split; [apply Q.le_max_l |]. split; intros H.
  - apply Q.max_lub; [exact H | apply Q.le_min_l].
  - apply Q.max_l. pose proof (Q.le_min_l hi v). lra.
Qed.

(** X10.  After any [update] call the player's centre is at least [radius]
    inside the left and top bounds; it is also at least [radius] inside the
    right (bottom) bound when the bounds are at least [2 * radius] wide
    (high).  In narrower bounds the centre is pinned at [left + radius]
    ([top + radius]), beyond the far bound. *)
Theorem player_stays_in_bounds (p : Player.t) (dt : Q) (events : list event)
  (left_ top_ width_ height_ : Z) :
  Player.bounds p = (left_, top_, width_, height_) ->
  let q := Player.update p dt events in
  let r := Player.radius p in
  (inject_Z (left_ + r) <= Player.x q)%Q /\
  (inject_Z (top_ + r) <= Player.y q)%Q /\
  (2 * r <= width_ -> (Player.x q <= inject_Z (left_ + width_ - r))%Q) /\
  (2 * r <= height_ -> (Player.y q <= inject_Z (top_ + height_ - r))%Q) /\
  (width_ < 2 * r -> (Player.x q == inject_Z (left_ + r))%Q) /\
  (height_ < 2 * r -> (Player.y q == inject_Z (top_ + r))%Q).
Proof.
  intros Hb q r. subst q. unfold Player.update.
  set (p' := fold_left _ _ _).
  assert (Hs : player_static p p').
  { subst p'. eapply player_static_trans; [| apply events_static].
    apply with_position_static. }
  destruct Hs as (_ & _ & Er & _ & _ & Eb & _).
  destruct (clamp_position p') as (Ex & Ey & _). rewrite Ex, Ey.
  unfold clamped_x, clamped_y. rewrite Eb, Hb, Er. fold r.
  destruct (qclamp_bounds (inject_Z (left_ + r)) (inject_Z (left_ + width_ - r))
              (Player.x p')) as (X1 & X2 & X3).
  destruct (qclamp_bounds (inject_Z (top_ + r)) (inject_Z (top_ + height_ - r))
              (Player.y p')) as (Y1 & Y2 & Y3).
  split; [exact X1 |]. split; [exact Y1 |].
  split; [intros H; apply X2; rewrite <- Zle_Qle; lia |].
  split; [intros H; apply Y2; rewrite <- Zle_Qle; lia |].
  split; intros H; [apply X3 | apply Y3]; rewrite <- Zlt_Qlt; lia.
Qed.

Lemma player_stays_in_bounds_witness :
  let p := fst (Player.__init__ 450 665 18 420 70 (0, 0, 900, 700) sample_world) in
  let q := Player.update p 0.016 [KEYDOWN K_DOWN] in
  (Player.y q <= 682)%Q.
Proof.
  intros p q.
  destruct (player_stays_in_bounds p 0.016 [KEYDOWN K_DOWN] 0 0 900 700 eq_refl)
    as (_ & _ & _ & H & _).
  apply H. simpl. lia.
Defined.

(** X11.  The player's collision rectangle is centred on the player's
    position to within one pixel on each axis, measures at least 8 by 8
    pixels, and has a size that depends only on the sprite size or the
    radius, not on where the player stands. *)
Theorem player_rect_centred (p : Player.t) (nx ny cd : Q) :
  let r := Player.rect p in
  8 <= Rect.width r /\ 8 <= Rect.height r /\
  (Player.x p - 1 < inject_Z (Rect.x r) + inject_Z (Rect.width r) / 2)%Q /\
  (inject_Z (Rect.x r) + inject_Z (Rect.width r) / 2 < Player.x p + 1)%Q /\
  (Player.y p - 1 < inject_Z (Rect.y r) + inject_Z (Rect.height r) / 2)%Q /\
  (inject_Z (Rect.y r) + inject_Z (Rect.height r) / 2 < Player.y p + 1)%Q /\
  Rect.width (Player.rect (Player.with_position p nx ny cd)) = Rect.width r /\
  Rect.height (Player.rect (Player.with_position p nx ny cd)) = Rect.height r.
Proof.
  intros r. subst r. unfold Player.rect.
  cbn [Player._sprite Player.with_position Player.radius Player.x Player.y].
  destruct (Player._sprite p) as [[w h] |]; cbv zeta;
    cbn [Rect.x Rect.y Rect.width Rect.height].
  - set (cw := Z.max 8 (w - py_int (fmul (inject_Z w) (fl 0.28)))).
    set (ch := Z.max 8 (h - py_int (fmul (inject_Z h) (fl 0.32)))).
    destruct (py_int_near (Player.x p - inject_Z cw / 2)) as [A B].
    destruct (py_int_near (Player.y p - inject_Z ch / 2)) as [C D].
    repeat split; try reflexivity; try lia; lra.
  - set (cr := Z.max 6 (Player.radius p
                        - Z.max 0 (py_int (fmul (inject_Z (Player.radius p)) (fl 0.35))))).
    destruct (py_int_near (Player.x p - inject_Z cr)) as [A B].
    destruct (py_int_near (Player.y p - inject_Z cr)) as [C D].
    assert (E : (inject_Z (cr * 2) / 2 == inject_Z cr)%Q)
      by (rewrite inject_Z_mult; field).
    repeat split; try reflexivity; try lia; rewrite E; lra.
Qed.

(** ** Level: layout and what a session keeps *)

Lemma Forall2_nth_error {A B} (R : A -> B -> Prop) (l : list A) (l' : list B)
  (i : nat) (a : A) :
  Forall2 R l l' -> nth_error l i = Some a ->
  exists b, nth_error l' i = Some b /\ R a b.
Proof.
  intros H. revert i. induction H as [| x y l l' Hxy _ IH]; intros i Hi.
  - destruct i; discriminate Hi.
  - destruct i as [| i]; simpl in *.
    + inversion Hi; subst. exists y. split; [reflexivity | exact Hxy].
    + apply IH. exact Hi.
Qed.

Lemma Forall2_trans_with {A} (R : A -> A -> Prop) (l1 l2 l3 : list A) :
  (forall a b c, R a b -> R b c -> R a c) ->
  Forall2 R l1 l2 -> Forall2 R l2 l3 -> Forall2 R l1 l3.
Proof.
  intros HR H12. revert l3. induction H12 as [| a b l1 l2 Hab _ IH]; intros l3 H23.
  - inversion H23. constructor.
  - inversion H23; subst. constructor; [eapply HR; eassumption | apply IH; assumption].
Qed.

Lemma Forall2_Forall_r {A B} (R : A -> B -> Prop) (Q : B -> Prop)
  (l : list A) (l' : list B) :
  (forall a b, R a b -> Q b) -> Forall2 R l l' -> Forall Q l'.
Proof.
  intros H F. induction F; constructor; eauto.
Qed.

Lemma Forall2_Forall_lr {A B} (P : A -> Prop) (R : A -> B -> Prop) (Q : B -> Prop)
  (l : list A) (l' : list B) :
  (forall a b, P a -> R a b -> Q b) -> Forall P l -> Forall2 R l l' -> Forall Q l'.
Proof.
  intros H FP F. induction F; inversion FP; subst; constructor; eauto.
Qed.

Lemma enumerate_from_nth_error {A} (l : list A) (i k : nat) (a : A) :
  nth_error l i = Some a ->
  nth_error (combine (map Z.of_nat (seq k (length l))) l) i
  = Some (Z.of_nat (k + i), a).
Proof.
  revert i k. induction l as [| x l IH]; intros i k Hi.
  - destruct i; discriminate Hi.
  - destruct i as [| i]; simpl in *.
    + inversion Hi; subst. rewrite Nat.add_0_r. reflexivity.
    + rewrite (IH i (S k) Hi). do 2 f_equal. lia.
Qed.

Lemma enumerate_nth_error {A} (l : list A) (i : nat) (a : A) :
  nth_error l i = Some a ->
  nth_error (Level.enumerate l) i = Some (Z.of_nat i, a).
Proof.
  intros H. unfold Level.enumerate, range. rewrite Nat2Z.id.
  apply (enumerate_from_nth_error l i 0 a H).
Qed.

(** The band of lane [i]: lanes are stacked upwards from the safe zone. *)
Lemma make_lane_rect (W H safe lane_h : Z) (i : Z) (lc : LaneConfig) :
  Lane.rect (Level.make_lane W H safe lane_h (i, lc))
  = Rect.mk 0 (H - safe - (i + 1) * lane_h) W lane_h.
Proof.
  unfold Level.make_lane, Lane.__init__; cbn [Lane.rect].
  f_equal.
  rewrite <- (py_int_inject_Z (H - safe - (i + 1) * lane_h)).
  apply py_int_Qeq.
  unfold Z.sub.
  rewrite !inject_Z_plus, !inject_Z_opp, inject_Z_mult, inject_Z_plus.
  change (inject_Z 1) with 1%Q. field.
Qed.

Lemma advance_keeps (P : Obstacle.t -> Prop) (l : Lane.t) (dt : Q)
  (screen_width : Z) :
  (forall o d, P o -> P (translate d o)) ->
  Forall P (Lane.obstacles l) ->
  Forall P (Lane.advance_obstacles l dt screen_width).
Proof.
  intros HP H. unfold Lane.advance_obstacles.
  set (moved := map (fun o => Obstacle.update o dt) (Lane.obstacles l)).
  assert (Hm : Forall P moved).
  { subst moved. apply Forall_map. eapply Forall_impl; [| exact H].
    intros o Ho. apply (HP o (Obstacle.displacement o dt) Ho). }
  set (spaced := if Z.of_nat (length moved) >? 1 then _ else moved).
  assert (Hs : Forall P spaced).
  { subst spaced. destruct (Z.of_nat (length moved) >? 1); [| exact Hm].
    assert (Hsorted : Forall P (sort_by Lane.key_x moved))
      by (eapply Permutation_Forall; [symmetry; apply sort_by_perm | exact Hm]).
    destruct (Lane.direction l >? 0).
    - destruct (push_back_right_spaces (Lane.min_gap l) (sort_by Lane.key_x moved))
        as (_ & F & _).
      eapply Forall2_Forall_lr; [| exact Hsorted | exact F].
      intros a b Ha (d & _ & ->). apply HP. exact Ha.
    - destruct (push_back_left_spaces (Lane.min_gap l) (sort_by Lane.key_x moved))
        as (_ & F & _).
      eapply Forall2_Forall_lr; [| exact Hsorted | exact F].
      intros a b Ha (d & _ & ->). apply HP. exact Ha. }
  cbv zeta. rewrite Forall_forall in Hs.
  destruct (Lane.direction l >? 0); apply Forall_forall; intros o Ho;
    apply filter_In in Ho; apply Hs, Ho.
Qed.

Lemma reset_aligned (l : Lane.t) :
  post (Lane.reset l) (fun l' => same_lane l l' /\ lane_aligned l').
Proof.
  eapply post_weaken.
  { apply post_conj; [apply reset_invariant | apply reset_seeds_post]. }
  intros l' ((S' & _) & (_ & Hx & _)).
  split; [exact S' |].
  destruct S' as (Er & _ & _ & _ & _ & Eh & _).
  unfold lane_aligned. rewrite Er, Eh.
  eapply Forall_impl; [| exact Hx]. intros o (_ & Hy & _). exact Hy.
Qed.

Lemma update_aligned (l : Lane.t) (dt : Q) (screen_width : Z) :
  lane_aligned l ->
  post (Lane.update l dt screen_width)
    (fun l' => same_lane l l' /\ lane_aligned l').
Proof.
  intros Ha.
  assert (Hadv : Forall (fun o => Rect.y (Obstacle.rect o)
                                  = Rect.centery (Lane.rect l)
                                    - Lane.obstacle_height l / 2)
                   (Lane.advance_obstacles l dt screen_width)).
  { apply advance_keeps; [| exact Ha]. intros o d Ho. exact Ho. }
  unfold Lane.update. cbv zeta.
  cbn [Lane._spawn_timer Lane.with_obstacles Lane.with_spawn_timer Lane.spawn_every].
  destruct (Qle_bool (Lane.spawn_every l) (fadd (Lane._spawn_timer l) dt)).
  - match goal with |- context [if ?c then _ else _] => destruct c end.
    + unfold Lane._spawn.
      eapply post_bind; [apply obstacle_new_fields |].
      intros o (Er & _). apply post_ret.
      split; [unfold same_lane; simpl; tauto |].
      unfold lane_aligned; cbn [Lane.obstacles Lane.with_obstacles
        Lane.with_spawn_timer Lane.rect Lane.obstacle_height].
      apply Forall_app. split; [exact Hadv |].
      constructor; [| constructor]. rewrite Er. reflexivity.
    + apply post_ret. split; [unfold same_lane; simpl; tauto | exact Hadv].
  - apply post_ret. split; [unfold same_lane; simpl; tauto | exact Hadv].
Qed.

Lemma update_lower_bound (p : Player.t) (dt : Q) (events : list event)
  (W H : Z) :
  Player.bounds p = (0, 0, W, H) -> Player.radius p = 18 ->
  (18 <= Player.y (Player.update p dt events))%Q.
Proof.
  intros Hb Hr. unfold Player.update.
  set (p' := fold_left _ _ _).
  assert (Hs : player_static p p').
  { subst p'. eapply player_static_trans; [| apply events_static].
    apply with_position_static. }
  destruct Hs as (_ & _ & Er & _ & _ & Eb & _).
  destruct (clamp_position p') as (_ & Ey & _). rewrite Ey.
  unfold clamped_y. rewrite Eb, Hb, Er, Hr.
  apply (Q.le_max_l (inject_Z (0 + 18))).
Qed.

Lemma player_placed_static (cfg : LevelConfig) (W H : Z) (p q : Player.t) :
  player_static p q -> player_placed cfg W H p -> player_placed cfg W H q.
Proof.
  intros (E1 & E2 & E3 & _ & E5 & E6 & E7 & E8) (A & B & C & D & E & F & G).
  unfold player_placed. rewrite E1, E2, E3, E5, E6, E7, E8. tauto.
Qed.

Lemma Forall2_same_lane_refl (l : list Lane.t) : Forall2 same_lane l l.
Proof. induction l; constructor; [apply same_lane_refl | assumption]. Qed.

Lemma new_level_static (cfg : LevelConfig) (W H : Z) :
  post (Level.__init__ cfg (W, H)) (level_static cfg W H).
Proof.
  intros w. unfold Level.__init__, bind, Player.__init__, ret.
  cbn [fst]. unfold level_static.
  cbn [Level.config Level.screen_width Level.screen_height Level.lane_height
       Level.lane_count Level.finish_padding Level.safe_zone_height Level.player
       Level.lanes Level._won].
  repeat (split; [reflexivity |]).
  split.
  { unfold player_placed.
    cbn [Player.start_x Player.start_y Player.radius Player.step Player.bounds
         Player._cooldown_time Player._sprite].
    repeat (split; [reflexivity |]).
    destruct (chicken_sprite w); simpl; auto. }
  split.
  { apply Forall2_same_lane_refl. }
  split; [| intros E; discriminate E].
  apply Forall_map. apply Forall_forall. intros [i lc] _.
  unfold lane_aligned, Level.make_lane, Lane.__init__; simpl. constructor.
Qed.

Lemma start_level_static (cfg : LevelConfig) (W H : Z) (s : Level.t) :
  level_static cfg W H s -> post (Level.start s) (level_static cfg W H).
Proof.
  intros (A1 & A2 & A3 & A4 & A5 & A6 & A7 & Hp & Hl & _ & _).
  unfold Level.start.
  eapply post_bind.
  { apply post_mapM with (P := fun l l' => same_lane l l' /\ lane_aligned l').
    intros l _. apply reset_aligned. }
  intros ls Hls. apply post_ret. unfold level_static.
  cbn [Level.config Level.screen_width Level.screen_height Level.lane_height
       Level.lane_count Level.finish_padding Level.safe_zone_height Level.player
       Level.lanes Level._won Level.with_state].
  do 8 (split; [assumption |]).
  split.
  { eapply Forall2_trans_with; [apply same_lane_trans | exact Hl |].
    eapply Forall2_impl; [| exact Hls]. intros a b Hab. apply Hab. }
  split; [| intros E; discriminate E].
  eapply Forall2_Forall_r; [| exact Hls]. intros a b Hab. apply Hab.
Qed.

Lemma update_level_static (cfg : LevelConfig) (W H : Z) (s : Level.t) (dt : Q)
  (events : list event) :
  level_static cfg W H s -> post (Level.update s dt events) (level_static cfg W H).
Proof.
  intros Hs. pose proof Hs as (A1 & A2 & A3 & A4 & A5 & A6 & A7 & Hp & Hl & Ha & Hw).
  unfold Level.update.
  destruct (negb (Level._running s) || Level._won s || Level._lost s) eqn:E.
  - apply post_ret. exact Hs.
  - apply orb_false_iff in E. destruct E as [E Elost].
    apply orb_false_iff in E. destruct E as [_ Ewon].
    eapply post_bind.
    { apply post_mapM with (P := fun l l' => same_lane l l' /\ lane_aligned l').
      intros l Hin. rewrite Forall_forall in Ha.
      apply update_aligned. apply Ha, Hin. }
    intros ls Hls.
    assert (Hl' : Forall2 same_lane (level_lanes cfg W H) ls).
    { eapply Forall2_trans_with; [apply same_lane_trans | exact Hl |].
      eapply Forall2_impl; [| exact Hls]. intros a b Hab. apply Hab. }
    assert (Ha' : Forall lane_aligned ls).
    { eapply Forall2_Forall_r; [| exact Hls]. intros a b Hab. apply Hab. }
    assert (Hp' : player_placed cfg W H (Player.update (Level.player s) dt events)).
    { eapply player_placed_static; [apply update_static | exact Hp]. }
    assert (Hy : (18 <= Player.y (Player.update (Level.player s) dt events))%Q).
    { destruct Hp as (_ & _ & Hr & _ & Hb & _).
      apply update_lower_bound with (W := W) (H := H); assumption. }
    cbv zeta.
    destruct (Level.collides _ _).
    + apply post_ret. unfold level_static.
      cbn [Level.config Level.screen_width Level.screen_height Level.lane_height
           Level.lane_count Level.finish_padding Level.safe_zone_height
           Level.player Level.lanes Level._won Level.with_state].
      do 10 (split; [assumption |]).
      rewrite Ewon. intros D; discriminate D.
    + destruct (Qle_bool _ _) eqn:Q.
      * apply post_ret. unfold level_static.
        cbn [Level.config Level.screen_width Level.screen_height Level.lane_height
             Level.lane_count Level.finish_padding Level.safe_zone_height
             Level.player Level.lanes Level._won Level.with_state].
        do 10 (split; [assumption |]).
        intros _. split; [exact Hy |]. apply Qle_bool_iff in Q. exact Q.
      * apply post_ret. unfold level_static.
        cbn [Level.config Level.screen_width Level.screen_height Level.lane_height
             Level.lane_count Level.finish_padding Level.safe_zone_height
             Level.player Level.lanes Level._won Level.with_state].
        do 10 (split; [assumption |]).
        rewrite Ewon. intros D; discriminate D.
Qed.

Lemma session_level_static (cfg : LevelConfig) (W H : Z) (ops : list Level.op) :
  post (Level.session cfg (W, H) ops)
    (fun s => level_static cfg W H s /\ level_inv cfg s).
Proof.
  apply post_conj; [| apply session_level_inv].
  unfold Level.session.
  eapply post_bind; [apply new_level_static |].
  intros s Hs. apply run_invariant; [| | exact Hs].
  - intros s0. apply start_level_static.
  - intros s0 dt events. apply update_level_static.
Qed.

Lemma level_lanes_nth (cfg : LevelConfig) (W H : Z) (i : nat) (lc : LaneConfig) :
  nth_error (cfg_lanes cfg) i = Some lc ->
  nth_error (level_lanes cfg W H) i
  = Some (Level.make_lane W H (cfg_lane_height cfg) (cfg_lane_height cfg)
            (Z.of_nat i, lc)).
Proof.
  intros Hi. unfold level_lanes.
  rewrite nth_error_map, (enumerate_nth_error _ _ _ Hi). reflexivity.
Qed.

(** X12.  The layout of a level never changes during a session.  With
    [lh] the lane height of the configuration and [H] the screen height, the
    lane built from entry [i] of the configuration's lane list always
    occupies the full-width band from [y = H - (i + 2) * lh] down to
    [H - (i + 1) * lh]: lane 0 sits directly on the bottom safe zone and each
    lane directly on the one before; it keeps the direction (normalised to
    +1 or -1), speed, spawn period and gap of its entry.  The level has one
    lane per entry, and when [lane_count] equals that number the top edge of
    the last lane is the finish line.  (The width of the screen is taken
    non-zero, here and below: on a screen of width 0 the background's
    [update], which [Level.update] calls, divides by zero.) *)
Theorem level_layout (cfg : LevelConfig) (W H : Z) (ops : list Level.op)
  (w : World) (i : nat) (lc : LaneConfig) :
  W <> 0 ->
  nth_error (cfg_lanes cfg) i = Some lc ->
  let s := fst (Level.session cfg (W, H) ops w) in
  let lh := cfg_lane_height cfg in
  length (Level.lanes s) = length (cfg_lanes cfg) /\
  Level._finish_line_y s = H - (cfg_lane_count cfg + 1) * lh /\
  exists lane,
    nth_error (Level.lanes s) i = Some lane /\
    Lane.rect lane = Rect.mk 0 (H - (Z.of_nat i + 2) * lh) W lh /\
    Lane.direction lane = (if 0 <=? cfg_direction lc then 1 else -1) /\
    Lane.speed lane = cfg_speed lc /\
    Lane.spawn_every lane = cfg_spawn_every lc /\
    Lane.min_gap lane = cfg_gap_min lc /\
    (Z.of_nat i + 1 = cfg_lane_count cfg ->
     Rect.top (Lane.rect lane) = Level._finish_line_y s).
Proof.
  intros _ Hi s lh.
  destruct (session_level_static cfg W H ops w)
    as ((A1 & A2 & A3 & A4 & A5 & A6 & A7 & Hp & Hl & Ha & Hw) & _).
  fold s in A1, A2, A3, A4, A5, A6, A7, Hp, Hl, Ha, Hw. clearbody s.
  assert (Ef : Level._finish_line_y s = H - (cfg_lane_count cfg + 1) * lh).
  { unfold Level._finish_line_y. rewrite A3, A4, A5, A7. subst lh. lia. }
  split.
  { rewrite <- (Forall2_length Hl). unfold level_lanes, Level.enumerate.
    rewrite length_map, length_combine, range_length, Nat2Z.id. lia. }
  split; [exact Ef |].
  destruct (Forall2_nth_error _ _ _ _ _ Hl (level_lanes_nth cfg W H i lc Hi))
    as (lane & Hlane & Er & Ed & Es & Ee & _ & _ & Eg).
  exists lane. split; [exact Hlane |].
  rewrite make_lane_rect in Er.
  split; [rewrite Er; f_equal; subst lh; lia |].
  split; [rewrite Ed; reflexivity |].
  split; [rewrite Es; reflexivity |].
  split; [rewrite Ee; reflexivity |].
  split; [rewrite Eg; reflexivity |].
  intros Hlast. rewrite Er, Ef. unfold Rect.top; simpl. subst lh. nia.
Qed.

Lemma level_layout_witness :
  let s := play (_make_level 1) [press 0.09 K_UP; wait 0.5] in
  exists lane,
    nth_error (Level.lanes s) 5 = Some lane /\
    Lane.rect lane = Rect.mk 0 210 900 70 /\
    Rect.top (Lane.rect lane) = Level._finish_line_y s.
Proof.
  intros s.
  destruct (level_layout (_make_level 1) 900 700
              [Level.Start; press 0.09 K_UP; wait 0.5] sample_world 5
              (make_lane 1 5) ltac:(lia) eq_refl) as (_ & _ & lane & Hl & Hr & _ & _ & _ & _ & Ht).
  exists lane. split; [exact Hl |]. split; [exact Hr |].
  apply Ht. reflexivity.
Defined.

(** X13.  A level whose finish line lies less than 18 pixels (the player's
    radius) below the top of the screen cannot be won: the clamp of
    [Player.update] keeps the player's y at 18 or more, and [update] only
    records a win at [y <= finish line].  In no state of any session is
    such a level won, and it never earns a star.  Level 5 on the 900 x 700
    screen of main.py is one: eleven rows of 66 pixels put its finish line
    at y = -26. *)
Theorem unwinnable_level (cfg : LevelConfig) (W H : Z) (ops : list Level.op)
  (w : World) :
  W <> 0 ->
  H - (cfg_lane_count cfg + 1) * cfg_lane_height cfg < 18 ->
  let s := fst (Level.session cfg (W, H) ops w) in
  Level._finish_line_y s = H - (cfg_lane_count cfg + 1) * cfg_lane_height cfg /\
  Level._won s = false /\ Level.stars_earned s = 0.
Proof.
  intros _ Hlow s.
  destruct (session_level_static cfg W H ops w)
    as ((A1 & A2 & A3 & A4 & A5 & A6 & A7 & Hp & Hl & Ha & Hw) & _).
  fold s in A1, A2, A3, A4, A5, A6, A7, Hp, Hl, Ha, Hw. clearbody s.
  assert (Ef : Level._finish_line_y s
               = H - (cfg_lane_count cfg + 1) * cfg_lane_height cfg).
  { unfold Level._finish_line_y. rewrite A3, A4, A5, A7. lia. }
  split; [exact Ef |].
  assert (Hnw : Level._won s = false).
  { destruct (Level._won s); [| reflexivity].
    destruct (Hw eq_refl) as [Lo Hi]. rewrite Ef in Hi.
    assert (Hc : (inject_Z (H - (cfg_lane_count cfg + 1) * cfg_lane_height cfg)
                  < 18)%Q).
    { change 18%Q with (inject_Z 18). rewrite <- Zlt_Qlt. exact Hlow. }
    lra. }
  split; [exact Hnw |].
  unfold Level.stars_earned. rewrite Hnw. reflexivity.
Qed.

Lemma unwinnable_level_witness :
  nth_error LEVELS 4 = Some (_make_level 5) /\
  Level._won
    (fst (Level.session (_make_level 5) (900, 700)
            (Level.Start :: repeat (press 0.09 K_UP) 12) sample_world))
  = false.
Proof.
  split; [reflexivity |].
  assert (H : 700 - (cfg_lane_count (_make_level 5) + 1)
                    * cfg_lane_height (_make_level 5) < 18)
    by (vm_compute; reflexivity).
  assert (HW : 900 <> 0) by lia.
  exact (proj1 (proj2 (unwinnable_level (_make_level 5) 900 700
                         (Level.Start :: repeat (press 0.09 K_UP) 12)
                         sample_world HW H))).
Defined.

(** ** Level: where obstacles can hit *)

Lemma Forall2_In_r {A B} (R : A -> B -> Prop) (l : list A) (l' : list B) (b : B) :
  Forall2 R l l' -> In b l' -> exists a, In a l /\ R a b.
Proof.
  intros F. induction F as [| x y l l' Hxy _ IH]; intros Hb; [destruct Hb |].
  destruct Hb as [-> | Hb].
  - exists x. split; [left; reflexivity | exact Hxy].
  - destruct (IH Hb) as (a & Ha & Hab). exists a. split; [right; exact Ha | exact Hab].
Qed.

Lemma in_enumerate {A} (l : list A) (i : Z) (a : A) :
  In (i, a) (Level.enumerate l) -> 0 <= i /\ In a l.
Proof.
  unfold Level.enumerate, range. intros H. split.
  - apply in_combine_l in H. apply in_map_iff in H.
    destruct H as (n & <- & _). lia.
  - apply in_combine_r in H. exact H.
Qed.

Lemma session_lanes (cfg : LevelConfig) (W H : Z) (ops : list Level.op) :
  post (Level.session cfg (W, H) ops)
    (fun s => Forall (lane_in_level cfg W H) (Level.lanes s)).
Proof.
  eapply post_weaken; [apply session_level_static |].
  intros s ((A1 & A2 & A3 & A4 & A5 & A6 & A7 & Hp & Hl & Ha & Hw) & (Hh & Hok & _)).
  apply Forall_forall. intros lane Hin.
  destruct (Forall2_In_r _ _ _ _ Hl Hin) as (l0 & Hl0 & Hsame).
  unfold level_lanes in Hl0. apply in_map_iff in Hl0.
  destruct Hl0 as ([i lc] & <- & Hi).
  apply in_enumerate in Hi. destruct Hi as [Hi Hlc].
  unfold lanes_ok in Hok. rewrite Forall_forall in Hok, Ha.
  destruct (Hok lane Hin) as (_ & Eh & Hg & Hu). rewrite Hh in Eh.
  specialize (Ha lane Hin).
  destruct Hsame as (Er & _ & _ & _ & _ & _ & Eg).
  rewrite make_lane_rect in Er.
  assert (Er' : Lane.rect lane
                = Rect.mk 0 (H - (i + 2) * cfg_lane_height cfg) W
                    (cfg_lane_height cfg)).
  { rewrite Er. f_equal. lia. }
  exists i, lc. split; [exact Hlc |]. split; [exact Hi |].
  split; [exact Er' |]. split; [rewrite Eg; reflexivity |].
  split; [exact Hg |].
  unfold lane_aligned in Ha. unfold uniform in Hu. rewrite Forall_forall in Ha, Hu.
  apply Forall_forall. intros o Ho.
  destruct (Hu o Ho) as (_ & Hht & _).
  split; [rewrite Hht; exact Eh |].
  rewrite (Ha o Ho), Er', Eh. unfold Rect.centery; simpl. reflexivity.
Qed.

(** On the lane heights that [_make_level] produces, the hitbox of a centred
    obstacle lies within the lane's band. *)
Lemma hitbox_band (lh Y : Z) (o : Obstacle.t) :
  61 <= lh <= 70 ->
  Rect.height (Obstacle.rect o) = Level.car_height lh ->
  Rect.y (Obstacle.rect o) = Y + lh / 2 - Level.car_height lh / 2 ->
  Y <= Rect.y (Level.hitbox o) /\
  Rect.y (Level.hitbox o) + Rect.height (Level.hitbox o) <= Y + lh /\
  0 < Rect.height (Level.hitbox o).
Proof.
  intros Hlh Hh Hy. unfold Level.hitbox, Rect.inflate; cbn [Rect.y Rect.height].
  rewrite Hh, Hy. clear Hh Hy.
  assert (C : lh = 61 \/ lh = 62 \/ lh = 63 \/ lh = 64 \/ lh = 65 \/ lh = 66 \/
              lh = 67 \/ lh = 68 \/ lh = 69 \/ lh = 70) by lia.
  repeat (destruct C as [-> | C]); try subst lh;
    (set (ch := Level.car_height _); vm_compute in ch; subst ch;
     set (pad := Z.max 4 _); vm_compute in pad; subst pad;
     repeat match goal with
            | |- context [Z.quot ?a ?b] =>
                let v := eval vm_compute in (Z.quot a b) in
                change (Z.quot a b) with v
            | |- context [Z.div ?a ?b] =>
                let v := eval vm_compute in (Z.div a b) in
                change (Z.div a b) with v
            end;
     lia).
Qed.

Lemma colliderect_overlap_y (a b : Rect.t) :
  Rect.colliderect a b = true -> 0 <= Rect.height a -> 0 <= Rect.height b ->
  Rect.y a < Rect.y b + Rect.height b /\ Rect.y b < Rect.y a + Rect.height a.
Proof.
  unfold Rect.colliderect. intros H Ha Hb.
  destruct (_ || _); [discriminate H |].
  repeat (apply andb_true_iff in H; destruct H as [H ?]).
  repeat match goal with
         | X : (_ <? _) = true |- _ => apply Z.ltb_lt in X
         | X : (_ >? _) = true |- _ => apply Z.gtb_lt in X
         end.
  lia.
Qed.

Lemma make_level_height (k : Z) : 61 <= cfg_lane_height (_make_level k) <= 70.
Proof. unfold _make_level; cbn [cfg_lane_height]. lia. Qed.

Lemma make_level_gap (k : Z) (lc : LaneConfig) :
  In lc (cfg_lanes (_make_level k)) -> 95 <= cfg_gap_min lc.
Proof.
  unfold _make_level; cbn [cfg_lanes]. intros H. apply in_map_iff in H.
  destruct H as (i & <- & _). unfold make_lane; cbn [cfg_gap_min]. lia.
Qed.

(** X14.  On every level that [_make_level] generates, on any screen of
    non-zero width and in every state of a session, the hitbox of each obstacle lies within the
    band of its own lane, and every lane lies above the bottom safe zone.
    So a rectangle can only collide with an obstacle of a lane whose band
    it overlaps vertically. *)
Theorem hitboxes_stay_in_lane (k W H : Z) (ops : list Level.op) (w : World)
  (pr : Rect.t) :
  W <> 0 ->
  let s := fst (Level.session (_make_level k) (W, H) ops w) in
  Forall (fun lane =>
            Rect.bottom (Lane.rect lane) <= H - cfg_lane_height (_make_level k) /\
            Forall (fun o =>
                      Rect.top (Lane.rect lane) <= Rect.top (Level.hitbox o) /\
                      Rect.bottom (Level.hitbox o) <= Rect.bottom (Lane.rect lane) /\
                      (0 <= Rect.height pr ->
                       Rect.colliderect pr (Level.hitbox o) = true ->
                       Rect.top (Lane.rect lane) < Rect.bottom pr /\
                       Rect.top pr < Rect.bottom (Lane.rect lane)))
              (Lane.obstacles lane))
    (Level.lanes s).
Proof.
  intros _ s.
  pose proof (session_lanes (_make_level k) W H ops w) as Hl.
  fold s in Hl. clearbody s.
  pose proof (make_level_height k) as Hlh.
  eapply Forall_impl; [| exact Hl].
  intros lane (i & lc & _ & Hi & Er & _ & _ & Ho). cbv zeta in *.
  set (lh := cfg_lane_height (_make_level k)) in *. clearbody lh.
  rewrite Er. unfold Rect.bottom, Rect.top; cbn [Rect.y Rect.height].
  split; [nia |].
  eapply Forall_impl; [| exact Ho].
  intros o (Hh & Hy).
  destruct (hitbox_band lh (H - (i + 2) * lh) o Hlh Hh Hy) as (B1 & B2 & B3).
  split; [exact B1 |]. split; [exact B2 |].
  intros Hpr Hc.
  destruct (colliderect_overlap_y pr (Level.hitbox o) Hc Hpr ltac:(lia)) as [C1 C2].
  lia.
Qed.

Lemma hitboxes_stay_in_lane_witness :
  Forall (fun lane =>
            Forall (fun o =>
                      Rect.top (Lane.rect lane) <= Rect.top (Level.hitbox o) /\
                      Rect.bottom (Level.hitbox o) <= Rect.bottom (Lane.rect lane))
              (Lane.obstacles lane))
    (Level.lanes
       (fst (Level.session (_make_level 3) (900, 700)
               [Level.Start; wait 0.5; press 0.09 K_UP] sample_world))).
Proof.
  assert (HW : 900 <> 0) by lia.
  pose proof (hitboxes_stay_in_lane 3 900 700
                [Level.Start; wait 0.5; press 0.09 K_UP] sample_world
                (Rect.mk 433 649 34 32) HW) as H.
  cbv zeta in H.
  eapply Forall_impl; [| exact H].
  intros lane (_ & Ho). eapply Forall_impl; [| exact Ho].
  intros o (A & B & _). split; assumption.
Defined.

Lemma lost_by_collision_session (cfg : LevelConfig) (screen_size : Z * Z)
  (ops : list Level.op) :
  post (Level.session cfg screen_size ops) lost_by_collision.
Proof.
  unfold Level.session.
  eapply post_bind with (P := lost_by_collision).
  { intros w. unfold Level.__init__. destruct screen_size as [sw sh].
    unfold bind, Player.__init__, ret, lost_by_collision; simpl.
    intros E; discriminate E. }
  intros s Hs. apply run_invariant; [| | exact Hs].
  - intros s0 _. unfold Level.start.
    eapply post_bind; [apply post_true |]. intros ls _. apply post_ret.
    unfold lost_by_collision; simpl. intros E; discriminate E.
  - intros s0 dt events H0. unfold Level.update.
    destruct (negb (Level._running s0) || Level._won s0 || Level._lost s0) eqn:E.
    + apply post_ret. exact H0.
    + apply orb_false_iff in E. destruct E as [E Elost].
      eapply post_bind; [apply post_true |]. intros ls _. cbv zeta.
      destruct (Level.collides _ _) eqn:C.
      * apply post_ret. unfold lost_by_collision; simpl. intros _. exact C.
      * destruct (Qle_bool _ _); apply post_ret;
          unfold lost_by_collision; simpl; rewrite Elost;
          intros D; discriminate D.
Qed.

Lemma player_rect_top (cfg : LevelConfig) (W H : Z) (p : Player.t) (y0 : Z) :
  player_placed cfg W H p -> (inject_Z y0 <= Player.y p)%Q ->
  y0 - 16 <= Rect.y (Player.rect p) /\ 0 <= Rect.height (Player.rect p) /\
  Rect.width (Player.rect p) <= 34.
Proof.
  intros (_ & _ & Hr & _ & _ & _ & Hs) Hy. unfold Player.rect.
  destruct Hs as [-> | ->]; cbv zeta; rewrite ?Hr.
  - set (cr := Z.max 6 (18 - Z.max 0 (py_int (fmul (inject_Z 18) (fl 0.35))))).
    assert (Ecr : cr = 12) by (vm_compute; reflexivity).
    clearbody cr. subst cr. cbn [Rect.y Rect.height Rect.width].
    destruct (py_int_near (Player.y p - inject_Z 12)) as [_ B].
    assert (G : (inject_Z (y0 - 12) < inject_Z (py_int (Player.y p - inject_Z 12) + 1))%Q).
    { rewrite inject_Z_plus. unfold Z.sub. rewrite inject_Z_plus, inject_Z_opp.
      change (inject_Z 1) with 1%Q. lra. }
    rewrite <- Zlt_Qlt in G. lia.
  - set (cw := Z.max 8 (46 - py_int (fmul (inject_Z 46) (fl 0.28)))).
    set (ch := Z.max 8 (46 - py_int (fmul (inject_Z 46) (fl 0.32)))).
    assert (Ecw : cw = 34) by (vm_compute; reflexivity).
    assert (Ech : ch = 32) by (vm_compute; reflexivity).
    clearbody cw ch. subst cw ch. cbn [Rect.y Rect.height Rect.width].
    destruct (py_int_near (Player.y p - inject_Z 32 / 2)) as [_ B].
    assert (G : (inject_Z (y0 - 16)
                 < inject_Z (py_int (Player.y p - inject_Z 32 / 2) + 1))%Q).
    { rewrite inject_Z_plus. unfold Z.sub. rewrite inject_Z_plus, inject_Z_opp.
      change (inject_Z 1) with 1%Q. change (inject_Z 16) with 16%Q.
      assert (B' : (Player.y p - 16
                    < inject_Z (py_int (Player.y p - inject_Z 32 / 2)) + 1)%Q).
      { eapply Qle_lt_trans; [| exact B].
        apply Qle_lteq. right. change (inject_Z 32) with 32%Q. field. }
      lra. }
    rewrite <- Zlt_Qlt in G. lia.
Qed.

(** X15.  The start row is safe.  On every generated level, on a screen of
    non-zero width and in every state of a session, a player standing on the start row or below it (y at
    least [H - lane_height // 2], where [start] puts the player) touches no
    obstacle's hitbox, and the level is not lost: one cannot lose without
    moving up. *)
Theorem start_row_is_safe (k W H : Z) (ops : list Level.op) (w : World) :
  W <> 0 ->
  let s := fst (Level.session (_make_level k) (W, H) ops w) in
  (inject_Z (H - cfg_lane_height (_make_level k) / 2) <= Player.y (Level.player s))%Q ->
  Level.collides (Player.rect (Level.player s))
    (map Lane.obstacles (Level.lanes s)) = false /\
  Level._lost s = false.
Proof.
  intros _ s Hy.
  pose proof (session_lanes (_make_level k) W H ops w) as Hl.
  destruct (session_level_static (_make_level k) W H ops w)
    as ((_ & _ & _ & _ & _ & _ & _ & Hp & _) & _).
  pose proof (lost_by_collision_session (_make_level k) (W, H) ops w) as Hlost.
  fold s in Hl, Hp, Hlost. clearbody s.
  pose proof (make_level_height k) as Hlh.
  destruct (player_rect_top _ _ _ _ _ Hp Hy) as (Ht & Hht & _).
  unfold lane_in_level in Hl. cbv zeta in Hl.
  set (lh := cfg_lane_height (_make_level k)) in *. clearbody lh.
  assert (Hc : Level.collides (Player.rect (Level.player s))
                 (map Lane.obstacles (Level.lanes s)) = false).
  { destruct (Level.collides _ _) eqn:C; [| reflexivity]. exfalso.
    apply collides_exists in C. destruct C as (lane & o & Hlane & Ho & Hc).
    rewrite Forall_forall in Hl.
    destruct (Hl lane Hlane) as (i & lc & _ & Hi & Er & _ & _ & Hobs).
    rewrite Forall_forall in Hobs.
    destruct (Hobs o Ho) as (Hh & Hyo).
    destruct (hitbox_band lh (H - (i + 2) * lh) o Hlh Hh Hyo) as (B1 & B2 & B3).
    destruct (colliderect_overlap_y _ _ Hc Hht ltac:(lia)) as [C1 C2].
    assert (D : lh / 2 + 16 <= lh).
    { pose proof (Z.div_mod lh 2 ltac:(lia)).
      pose proof (Z.mod_pos_bound lh 2 ltac:(lia)). lia. }
    nia. }
  split; [exact Hc |].
  destruct (Level._lost s) eqn:E; [| reflexivity].
  rewrite (Hlost E) in Hc. discriminate Hc.
Qed.

Lemma start_row_is_safe_witness :
  Level._lost
    (fst (Level.session (_make_level 1) (900, 700)
            [Level.Start; press 0.09 K_LEFT; wait 0.5; press 0.09 K_DOWN]
            sample_world)) = false.
Proof.
  refine (proj2 (start_row_is_safe 1 900 700
                   [Level.Start; press 0.09 K_LEFT; wait 0.5; press 0.09 K_DOWN]
                   sample_world _ _)).
  - lia.
  - vm_compute. discriminate.
Defined.

Lemma separated_weaken (g g' : Z) (a b : Rect.t) :
  g' <= g -> separated g a b -> separated g' a b.
Proof. unfold separated. lia. Qed.

Lemma pairwise_impl {A} (R S : A -> A -> Prop) (l : list A) :
  (forall a b, R a b -> S a b) -> ForallOrdPairs R l -> ForallOrdPairs S l.
Proof.
  intros H F. induction F as [| a l Ha _ IH]; constructor; [| exact IH].
  eapply Forall_impl; [| exact Ha]. intros b. apply H.
Qed.

(** X16.  There is always room to cross.  On every generated level, on a
    screen of non-zero width and in every state of a session, any two obstacles of one lane are at least 95
    pixels apart along x, while the player's collision rectangle is at most
    34 pixels wide. *)
Theorem gaps_wider_than_player (k W H : Z) (ops : list Level.op) (w : World) :
  W <> 0 ->
  let s := fst (Level.session (_make_level k) (W, H) ops w) in
  Forall (fun lane =>
            95 <= Lane.min_gap lane /\
            ForallOrdPairs (obstacles_separated 95) (Lane.obstacles lane))
    (Level.lanes s) /\
  Rect.width (Player.rect (Level.player s)) <= 34.
Proof.
  intros _ s.
  pose proof (session_lanes (_make_level k) W H ops w) as Hl.
  destruct (session_level_static (_make_level k) W H ops w)
    as ((_ & _ & _ & _ & _ & _ & _ & Hp & _) & _).
  fold s in Hl, Hp. clearbody s.
  split.
  - eapply Forall_impl; [| exact Hl].
    intros lane (i & lc & Hlc & _ & _ & Eg & Hg & _).
    pose proof (make_level_gap k lc Hlc) as G95. rewrite <- Eg in G95.
    split; [exact G95 |].
    eapply pairwise_impl; [| exact Hg].
    intros a b. apply separated_weaken. exact G95.
  - assert (Hy : (inject_Z (Qfloor (Player.y (Level.player s)))
                  <= Player.y (Level.player s))%Q) by apply Qfloor_le.
    destruct (player_rect_top _ _ _ _ _ Hp Hy) as (_ & _ & Hw). exact Hw.
Qed.

Lemma gaps_wider_than_player_witness :
  Rect.width
    (Player.rect
       (Level.player
          (fst (Level.session (_make_level 2) (900, 700)
                  [Level.Start; wait 0.5; press 0.09 K_UP] sample_world))))
  <= 34.
Proof.
  assert (HW : 900 <> 0) by lia.
  exact (proj2 (gaps_wider_than_player 2 900 700
                  [Level.Start; wait 0.5; press 0.09 K_UP] sample_world HW)).
Defined.

(** ** Button and UI *)

Lemma half_bounds (n : Z) : 2 * (n / 2) <= n < 2 * (n / 2) + 2.
Proof.
  pose proof (Z.div_mod n 2 ltac:(lia)).
  pose proof (Z.mod_pos_bound n 2 ltac:(lia)). lia.
Qed.

Lemma collidepoint_spec (r : Rect.t) (pos : Z * Z) :
  RectMore.collidepoint r pos = true <->
  Rect.left r <= fst pos < Rect.right r /\ Rect.top r <= snd pos < Rect.bottom r.
Proof.
  unfold RectMore.collidepoint, Rect.left, Rect.right, Rect.top, Rect.bottom.
  rewrite !andb_true_iff, !Z.geb_le, !Z.ltb_lt. lia.
Qed.

(** X17.  A button reports a click exactly when it is enabled and the event
    is a press of the left mouse button (button 1) at a point inside its
    rectangle, the right and bottom edges excluded; a disabled button never
    fires, nor does any key or other event.  A button built with a
    non-negative size has exactly that size and is centred on the given
    point, and when the size is positive a left click on the centre
    fires. *)
Theorem button_click (txt : String.string) (center size : Z * Z) (e : input)
  (b : Button.t) :
  (Button.handle_event b e = true <->
   Button.enabled b = true /\
   exists pos, e = MOUSEBUTTONDOWN 1 pos /\
               Rect.left (Button.rect b) <= fst pos < Rect.right (Button.rect b) /\
               Rect.top (Button.rect b) <= snd pos < Rect.bottom (Button.rect b)) /\
  (let b0 := Button.__init__ txt center size in
   Button.enabled b0 = true /\
   Rect.width (Button.rect b0) = fst size /\
   Rect.height (Button.rect b0) = snd size /\
   (0 <= fst size -> 0 <= snd size -> RectMore.center (Button.rect b0) = center) /\
   (0 < fst size -> 0 < snd size ->
    Button.handle_event b0 (MOUSEBUTTONDOWN 1 center) = true)).
Proof.
  split.
  - unfold Button.handle_event.
    destruct (Button.enabled b); simpl.
    + destruct e as [button pos | ev].
      * destruct (Z.eqb_spec button 1) as [-> | Hb].
        -- destruct (RectMore.collidepoint (Button.rect b) pos) eqn:C.
           ++ apply collidepoint_spec in C. split; [| reflexivity].
              intros _. split; [reflexivity |]. exists pos. tauto.
           ++ split; [discriminate |].
              intros (_ & pos' & E & H). inversion E; subst pos'.
              apply collidepoint_spec in H. congruence.
        -- split; [discriminate |].
           intros (_ & pos' & E & _). inversion E; subst. contradiction.
      * split; [discriminate |]. intros (_ & pos' & E & _). discriminate E.
    + split; [discriminate |]. intros (E & _). discriminate E.
  - intros b0. subst b0. destruct center as [cx cy], size as [w h].
    unfold Button.__init__, RectMore.set_center, RectMore.center,
      RectMore.centerx, Rect.centery; simpl.
    split; [reflexivity |]. split; [reflexivity |]. split; [reflexivity |].
    split.
    + intros Hw Hh. f_equal; lia.
    + intros Hw Hh. unfold Button.handle_event; simpl.
      assert (C : RectMore.collidepoint
                    (Rect.mk (cx - w / 2) (cy - h / 2) w h) (cx, cy) = true).
      { apply collidepoint_spec.
        unfold Rect.left, Rect.right, Rect.top, Rect.bottom; simpl.
        pose proof (half_bounds w). pose proof (half_bounds h). lia. }
      rewrite C. reflexivity.
Qed.

Lemma button_click_witness :
  Button.handle_event Main.btn_start (MOUSEBUTTONDOWN 1 (450, 360)) = true /\
  RectMore.center (Button.rect Main.btn_start) = (450, 360).
Proof.
  destruct (button_click "Start"%string (450, 360) (220, 55)
              (MOUSEBUTTONDOWN 1 (450, 360)) Main.btn_start) as (_ & _ & _ & _ & C & F).
  split; [apply F; simpl; lia | apply C; simpl; lia].
Defined.

(** X18.  [_draw_stars] always draws exactly three stars, 90 pixels apart
    on the row of the given centre and centred on it; the filled ones come
    first from the left and their number is [stars] clamped to [[0, 3]].
    On the end overlay of a [w] x [h] screen the middle star is at
    [(w // 2, h // 2 + 15)]. *)
Theorem stars_drawn (center : Z * Z) (stars w h : Z) :
  let n := Z.to_nat (Z.max 0 (Z.min 3 stars)) in
  map (fun d => fst (fst (fst d))) (UI._draw_stars center stars)
  = [(fst center - 90, snd center); center; (fst center + 90, snd center)] /\
  map snd (UI._draw_stars center stars) = repeat true n ++ repeat false (3 - n) /\
  map (fun d => fst (fst (fst d))) (UI.draw_end_overlay_stars w h stars)
  = [(w / 2 - 90, h / 2 + 15); (w / 2, h / 2 + 15); (w / 2 + 90, h / 2 + 15)].
Proof.
  intros n. subst n. destruct center as [cx cy].
  unfold UI.draw_end_overlay_stars, UI.end_panel, UI._draw_stars,
    RectMore.set_center, RectMore.centerx, Rect.top.
  change (range 3) with [0; 1; 2].
  cbn [map fst snd Rect.x Rect.y Rect.width Rect.height].
  change (640 / 2) with 320. change (360 / 2) with 180.
  split; [| split].
  - replace (cx + (0 - 1) * 90) with (cx - 90) by lia.
    replace (cx + (1 - 1) * 90) with cx by lia.
    replace (cx + (2 - 1) * 90) with (cx + 90) by lia.
    reflexivity.
  - destruct (Z.ltb_spec 0 stars) as [H0 | H0];
      destruct (Z.ltb_spec 1 stars) as [H1 | H1];
      destruct (Z.ltb_spec 2 stars) as [H2 | H2]; try lia.
    + replace (Z.max 0 (Z.min 3 stars)) with 3 by lia. reflexivity.
    + replace (Z.max 0 (Z.min 3 stars)) with 2 by lia. reflexivity.
    + replace (Z.max 0 (Z.min 3 stars)) with 1 by lia. reflexivity.
    + replace (Z.max 0 (Z.min 3 stars)) with 0 by lia. reflexivity.
  - set (w2 := w / 2). set (h2 := h / 2). clearbody w2 h2.
    replace (h2 - 40 - 180 + 235) with (h2 + 15) by lia.
    replace (w2 - 320 + 320 + (0 - 1) * 90) with (w2 - 90) by lia.
    replace (w2 - 320 + 320 + (1 - 1) * 90) with w2 by lia.
    replace (w2 - 320 + 320 + (2 - 1) * 90) with (w2 + 90) by lia.
    reflexivity.
Qed.

(** ** The road background *)

Lemma py_fmod_zero (a : Q) (m : Z) :
  m <> 0 -> (a == 0)%Q -> exists r, py_fmod a m = Some r /\ (r == 0)%Q.
Proof.
  intros Hm Ha. unfold py_fmod.
  destruct (Z.eqb_spec m 0) as [? | _]; [contradiction |].
  cbv zeta.
  assert (E : py_int (a / py_float m) = 0).
  { rewrite (py_int_Qeq (a / py_float m) 0); [reflexivity |].
    rewrite Ha. unfold Qdiv. ring. }
  rewrite E.
  assert (R : Qeq_bool (a - py_float m * inject_Z 0) 0 = true).
  { apply Qeq_bool_iff. rewrite Ha. ring. }
  rewrite R. exists 0%Q. split; reflexivity.
Qed.

(** The remainder of a positive modulus that is a double: it lies between 0
    and the modulus, which it reaches only from a negative operand. *)
Lemma py_fmod_range (a : Q) (m : Z) :
  0 < m -> m <= 2 ^ 53 ->
  exists r, py_fmod a m = Some r /\ (0 <= r)%Q /\ (r <= inject_Z m)%Q /\
            ((0 <= a)%Q -> (r < inject_Z m)%Q).
Proof.
  intros Hm Hb. unfold py_fmod, py_float.
  destruct (Z.eqb_spec m 0) as [? | _]; [lia |].
  assert (Hq : (0 < inject_Z m)%Q)
    by (change 0%Q with (inject_Z 0); rewrite <- Zlt_Qlt; exact Hm).
  cbv zeta.
  set (q := (a / inject_Z m)%Q).
  assert (Ea : (a == inject_Z m * q)%Q).
  { subst q. field. intros E. rewrite E in Hq. apply (Qlt_irrefl 0). exact Hq. }
  destruct (py_int_near q) as [N1 N2].
  assert (Sg : ((0 <= a)%Q -> (inject_Z (py_int q) <= q)%Q) /\
               ((a <= 0)%Q -> (q <= inject_Z (py_int q))%Q)).
  { split; intros H.
    - apply py_int_le_nonneg. apply Qnot_lt_le. intros L.
      assert (G : (inject_Z m * q < inject_Z m * 0)%Q)
        by (apply Qmult_lt_l; assumption).
      rewrite <- Ea in G. lra.
    - apply py_int_ge_nonpos. apply Qnot_lt_le. intros L.
      assert (G : (inject_Z m * 0 < inject_Z m * q)%Q)
        by (apply Qmult_lt_l; assumption).
      rewrite <- Ea in G. lra. }
  destruct Sg as [Sp Sn].
  set (t := inject_Z (py_int q)) in *.
  set (rem := (a - inject_Z m * t)%Q).
  assert (B1 : (- inject_Z m < rem)%Q).
  { assert (G : (inject_Z m * (t - 1) < inject_Z m * q)%Q)
      by (apply Qmult_lt_l; assumption).
    unfold rem. rewrite Ea.
    setoid_replace (inject_Z m * (t - 1))%Q
      with (inject_Z m * t - inject_Z m)%Q in G by ring.
    set (mt := (inject_Z m * t)%Q) in *. set (mq := (inject_Z m * q)%Q) in *.
    clearbody mt mq. lra. }
  assert (B2 : (rem < inject_Z m)%Q).
  { assert (G : (inject_Z m * q < inject_Z m * (t + 1))%Q)
      by (apply Qmult_lt_l; assumption).
    unfold rem. rewrite Ea.
    setoid_replace (inject_Z m * (t + 1))%Q
      with (inject_Z m * t + inject_Z m)%Q in G by ring.
    set (mt := (inject_Z m * t)%Q) in *. set (mq := (inject_Z m * q)%Q) in *.
    clearbody mt mq. lra. }
  assert (B3 : (0 <= a)%Q -> (0 <= rem)%Q).
  { intros H. specialize (Sp H).
    assert (G : (inject_Z m * t <= inject_Z m * q)%Q)
      by (apply Qmult_le_l; assumption).
    unfold rem. rewrite Ea.
    set (mt := (inject_Z m * t)%Q) in *. set (mq := (inject_Z m * q)%Q) in *.
    clearbody mt mq. lra. }
  clearbody rem.
  destruct (Qeq_bool rem 0) eqn:Z.
  - exists 0%Q. split; [reflexivity |]. split; [lra |].
    split; [lra | intros _; exact Hq].
  - assert (F : (m <? 0) = false) by (apply Z.ltb_ge; lia).
    rewrite F. cbn [xorb].
    destruct (Qle_bool 0 rem) eqn:P; cbn [negb].
    + apply Qle_bool_iff in P. exists rem. split; [reflexivity |].
      split; [exact P |]. split; [lra | intros _; exact B2].
    + apply Qle_bool_false in P. exists (fadd rem (inject_Z m)).
      split; [reflexivity |].
      split; [apply fl_nonneg; lra |].
      split.
      * rewrite <- (fl_inject_Z m) at 2 by lia. apply fl_mono. lra.
      * intros H. specialize (B3 H). lra.
Qed.

Lemma road_updates_still (dts : list Q) (b : ScrollingRoadBackground.t) :
  ScrollingRoadBackground.screen_width b <> 0 ->
  (ScrollingRoadBackground.scroll_speed b == 0)%Q ->
  (ScrollingRoadBackground._offset_x b == 0)%Q ->
  exists b',
    ScrollingRoadBackground.updates b dts = Some b' /\
    (ScrollingRoadBackground._offset_x b' == 0)%Q /\
    ScrollingRoadBackground.screen_width b' = ScrollingRoadBackground.screen_width b /\
    ScrollingRoadBackground._lane_rects b' = ScrollingRoadBackground._lane_rects b.
Proof.
  revert b. induction dts as [| dt rest IH]; intros b Hw Hs Ho; simpl.
  - exists b. split; [reflexivity |]. split; [exact Ho |]. split; reflexivity.
  - unfold ScrollingRoadBackground.update.
    destruct (py_fmod_zero
                (fadd (ScrollingRoadBackground._offset_x b)
                   (fmul (ScrollingRoadBackground.scroll_speed b) dt))
                (ScrollingRoadBackground.screen_width b) Hw) as (r & -> & Hr).
    { unfold fadd, fmul.
      assert (E1 : (ScrollingRoadBackground.scroll_speed b * dt == 0)%Q)
        by (rewrite Hs; ring).
      rewrite (fl_of_zero _ E1).
      assert (E2 : (ScrollingRoadBackground._offset_x b + 0 == 0)%Q)
        by (rewrite Ho; ring).
      rewrite (fl_of_zero _ E2). reflexivity. }
    destruct (IH (ScrollingRoadBackground.mk
                    (ScrollingRoadBackground.screen_width b)
                    (ScrollingRoadBackground.screen_height b)
                    (ScrollingRoadBackground.scroll_speed b) r
                    (ScrollingRoadBackground._lane_rects b)))
      as (b' & E & Ho' & Ew & El); [exact Hw | exact Hs | exact Hr |].
    exists b'. split; [exact E |]. split; [exact Ho' |]. split; assumption.
Qed.

(** X19.  The road background never scrolls.  Whatever [scroll_speed] is
    passed to the constructor, the speed stored is 0; on a screen of
    non-zero width any sequence of [update] calls succeeds and leaves the
    offset at 0, so [draw] always blits the two copies of each lane's
    picture at x = 0 and x = screen_width. *)
Theorem background_never_scrolls (image_loads : bool) (W H : Z)
  (lane_rects : list Rect.t) (speed_arg : Q) (dts : list Q)
  (b : ScrollingRoadBackground.t) :
  ScrollingRoadBackground.__init__ image_loads (W, H) lane_rects speed_arg = Some b ->
  W <> 0 ->
  (ScrollingRoadBackground.scroll_speed b == 0)%Q /\
  exists b',
    ScrollingRoadBackground.updates b dts = Some b' /\
    (ScrollingRoadBackground._offset_x b' == 0)%Q /\
    ScrollingRoadBackground.draw b'
    = map (fun r => ((0, Rect.top r), (W, Rect.top r))) lane_rects.
Proof.
  intros Hb Hw. unfold ScrollingRoadBackground.__init__ in Hb.
  destruct (_ && _); [| discriminate Hb]. inversion Hb; subst b; clear Hb.
  split; [reflexivity |].
  destruct (road_updates_still dts
              (ScrollingRoadBackground.mk W H 0.0 0.0 lane_rects))
    as (b' & E & Ho & Ew & El); [exact Hw | reflexivity | reflexivity |].
  exists b'. split; [exact E |]. split; [exact Ho |].
  unfold ScrollingRoadBackground.draw. rewrite Ew, El. simpl.
  assert (Ei : py_int (ScrollingRoadBackground._offset_x b') = 0).
  { rewrite (py_int_Qeq _ 0 Ho). reflexivity. }
  rewrite Ei. reflexivity.
Qed.

Lemma background_never_scrolls_witness :
  exists b b',
    ScrollingRoadBackground.__init__ true (900, 700) [Rect.mk 0 560 900 70] 140
    = Some b /\
    ScrollingRoadBackground.updates b [0.016%Q; 0.5%Q] = Some b' /\
    ScrollingRoadBackground.draw b' = [((0, 560), (900, 560))].
Proof.
  eexists. 
  destruct (background_never_scrolls true 900 700 [Rect.mk 0 560 900 70] 140
              [0.016%Q; 0.5%Q] _ eq_refl ltac:(lia)) as (_ & b' & E & _ & D).
  exists b'. split; [reflexivity |]. split; [exact E | exact D].
Defined.

(** X20.  [ScrollingRoadBackground.update] on a background of any speed:
    with a screen width of 0 the modulo raises (no result); with a positive
    width (up to [2^53]) the call succeeds, changes nothing but the offset,
    and leaves the offset in [[0, screen_width]], so that the two copies
    [draw] blits, at [x1 = -int(offset)] and [x1 + screen_width], start at
    or left of the left edge and end at or right of the right edge.  The
    offset stays below [screen_width], and the second copy starts inside
    the screen, when the new offset before the modulo is not negative; from
    a negative one the double sum of the remainder and the width can be the
    width itself. *)
Theorem background_update_wraps (b : ScrollingRoadBackground.t) (dt : Q) :
  (ScrollingRoadBackground.screen_width b = 0 ->
   ScrollingRoadBackground.update b dt = None) /\
  (0 < ScrollingRoadBackground.screen_width b ->
   ScrollingRoadBackground.screen_width b <= 2 ^ 53 ->
   exists b',
     ScrollingRoadBackground.update b dt = Some b' /\
     ScrollingRoadBackground.screen_width b' = ScrollingRoadBackground.screen_width b /\
     ScrollingRoadBackground.screen_height b' = ScrollingRoadBackground.screen_height b /\
     ScrollingRoadBackground.scroll_speed b' = ScrollingRoadBackground.scroll_speed b /\
     ScrollingRoadBackground._lane_rects b' = ScrollingRoadBackground._lane_rects b /\
     (0 <= ScrollingRoadBackground._offset_x b')%Q /\
     (ScrollingRoadBackground._offset_x b'
      <= inject_Z (ScrollingRoadBackground.screen_width b))%Q /\
     Forall (fun d =>
               let x1 := fst (fst d) in
               let x2 := fst (snd d) in
               x1 <= 0 /\ x2 = x1 + ScrollingRoadBackground.screen_width b /\
               0 <= x2)
       (ScrollingRoadBackground.draw b') /\
     ((0 <= fadd (ScrollingRoadBackground._offset_x b)
              (fmul (ScrollingRoadBackground.scroll_speed b) dt))%Q ->
      (ScrollingRoadBackground._offset_x b'
       < inject_Z (ScrollingRoadBackground.screen_width b))%Q /\
      Forall (fun d => 0 < fst (snd d)) (ScrollingRoadBackground.draw b'))).
Proof.
  split.
  - intros E. unfold ScrollingRoadBackground.update, py_fmod. rewrite E. reflexivity.
  - intros Hw Hb. unfold ScrollingRoadBackground.update.
    destruct (py_fmod_range
                (fadd (ScrollingRoadBackground._offset_x b)
                   (fmul (ScrollingRoadBackground.scroll_speed b) dt))
                (ScrollingRoadBackground.screen_width b) Hw Hb)
      as (r & -> & R0 & R1 & R2).
    eexists. split; [reflexivity |]. cbn [ScrollingRoadBackground.screen_width
      ScrollingRoadBackground.screen_height ScrollingRoadBackground.scroll_speed
      ScrollingRoadBackground._lane_rects ScrollingRoadBackground._offset_x].
    do 4 (split; [reflexivity |]). split; [exact R0 |]. split; [exact R1 |].
    unfold ScrollingRoadBackground.draw.
    cbn [ScrollingRoadBackground.screen_width ScrollingRoadBackground._lane_rects
         ScrollingRoadBackground._offset_x].
    pose proof (py_int_nonneg r R0) as P0.
    pose proof (py_int_le_nonneg r R0) as P1.
    assert (P2 : py_int r <= ScrollingRoadBackground.screen_width b).
    { rewrite Zle_Qle. lra. }
    split.
    + apply Forall_map. apply Forall_forall. intros rc _. cbn [fst snd]. lia.
    + intros Hn. specialize (R2 Hn). split; [exact R2 |].
      apply Forall_map. apply Forall_forall. intros rc _. cbn [fst snd].
      assert (P3 : py_int r < ScrollingRoadBackground.screen_width b).
      { rewrite Zlt_Qlt. lra. }
      lia.
Qed.

Lemma background_update_wraps_witness :
  let b := ScrollingRoadBackground.mk 900 700 140 850 [Rect.mk 0 560 900 70] in
  exists b',
    ScrollingRoadBackground.update b 0.5 = Some b' /\
    (ScrollingRoadBackground._offset_x b' == 20)%Q /\
    ScrollingRoadBackground.update
      (ScrollingRoadBackground.mk 0 700 140 0 []) 0.5 = None.
Proof.
  intros b.
  destruct (background_update_wraps b 0.5) as (_ & H).
  destruct (H ltac:(simpl; lia) ltac:(simpl; lia)) as (b' & E & _).
  exists b'. split; [exact E |].
  split.
  - assert (E' : Some b' = ScrollingRoadBackground.update b 0.5) by (symmetry; exact E).
    vm_compute in E'. inversion E'. reflexivity.
  - apply (proj1 (background_update_wraps
                    (ScrollingRoadBackground.mk 0 700 140 0 []) 0.5)).
    reflexivity.
Defined.

(** A background moved to the left by a tiny amount: the remainder is
    negative, its double sum with the width is the width, and the two copies
    are blitted at [-900] and [0]. *)
Lemma background_offset_reaches_width :
  let b := ScrollingRoadBackground.mk 900 700 (-1) 0 [Rect.mk 0 560 900 70] in
  exists b',
    ScrollingRoadBackground.update b (pow2 (-70)) = Some b' /\
    (ScrollingRoadBackground._offset_x b' == 900)%Q /\
    ScrollingRoadBackground.draw b' = [((-900, 560), (0, 560))].
Proof.
  intros b. eexists. split; [vm_compute; reflexivity |].
  split; vm_compute; reflexivity.
Qed.

(** ** The main loop *)

Lemma levels_nth (k : Z) :
  0 <= k <= 4 -> nth (Z.to_nat k) LEVELS (_make_level 1) = _make_level (k + 1).
Proof.
  intros H.
  assert (C : k = 0 \/ k = 1 \/ k = 2 \/ k = 3 \/ k = 4) by lia.
  destruct C as [-> | [-> | [-> | [-> | ->]]]]; reflexivity.
Qed.

Lemma start_flags (s : Level.t) :
  post (Level.start s)
    (fun s' => Level._running s' = true /\ Level._won s' = false /\
               Level._lost s' = false).
Proof.
  unfold Level.start. eapply post_bind; [apply post_true |].
  intros ls _. apply post_ret. simpl. tauto.
Qed.

Lemma update_flags (s : Level.t) (dt : Q) (events : list event) :
  post (Level.update s dt events)
    (fun s' => Level._running s = true -> Level._won s = false ->
               Level._lost s = false ->
               Level._won s' = false -> Level._lost s' = false ->
               Level._running s' = true).
Proof.
  intros w Hr Hw Hl. rewrite (update_running s dt events w Hr Hw Hl).
  cbv zeta. cbn [fst Level._won Level._lost Level._running Level.with_state].
  destruct (Level.collides _ _); destruct (Qle_bool _ _); simpl;
    intros; congruence.
Qed.

Lemma start_level_post (idx : Z) (a : Main.t) :
  post (Main.start_level idx a)
    (fun a' => app_inv a' /\ Main.state a' = Main.STATE_PLAYING /\
               Main.level_index a' = Z.max 0 (Z.min idx 4) /\
               Main.running a' = Main.running a /\
               Main.btn_next_enabled a' = Main.btn_next_enabled a /\
               Main.level a' <> None).
Proof.
  unfold Main.start_level.
  change (Z.of_nat (length LEVELS) - 1) with 4. cbv zeta.
  set (k := Z.max 0 (Z.min idx 4)).
  rewrite (levels_nth k) by (subst k; lia).
  eapply post_bind; [apply new_level_static |]. intros lvl Hl.
  eapply post_bind.
  { apply post_conj; [apply start_level_static; exact Hl | apply start_flags]. }
  intros lvl' (Hs & Hf). apply post_ret.
  split.
  - unfold app_inv. cbn [Main.level_index Main.level Main.state].
    split; [subst k; lia |]. split; [exact Hs | exact Hf].
  - cbn [Main.level_index Main.level Main.state Main.running Main.btn_next_enabled].
    repeat split; try reflexivity. discriminate.
Qed.

Lemma for_events_inv (J : Main.t -> Prop) (body : Main.t -> input -> Rand Main.t) :
  (forall a e, J a -> post (body a e) J) ->
  forall events a, J a -> post (Main.for_events body events a) J.
Proof.
  intros Hb. induction events as [| e rest IH]; intros a Ha; simpl.
  - apply post_ret. exact Ha.
  - eapply post_bind; [apply Hb; exact Ha | intros a' Ha'; apply IH; exact Ha'].
Qed.

Lemma keeps_start_level (a0 : Main.t) (P : Z -> Prop) (idx : Z) (a : Main.t) :
  keeps a0 P a -> P (Z.max 0 (Z.min idx 4)) ->
  post (Main.start_level idx a)
    (fun a' => keeps a0 P a' /\ Main.state a' = Main.STATE_PLAYING /\
               Main.level a' <> None).
Proof.
  intros (Hi & Hr & Hp) HP.
  eapply post_weaken; [apply start_level_post |].
  intros a' (Hi' & Hst & Hidx & Hrun & _ & Hne).
  split; [| split; assumption].
  split; [exact Hi' |]. split; [rewrite Hrun; exact Hr | rewrite Hidx; exact HP].
Qed.

Lemma keeps_with_running (a0 : Main.t) (P : Z -> Prop) (a : Main.t) :
  keeps a0 P a -> keeps a0 P (Main.with_running a false).
Proof.
  intros (Hi & Hr & Hp). split; [exact Hi |]. split; [reflexivity | exact Hp].
Qed.

Lemma keeps_with_state_home (a0 : Main.t) (P : Z -> Prop) (a : Main.t) :
  keeps a0 P a -> keeps a0 P (Main.with_state a Main.STATE_HOME).
Proof.
  intros ((Hb & Hl) & Hr & Hp). split; [| split; assumption].
  split; [exact Hb |]. unfold Main.with_state; cbn [Main.level Main.state Main.level_index].
  destruct (Main.level a) as [lvl |]; [| reflexivity].
  split; [apply Hl | exact I].
Qed.

Lemma home_event_inv (a0 : Main.t) (a : Main.t) (e : input) :
  let P := fun i => i = Main.level_index a0 \/ i = 0 in
  keeps a0 P a -> post (Main.home_event a e) (keeps a0 P).
Proof.
  intros P Ha. unfold Main.home_event.
  eapply post_bind with (P := keeps a0 P).
  { destruct (Button.handle_event Main.btn_start e).
    - eapply post_weaken;
        [apply (keeps_start_level a0 P 0 a Ha); right; reflexivity |].
      intros a' H. apply H.
    - apply post_ret. exact Ha. }
  intros a1 H1. apply post_ret.
  destruct (Button.handle_event Main.btn_quit e);
    [apply keeps_with_running; exact H1 | exact H1].
Qed.

Lemma playing_event_inv (a0 : Main.t) (a : Main.t) (e : input) :
  let P := fun i => i = Main.level_index a0 in
  let J := fun a => keeps a0 P a /\ Main.level a <> None /\
                    (Main.state a = Main.STATE_HOME \/
                     Main.state a = Main.STATE_PLAYING) in
  J a -> post (Main.playing_event a e) J.
Proof.
  intros P J (Ha & Hne & Hst). unfold Main.playing_event.
  assert (Hsame : post (ret a) J)
    by (apply post_ret; split; [exact Ha | split; assumption]).
  destruct e as [b p | ev]; [exact Hsame |].
  destruct ev as [k | k | | n]; try exact Hsame.
  destruct k; try exact Hsame.
  - apply post_ret. split; [apply keeps_with_state_home; exact Ha |].
    split; [exact Hne | left; reflexivity].
  - eapply post_weaken.
    { apply (keeps_start_level a0 P (Main.level_index a) a Ha).
      destruct Ha as ((Hb & _) & _ & Hp). unfold P in *.
      rewrite <- Hp. lia. }
    intros a' (H1 & H2 & H3). split; [exact H1 |]. split; [exact H3 | right; exact H2].
Qed.

Lemma end_event_inv (a0 : Main.t) (P : Z -> Prop) (has_next : bool)
  (a : Main.t) (e : input) :
  (forall i, 0 <= i <= 4 -> P i -> has_next = true -> P (Z.max 0 (Z.min (i + 1) 4))) ->
  keeps a0 P a -> post (Main.end_event has_next a e) (keeps a0 P).
Proof.
  intros Hnext Ha. unfold Main.end_event. cbv zeta.
  set (a1 := if Button.handle_event Main.btn_home e then _ else a).
  assert (H1 : keeps a0 P a1).
  { subst a1. destruct (Button.handle_event Main.btn_home e);
      [apply keeps_with_state_home; exact Ha | exact Ha]. }
  clearbody a1.
  eapply post_bind with (P := keeps a0 P).
  { destruct (Button.handle_event Main.btn_retry e).
    - eapply post_weaken.
      { apply (keeps_start_level a0 P (Main.level_index a1) a1 H1).
        destruct H1 as ((Hb & _) & _ & Hp).
        replace (Z.max 0 (Z.min (Main.level_index a1) 4))
          with (Main.level_index a1) by lia.
        exact Hp. }
      intros a' H. apply H.
    - apply post_ret. exact H1. }
  intros a2 H2.
  destruct (Button.handle_event (Main.btn_next a2) e && has_next) eqn:E.
  - apply andb_true_iff in E. destruct E as [_ E].
    eapply post_weaken.
    { apply (keeps_start_level a0 P (Main.level_index a2 + 1) a2 H2).
      destruct H2 as ((Hb & _) & _ & Hp). apply Hnext; assumption. }
    intros a' H. apply H.
  - apply post_ret. exact H2.
Qed.

(** One frame, from a state that satisfies the invariant: no assertion
    fails, the invariant holds again, and the variables change as
    [frame_rel] says. *)
Lemma frame_step (dt : Q) (events : list input) (a : Main.t) :
  app_inv a ->
  post (Main.frame dt events a)
    (fun r => exists a', r = Some a' /\ app_inv a' /\ frame_rel events a a').
Proof.
  intros Ha. unfold Main.frame. cbv zeta.
  set (aq := if existsb Main.is_quit events then Main.with_running a false else a).
  assert (Hq : app_inv aq /\ Main.state aq = Main.state a /\
               Main.level_index aq = Main.level_index a /\
               (existsb Main.is_quit events = true \/ Main.running a = false ->
                Main.running aq = false)).
  { subst aq. destruct (existsb Main.is_quit events).
    - split; [exact Ha |]. split; [reflexivity |]. split; [reflexivity |].
      intros _. reflexivity.
    - split; [exact Ha |]. split; [reflexivity |]. split; [reflexivity |].
      intros [D | D]; [discriminate D | exact D]. }
  clearbody aq. destruct Hq as (Hi & Est & Eidx & Hrun).
  unfold frame_rel. rewrite <- Est, <- Eidx.
  assert (Hfin : forall (P : Z -> Prop) a',
             keeps aq P a' ->
             app_inv a' /\
             (existsb Main.is_quit events = true \/ Main.running a = false ->
              Main.running a' = false) /\ P (Main.level_index a')).
  { intros P a' (H1 & H2 & H3). split; [exact H1 |].
    split; [intros D; apply H2, Hrun, D | exact H3]. }
  assert (Hk : forall P : Z -> Prop, P (Main.level_index aq) -> keeps aq P aq).
  { intros P HP. split; [exact Hi |]. split; [tauto | exact HP]. }
  destruct (Main.state aq) eqn:Est'.
  - (* HOME *)
    eapply post_bind.
    { apply for_events_inv with
        (J := keeps aq (fun i => i = Main.level_index aq \/ i = 0)).
      - intros a1 e H1. apply (home_event_inv aq a1 e H1).
      - apply Hk. left; reflexivity. }
    intros a' H'. apply post_ret. exists a'. split; [reflexivity |].
    destruct (Hfin _ _ H') as (F1 & F2 & F3). split; [exact F1 |].
    split; assumption.
  - (* PLAYING *)
    destruct (Main.level aq) as [lvl0 |] eqn:El.
    2: { destruct Hi as (_ & Hl). rewrite El in Hl. congruence. }
    eapply post_bind.
    { apply for_events_inv with
        (J := fun a1 => keeps aq (fun i => i = Main.level_index aq) a1 /\
                        Main.level a1 <> None /\
                        (Main.state a1 = Main.STATE_HOME \/
                         Main.state a1 = Main.STATE_PLAYING)).
      - intros a1 e H1. apply (playing_event_inv aq a1 e H1).
      - split; [apply Hk; reflexivity |].
        split; [rewrite El; discriminate | right; exact Est']. }
    intros a1 (H1 & Hne & Hst).
    destruct (Main.level a1) as [lvl |] eqn:El1; [| congruence].
    destruct (Hfin _ _ H1) as (F1 & F2 & F3).
    destruct F1 as (Hb & Hl). rewrite El1 in Hl. destruct Hl as (Hstat & Hflags).
    eapply post_bind.
    { apply post_conj;
        [apply update_level_static; exact Hstat | apply update_flags]. }
    intros lvl' (Hstat' & Hfl').
    unfold Level.is_won, Level.is_lost.
    destruct (Level._won lvl') eqn:Ew; [| destruct (Level._lost lvl') eqn:Elo];
      apply post_ret; eexists; (split; [reflexivity |]);
      (split; [| split; [exact F2 | exact F3]]);
      unfold app_inv;
      cbn [Main.level_index Main.level Main.state Main.with_state Main.with_level];
      (split; [exact Hb |]); (split; [exact Hstat' |]).
    + exact Ew.
    + exact Elo.
    + destruct Hst as [-> | Hp]; [exact I |].
      rewrite Hp in *. destruct Hflags as (R & W & L).
      split; [apply Hfl'; first [assumption | reflexivity] | split; assumption].
  - (* WIN *)
    destruct (Main.level aq) as [lvl0 |] eqn:El.
    2: { destruct Hi as (_ & Hl). rewrite El in Hl. congruence. }
    cbv zeta.
    set (has_next := true && (Main.level_index aq <? Z.of_nat (length LEVELS) - 1)).
    set (a0 := Main.mk Main.STATE_WIN (Main.running aq) (Main.level_index aq)
                 (Some lvl0) has_next).
    assert (H0 : keeps aq (fun i => Main.level_index aq <= i) a0).
    { split; [| split; [intros D; exact D | simpl; lia]].
      destruct Hi as (Hb & Hl). rewrite El, Est' in Hl.
      split; [exact Hb | exact Hl]. }
    clearbody a0.
    eapply post_bind.
    { apply for_events_inv with (J := keeps aq (fun i => Main.level_index aq <= i));
        [| exact H0].
      intros a1 e H1. apply end_event_inv; [| exact H1].
      intros i Hi4 HP _. cbv beta in *. lia. }
    intros a' H'. apply post_ret. exists a'. split; [reflexivity |].
    destruct (Hfin _ _ H') as (F1 & F2 & F3). split; [exact F1 |].
    split; assumption.
  - (* LOSE *)
    destruct (Main.level aq) as [lvl0 |] eqn:El.
    2: { destruct Hi as (_ & Hl). rewrite El in Hl. congruence. }
    cbv zeta.
    set (a0 := Main.mk Main.STATE_LOSE (Main.running aq) (Main.level_index aq)
                 (Some lvl0) _).
    assert (H0 : keeps aq (fun i => i = Main.level_index aq) a0).
    { split; [| split; [intros D; exact D | reflexivity]].
      destruct Hi as (Hb & Hl). rewrite El, Est' in Hl.
      split; [exact Hb | exact Hl]. }
    clearbody a0.
    eapply post_bind.
    { apply for_events_inv with (J := keeps aq (fun i => i = Main.level_index aq));
        [| exact H0].
      intros a1 e H1. apply end_event_inv; [| exact H1].
      intros i _ _ D. discriminate D. }
    intros a' H'. apply post_ret. exists a'. split; [reflexivity |].
    destruct (Hfin _ _ H') as (F1 & F2 & F3). split; [exact F1 |].
    split; assumption.
Qed.

Lemma initial_inv : app_inv Main.initial.
Proof. split; [simpl; lia | reflexivity]. Qed.

Lemma main_loop_inv (frames : list (Q * list input)) (a : Main.t) :
  app_inv a ->
  post (Main.main_loop frames a) (fun r => exists a', r = Some a' /\ app_inv a').
Proof.
  revert a. induction frames as [| [dt events] rest IH]; intros a Ha; simpl.
  - apply post_ret. exists a. split; [reflexivity | exact Ha].
  - destruct (Main.running a).
    + eapply post_bind; [apply frame_step; exact Ha |].
      intros r (a' & -> & Ha' & _). apply IH. exact Ha'.
    + apply post_ret. exists a. split; [reflexivity | exact Ha].
Qed.

Lemma won_index (a : Main.t) (lvl : Level.t) :
  app_inv a -> Main.level a = Some lvl -> Level._won lvl = true ->
  Main.level_index a <= 3.
Proof.
  intros (Hb & Hl) El Hw. rewrite El in Hl. destruct Hl as (Hs & _).
  destruct (Z.eq_dec (Main.level_index a) 4) as [E4 | ?]; [| lia].
  exfalso. rewrite E4 in Hs.
  destruct Hs as (_ & _ & A3 & A4 & A5 & _ & A7 & _ & _ & _ & Hwon).
  destruct (Hwon Hw) as [Lo Hi].
  unfold Level._finish_line_y in Hi. rewrite A3, A4, A5, A7 in Hi.
  assert (E : Main.SCREEN_HEIGHT - cfg_lane_height (_make_level (4 + 1))
              - cfg_lane_count (_make_level (4 + 1))
                * cfg_lane_height (_make_level (4 + 1)) = -26)
    by reflexivity.
  rewrite E in Hi. change (inject_Z (-26)) with (-26)%Q in Hi. lra.
Qed.

Lemma won_stars (lvl : Level.t) :
  Level._won lvl = true -> 1 <= Level.stars_earned lvl <= 3.
Proof.
  intros Hw. unfold Level.stars_earned. rewrite Hw. simpl.
  destruct (Qle_bool _ _); [lia |]. destruct (Qle_bool _ _); lia.
Qed.

(** X21.  [start_level(idx)] never fails: the index is clamped into
    [[0, len(LEVELS) - 1]] ([0 .. 4]), the level built is the one of
    [LEVELS] at the clamped index, it has been started (running, neither
    won nor lost), and the loop is left in the PLAYING state with
    [running] untouched. *)
Theorem start_level_clamps (idx : Z) (a : Main.t) (w : World) :
  let a' := fst (Main.start_level idx a w) in
  Main.state a' = Main.STATE_PLAYING /\
  Main.level_index a' = Z.max 0 (Z.min idx 4) /\
  0 <= Main.level_index a' <= 4 /\
  Main.running a' = Main.running a /\
  exists lvl,
    Main.level a' = Some lvl /\
    nth_error LEVELS (Z.to_nat (Main.level_index a')) = Some (Level.config lvl) /\
    Level.config lvl = _make_level (Main.level_index a' + 1) /\
    Level._running lvl = true /\ Level._won lvl = false /\ Level._lost lvl = false.
Proof.
  intros a'.
  destruct (start_level_post idx a w) as ((Hb & Hl) & Hst & Hidx & Hrun & _ & Hne).
  fold a' in Hb, Hl, Hst, Hidx, Hrun, Hne. clearbody a'.
  split; [exact Hst |]. split; [exact Hidx |]. split; [exact Hb |].
  split; [exact Hrun |].
  destruct (Main.level a') as [lvl |]; [| congruence].
  destruct Hl as (Hs & Hf). rewrite Hst in Hf.
  exists lvl. split; [reflexivity |].
  destruct Hs as (Ec & _). rewrite Ec.
  split.
  { assert (C : Main.level_index a' = 0 \/ Main.level_index a' = 1 \/
                Main.level_index a' = 2 \/ Main.level_index a' = 3 \/
                Main.level_index a' = 4) by lia.
    destruct C as [-> | [-> | [-> | [-> | ->]]]]; reflexivity. }
  split; [reflexivity | exact Hf].
Qed.

(** X22.  The invariant of the main loop.  From the state in which [main]
    enters its loop and over any sequence of frames (any frame times, any
    events), no [assert level is not None] ever fails, and afterwards:
    the level index is in [[0, 4]]; outside the HOME screen there is a
    level, built from [LEVELS[level_index]], which is running and neither
    won nor lost in PLAYING, won in WIN and lost in LOSE.  On the WIN screen
    the overlay shows between one and three stars, on the LOSE screen none.
    The WIN screen is never reached on the last level (index 4), whose
    finish line lies above the screen. *)
Theorem main_loop_invariant (frames : list (Q * list input)) (w : World) :
  exists a,
    fst (Main.main_loop frames Main.initial w) = Some a /\
    0 <= Main.level_index a <= 4 /\
    (Main.state a <> Main.STATE_HOME ->
     exists lvl,
       Main.level a = Some lvl /\
       Level.config lvl = _make_level (Main.level_index a + 1) /\
       (Main.state a = Main.STATE_PLAYING ->
        Level._running lvl = true /\ Level._won lvl = false /\
        Level._lost lvl = false) /\
       (Main.state a = Main.STATE_WIN ->
        Level._won lvl = true /\
        Main.overlay_stars a = Some (Level.stars_earned lvl) /\
        1 <= Level.stars_earned lvl <= 3 /\
        Main.level_index a <= 3) /\
       (Main.state a = Main.STATE_LOSE ->
        Level._lost lvl = true /\ Main.overlay_stars a = Some 0)).
Proof.
  destruct (main_loop_inv frames Main.initial initial_inv w) as (a & E & Ha).
  exists a. split; [exact E |].
  pose proof Ha as (Hb & Hl). split; [exact Hb |].
  intros Hst.
  destruct (Main.level a) as [lvl |] eqn:El; [| contradiction].
  destruct Hl as (Hs & Hf). exists lvl. split; [reflexivity |].
  split; [apply Hs |].
  unfold Main.overlay_stars. rewrite El.
  split; [| split]; intros Est; rewrite Est in Hf; rewrite ?Est.
  - exact Hf.
  - split; [exact Hf |]. split; [reflexivity |].
    split; [apply won_stars; exact Hf |].
    apply (won_index a lvl Ha El Hf).
  - split; [exact Hf | reflexivity].
Qed.

(** X23.  The next level is only reached by winning.  In any state the
    main loop can reach, one more frame (which always completes) leaves the
    level index unchanged when it starts in PLAYING or on the LOSE screen,
    leaves it unchanged or resets it to 0 when it starts on the HOME
    screen, and can raise it only when it starts on the WIN screen. *)
Theorem next_level_only_after_win (frames : list (Q * list input)) (w : World) :
  exists a,
    fst (Main.main_loop frames Main.initial w) = Some a /\
    forall dt events w',
    exists a',
      fst (Main.frame dt events a w') = Some a' /\
      0 <= Main.level_index a' <= 4 /\
      match Main.state a with
      | Main.STATE_HOME =>
          Main.level_index a' = Main.level_index a \/ Main.level_index a' = 0
      | Main.STATE_PLAYING | Main.STATE_LOSE =>
          Main.level_index a' = Main.level_index a
      | Main.STATE_WIN => Main.level_index a <= Main.level_index a'
      end.
Proof.
  destruct (main_loop_inv frames Main.initial initial_inv w) as (a & E & Ha).
  exists a. split; [exact E |].
  intros dt events w'.
  destruct (frame_step dt events a Ha w') as (a' & E' & Ha' & (_ & Hrel)).
  exists a'. split; [exact E' |]. split; [apply Ha' | exact Hrel].
Qed.

(** X24.  Quitting.  In any state the main loop can reach, a frame whose
    events contain a QUIT event still runs to its end and leaves [running]
    false, whatever else the frame receives, and the loop then stops: the
    frames after it are not processed.  Once false, [running] is never set
    again. *)
Theorem quit_stops_loop (frames : list (Q * list input)) (w : World) :
  exists a,
    fst (Main.main_loop frames Main.initial w) = Some a /\
    forall dt events rest w',
    exists a',
      fst (Main.frame dt events a w') = Some a' /\
      (In (EVENT QUIT) events -> Main.running a' = false) /\
      (Main.running a = false -> Main.running a' = false) /\
      (In (EVENT QUIT) events -> Main.running a = true ->
       fst (Main.main_loop ((dt, events) :: rest) a w') = Some a') /\
      (Main.running a = false ->
       fst (Main.main_loop ((dt, events) :: rest) a w') = Some a).
Proof.
  destruct (main_loop_inv frames Main.initial initial_inv w) as (a & E & Ha).
  exists a. split; [exact E |].
  intros dt events rest w'.
  destruct (frame_step dt events a Ha w') as (a' & E' & Ha' & (Hrun & _)).
  assert (Hq : In (EVENT QUIT) events -> existsb Main.is_quit events = true).
  { intros Hin. apply existsb_exists. exists (EVENT QUIT). split; [exact Hin | reflexivity]. }
  exists a'. split; [exact E' |].
  split; [intros Hin; apply Hrun; left; apply Hq, Hin |].
  split; [intros Hr; apply Hrun; right; exact Hr |].
  split.
  - intros Hin Hr. simpl. rewrite Hr. unfold bind.
    destruct (Main.frame dt events a w') as [r w1] eqn:F. simpl in E'. subst r.
    assert (Hr' : Main.running a' = false) by (apply Hrun; left; apply Hq, Hin).
    destruct rest as [| [dt2 ev2] rest2]; simpl; [reflexivity |].
    rewrite Hr'. reflexivity.
  - intros Hr. simpl. rewrite Hr. reflexivity.
Qed.

Lemma quit_stops_loop_witness :
  exists a a',
    fst (Main.main_loop [] Main.initial sample_world) = Some a /\
    fst (Main.main_loop [(0.016%Q, [EVENT QUIT]); (0.016%Q, [MOUSEBUTTONDOWN 1 (450, 360)])]
           a sample_world) = Some a' /\
    Main.running a' = false /\ Main.state a' = Main.STATE_HOME.
Proof.
  destruct (quit_stops_loop [] sample_world) as (a & E & H).
  assert (Ea : a = Main.initial) by (simpl in E; inversion E; reflexivity).
  destruct (H 0.016%Q [EVENT QUIT] [(0.016%Q, [MOUSEBUTTONDOWN 1 (450, 360)])]
              sample_world) as (a' & F & Hq & _ & Hloop & _).
  exists a, a'. split; [exact E |].
  split; [apply Hloop; [left; reflexivity | rewrite Ea; reflexivity] |].
  split; [apply Hq; left; reflexivity |].
  rewrite Ea in F. simpl in F. inversion F. reflexivity.
Defined.

(** ** Level: the clock and restarting *)

(** Adding a non-negative step to a double never gives less. *)
Lemma fadd_ge (t dt : Q) : (fl t == t)%Q -> (0 <= dt)%Q -> (t <= fadd t dt)%Q.
Proof.
  intros Ht Hd. rewrite <- Ht at 1. apply fl_mono. lra.
Qed.

Lemma fadd_double (t dt : Q) : (fl (fadd t dt) == fadd t dt)%Q.
Proof. apply fl_idem. Qed.

Lemma clock_sum_ge (dts : list Q) (t : Q) :
  (fl t == t)%Q -> Forall (fun dt => 0 <= dt)%Q dts ->
  (t <= fold_left fadd dts t)%Q /\
  (fl (fold_left fadd dts t) == fold_left fadd dts t)%Q.
Proof.
  intros Ht H. revert t Ht. induction H as [| dt rest Hd _ IH]; intros t Ht.
  - simpl. split; [apply Qle_refl | exact Ht].
  - cbn [fold_left]. destruct (IH (fadd t dt) (fadd_double t dt)) as [A B].
    split; [| exact B].
    apply (Qle_trans _ (fadd t dt)); [| exact A].
    apply fadd_ge; [exact Ht | exact Hd].
Qed.

Lemma run_updates_stopped (calls : list (Q * list event)) (s : Level.t)
  (w : World) :
  Level._running s = false \/ Level._won s = true \/ Level._lost s = true ->
  fst (Level.run s (update_ops calls) w) = s.
Proof.
  intros H. revert w. induction calls as [| [d e] r IHr]; intros w; simpl;
    [reflexivity |].
  unfold bind. rewrite (update_not_running s d e w) by exact H.
  cbn [fst snd]. apply IHr.
Qed.

Lemma run_updates_clock (calls : list (Q * list event)) (s : Level.t) (w : World) :
  (fl (Level._time_elapsed s) == Level._time_elapsed s)%Q ->
  Forall (fun c => 0 <= fst c)%Q calls ->
  let s' := fst (Level.run s (update_ops calls) w) in
  let sum := fold_left fadd (map fst calls) (Level._time_elapsed s) in
  (Level._time_elapsed s <= Level._time_elapsed s')%Q /\
  (fl (Level._time_elapsed s') == Level._time_elapsed s')%Q /\
  (Level._time_elapsed s' <= sum)%Q /\
  (Level._running s' = true -> Level._won s' = false -> Level._lost s' = false ->
   Level._time_elapsed s' = sum).
Proof.
  intros Ht Hc. revert s w Ht.
  induction Hc as [| [dt events] rest Hdt Hrest IH]; intros s w Ht.
  - simpl. repeat split; try assumption; apply Qle_refl.
  - cbn [fst] in Hdt.
    assert (Hds : Forall (fun dt => 0 <= dt)%Q (map fst ((dt, events) :: rest))).
    { apply Forall_map. constructor; assumption. }
    destruct (clock_sum_ge _ (Level._time_elapsed s) Ht Hds) as [G _].
    destruct (Level._running s) eqn:R;
      [destruct (Level._won s) eqn:W; [| destruct (Level._lost s) eqn:L] |].
    + rewrite (run_updates_stopped ((dt, events) :: rest) s w)
        by (right; left; exact W).
      cbv zeta. repeat split; try assumption; try apply Qle_refl; congruence.
    + rewrite (run_updates_stopped ((dt, events) :: rest) s w)
        by (right; right; exact L).
      cbv zeta. repeat split; try assumption; try apply Qle_refl; congruence.
    + cbn [update_ops map Level.run Level.apply fst snd fold_left].
      unfold bind.
      rewrite (update_running s dt events w R W L). cbv zeta. cbn [fst snd].
      match goal with
      | |- context [Level.run ?s1 (map _ rest) ?w1] =>
          specialize (IH s1 w1); fold (update_ops rest); cbv zeta in IH;
          cbn [Level._time_elapsed Level.with_state] in IH
      end.
      destruct (IH (fadd_double _ _)) as (I1 & I2 & I3 & I4).
      split; [| split; [exact I2 | split; [exact I3 | exact I4]]].
      apply (Qle_trans _ (fadd (Level._time_elapsed s) dt)); [| exact I1].
      apply fadd_ge; [exact Ht | exact Hdt].
    + rewrite (run_updates_stopped ((dt, events) :: rest) s w)
        by (left; exact R).
      cbv zeta. repeat split; try assumption; try apply Qle_refl; congruence.
Qed.

(** X25.  The level clock.  Over any sequence of [update] calls with
    non-negative time steps, from a state whose clock is a double (as the
    clock of every state of a session is), the elapsed time of a level never
    decreases and stays a double; while the level is still running (neither
    won nor lost) it is the time at the start with the steps added one by
    one in double arithmetic, and it never exceeds that double sum.  A level
    that is not running, or is won or lost, keeps its time: the clock stops
    at the moment of winning or losing.  (The screen width is taken
    non-zero, as above.) *)
Theorem level_clock (s : Level.t) (calls : list (Q * list event)) (w : World) :
  Level.screen_width s <> 0 ->
  (fl (Level.time_elapsed s) == Level.time_elapsed s)%Q ->
  Forall (fun c => 0 <= fst c)%Q calls ->
  let s' := fst (Level.run s (update_ops calls) w) in
  let sum := fold_left fadd (map fst calls) (Level.time_elapsed s) in
  (Level.time_elapsed s <= Level.time_elapsed s')%Q /\
  (fl (Level.time_elapsed s') == Level.time_elapsed s')%Q /\
  (Level.time_elapsed s' <= sum)%Q /\
  (Level._running s' = true -> Level._won s' = false -> Level._lost s' = false ->
   Level.time_elapsed s' = sum) /\
  (Level._running s = false \/ Level._won s = true \/ Level._lost s = true ->
   Level.time_elapsed s' = Level.time_elapsed s).
Proof.
  intros _ Ht Hc s' sum. unfold Level.time_elapsed in *.
  destruct (run_updates_clock calls s w Ht Hc) as (A & B & C & D).
  fold s' in A, B, C, D. fold sum in C, D.
  split; [exact A |]. split; [exact B |]. split; [exact C |].
  split; [exact D |].
  intros H. subst s'. rewrite (run_updates_stopped calls s w H). reflexivity.
Qed.

Lemma level_clock_witness :
  let s := play (_make_level 1) [] in
  let s' := fst (Level.run s (update_ops [(0.5%Q, []); (0.25%Q, [])]) sample_world) in
  (Level.time_elapsed s' == 0.75)%Q.
Proof.
  intros s s'.
  destruct (level_clock s [(0.5%Q, []); (0.25%Q, [])] sample_world)
    as (_ & _ & _ & H & _).
  - vm_compute. discriminate.
  - vm_compute. reflexivity.
  - repeat constructor; vm_compute; discriminate.
  - fold s' in H. rewrite H; vm_compute; reflexivity.
Defined.

(** The clock is not the exact sum of the steps: three steps of the double
    0.1 leave it above their sum, seven steps of the double 0.09 below. *)
Lemma level_clock_rounds :
  let s := play (_make_level 1) [] in
  let above := fst (Level.run s (update_ops (repeat (fl 0.1, []) 3)) sample_world) in
  let below := fst (Level.run s (update_ops (repeat (fl 0.09, []) 7)) sample_world) in
  Level._running above = true /\ Level._running below = true /\
  (fl 0.1 + fl 0.1 + fl 0.1 < Level.time_elapsed above)%Q /\
  (Level.time_elapsed below
   < fl 0.09 + fl 0.09 + fl 0.09 + fl 0.09 + fl 0.09 + fl 0.09 + fl 0.09)%Q.
Proof.
  intros s above below. vm_compute. repeat split; reflexivity.
Qed.

Lemma reset_restart (l : Lane.t) :
  post (Lane.reset l)
    (fun l' =>
       same_lane l l' /\
       (1 <= length (Lane.obstacles l') <= 3)%nat /\
       Forall (fun o =>
                 0 <= Rect.x (Obstacle.rect o)
                   <= Z.max 0 (Rect.width (Lane.rect l) - Lane.obstacle_width l))
         (Lane.obstacles l') /\
       Lane._spawn_timer l' = 0%Q).
Proof.
  eapply post_weaken.
  { apply post_conj; [apply reset_invariant | apply reset_seeds_post]. }
  intros l' ((S' & _) & (Hn & Hx & _ & Ht)).
  split; [exact S' |]. split; [exact Hn |]. split; [| exact Ht].
  eapply Forall_impl; [| exact Hx]. intros o Ho. apply Ho.
Qed.

(** X26.  [Level.start] restarts everything that moves and nothing else:
    the player is back at its start position with no cooldown pending, every
    lane keeps its rectangle and parameters and is re-seeded with one to
    three obstacles that start between x = 0 and
    [max(0, rect.width - obstacle_width)], with its spawn timer at 0; the
    clock is at 0; the configuration and the layout are untouched. *)
Theorem level_start_resets (s : Level.t) (w : World) :
  let s' := fst (Level.start s w) in
  Player.x (Level.player s') = inject_Z (Player.start_x (Level.player s)) /\
  Player.y (Level.player s') = inject_Z (Player.start_y (Level.player s)) /\
  Player._move_cooldown (Level.player s') = 0%Q /\
  player_static (Level.player s) (Level.player s') /\
  Forall2 (fun l l' =>
             same_lane l l' /\
             (1 <= length (Lane.obstacles l') <= 3)%nat /\
             Forall (fun o =>
                       0 <= Rect.x (Obstacle.rect o)
                         <= Z.max 0 (Rect.width (Lane.rect l)
                                     - Lane.obstacle_width l))
               (Lane.obstacles l') /\
             Lane._spawn_timer l' = 0%Q)
    (Level.lanes s) (Level.lanes s') /\
  Level._time_elapsed s' = 0%Q /\
  Level.config s' = Level.config s /\
  Level._finish_line_y s' = Level._finish_line_y s.
Proof.
  intros s'. subst s'. revert w.
  change (post (Level.start s)
            (fun s' =>
               Player.x (Level.player s') = inject_Z (Player.start_x (Level.player s)) /\
               Player.y (Level.player s') = inject_Z (Player.start_y (Level.player s)) /\
               Player._move_cooldown (Level.player s') = 0%Q /\
               player_static (Level.player s) (Level.player s') /\
               Forall2 (fun l l' =>
                          same_lane l l' /\
                          (1 <= length (Lane.obstacles l') <= 3)%nat /\
                          Forall (fun o =>
                                    0 <= Rect.x (Obstacle.rect o)
                                      <= Z.max 0 (Rect.width (Lane.rect l)
                                                  - Lane.obstacle_width l))
                            (Lane.obstacles l') /\
                          Lane._spawn_timer l' = 0%Q)
                 (Level.lanes s) (Level.lanes s') /\
               Level._time_elapsed s' = 0%Q /\
               Level.config s' = Level.config s /\
               Level._finish_line_y s' = Level._finish_line_y s)).
  unfold Level.start.
  eapply post_bind.
  { apply post_mapM with
      (P := fun l l' =>
              same_lane l l' /\
              (1 <= length (Lane.obstacles l') <= 3)%nat /\
              Forall (fun o =>
                        0 <= Rect.x (Obstacle.rect o)
                          <= Z.max 0 (Rect.width (Lane.rect l)
                                      - Lane.obstacle_width l))
                (Lane.obstacles l') /\
              Lane._spawn_timer l' = 0%Q).
    intros l _. apply reset_restart. }
  intros ls Hls. apply post_ret.
  cbn [Level.player Level.lanes Level._time_elapsed Level.config Level.with_state].
  split; [reflexivity |]. split; [reflexivity |]. split; [reflexivity |].
  split; [apply with_position_static |]. split; [exact Hls |].
  split; [reflexivity |]. split; reflexivity.
Qed.

(** ** The main loop: the Next button *)

Lemma click_next_only (a : Main.t) (p : Z * Z) :
  RectMore.collidepoint (Button.rect (Main.btn_next a)) p = true ->
  Button.handle_event Main.btn_home (MOUSEBUTTONDOWN 1 p) = false /\
  Button.handle_event Main.btn_retry (MOUSEBUTTONDOWN 1 p) = false /\
  (Main.btn_next_enabled a = true ->
   Button.handle_event (Main.btn_next a) (MOUSEBUTTONDOWN 1 p) = true).
Proof.
  intros C. pose proof C as C'. apply collidepoint_spec in C'.
  unfold Rect.left, Rect.right, Rect.top, Rect.bottom in C'.
  change (Rect.x (Button.rect (Main.btn_next a))) with 340 in C'.
  change (Rect.y (Button.rect (Main.btn_next a))) with 533 in C'.
  change (Rect.width (Button.rect (Main.btn_next a))) with 220 in C'.
  change (Rect.height (Button.rect (Main.btn_next a))) with 55 in C'.
  split; [| split].
  - unfold Button.handle_event. cbn [Button.enabled Main.btn_home Button.__init__ negb].
    change (1 =? 1) with true. cbv iota.
    match goal with
    | |- context [if ?c then true else false] => destruct c eqn:D
    end; [| reflexivity].
    apply collidepoint_spec in D.
    unfold Rect.left, Rect.right, Rect.top, Rect.bottom in D.
    change (Rect.y (Button.rect Main.btn_home)) with 403 in D.
    change (Rect.height (Button.rect Main.btn_home)) with 55 in D. lia.
  - unfold Button.handle_event. cbn [Button.enabled Main.btn_retry Button.__init__ negb].
    change (1 =? 1) with true. cbv iota.
    match goal with
    | |- context [if ?c then true else false] => destruct c eqn:D
    end; [| reflexivity].
    apply collidepoint_spec in D.
    unfold Rect.left, Rect.right, Rect.top, Rect.bottom in D.
    change (Rect.y (Button.rect Main.btn_retry)) with 468 in D.
    change (Rect.height (Button.rect Main.btn_retry)) with 55 in D. lia.
  - intros E. unfold Button.handle_event.
    change (Button.enabled (Main.btn_next a)) with (Main.btn_next_enabled a).
    rewrite E. cbn [negb]. change (1 =? 1) with true. cbv iota.
    rewrite C. reflexivity.
Qed.

Lemma end_event_next (a : Main.t) (p : Z * Z) :
  Main.btn_next_enabled a = true ->
  RectMore.collidepoint (Button.rect (Main.btn_next a)) p = true ->
  post (Main.end_event true a (MOUSEBUTTONDOWN 1 p))
    (fun a' => Main.state a' = Main.STATE_PLAYING /\
               Main.level_index a' = Z.max 0 (Z.min (Main.level_index a + 1) 4) /\
               Main.btn_next_enabled a' = true).
Proof.
  intros En C. destruct (click_next_only a p C) as (Hh & Hr & Hn).
  unfold Main.end_event. rewrite Hh, Hr. cbv zeta.
  eapply post_bind with (P := fun a2 => a2 = a); [apply post_ret; reflexivity |].
  intros a2 ->. rewrite (Hn En). cbn [andb].
  eapply post_weaken; [apply start_level_post |].
  intros a' (_ & Hst & Hidx & _ & Hen & _).
  split; [exact Hst |]. split; [exact Hidx | rewrite Hen; exact En].
Qed.

(** X27.  Two clicks, two levels.  On the WIN screen (in any state the main
    loop can reach) a frame that receives two left clicks inside the Next
    button starts the level two places further, clamped to the last one: the
    first click starts the next level, and the second, handled in the same
    frame with the button still enabled, starts the one after it.  The
    level in between is skipped without being played. *)
Theorem double_click_skips_level (frames : list (Q * list input)) (w : World) :
  exists a,
    fst (Main.main_loop frames Main.initial w) = Some a /\
    (Main.state a = Main.STATE_WIN ->
     forall dt p1 p2 w',
       RectMore.collidepoint (Button.rect (Main.btn_next a)) p1 = true ->
       RectMore.collidepoint (Button.rect (Main.btn_next a)) p2 = true ->
       exists a',
         fst (Main.frame dt [MOUSEBUTTONDOWN 1 p1; MOUSEBUTTONDOWN 1 p2] a w')
         = Some a' /\
         Main.state a' = Main.STATE_PLAYING /\
         Main.level_index a' = Z.min (Main.level_index a + 2) 4).
Proof.
  destruct (main_loop_inv frames Main.initial initial_inv w) as (a & E & Ha).
  exists a. split; [exact E |].
  intros Hwin dt p1 p2 w' C1 C2.
  pose proof Ha as (Hb & Hl).
  destruct (Main.level a) as [lvl |] eqn:El; [| congruence].
  destruct Hl as (_ & Hf). rewrite Hwin in Hf.
  pose proof (won_index a lvl Ha El Hf) as H3.
  revert w'.
  change (post (Main.frame dt [MOUSEBUTTONDOWN 1 p1; MOUSEBUTTONDOWN 1 p2] a)
            (fun r => exists a', r = Some a' /\
                        Main.state a' = Main.STATE_PLAYING /\
                        Main.level_index a' = Z.min (Main.level_index a + 2) 4)).
  unfold Main.frame. cbn [existsb Main.is_quit orb]. cbv zeta.
  rewrite Hwin, El. cbn [andb].
  change (Z.of_nat (length LEVELS) - 1) with 4.
  assert (Hlt : (Main.level_index a <? 4) = true) by (apply Z.ltb_lt; lia).
  rewrite Hlt.
  set (a0 := Main.mk Main.STATE_WIN (Main.running a) (Main.level_index a)
               (Some lvl) true).
  assert (I0 : Main.level_index a0 = Main.level_index a) by reflexivity.
  assert (N0 : Main.btn_next_enabled a0 = true) by reflexivity.
  assert (R0 : forall a1, Button.rect (Main.btn_next a1) = Button.rect (Main.btn_next a))
    by reflexivity.
  clearbody a0.
  eapply post_bind.
  { cbn [Main.for_events].
    eapply post_bind; [apply (end_event_next a0 p1 N0); rewrite R0; exact C1 |].
    intros a1 (S1 & I1 & N1).
    eapply post_bind; [apply (end_event_next a1 p2 N1); rewrite R0; exact C2 |].
    intros a2 (S2 & I2 & N2). apply post_ret.
    exact (conj S2 (eq_trans I2 (f_equal (fun i => Z.max 0 (Z.min (i + 1) 4)) I1))). }
  intros a' (S' & I'). apply post_ret. exists a'. split; [reflexivity |].
  split; [exact S' |]. rewrite I', I0. lia.
Qed.

Lemma double_click_skips_level_witness :
  let frames :=
    (0.016%Q, [MOUSEBUTTONDOWN 1 (450, 360)])
    :: repeat (0.09%Q, [EVENT (KEYDOWN K_UP)]) 7 in
  exists a a',
    fst (Main.main_loop frames Main.initial sample_world) = Some a /\
    Main.state a = Main.STATE_WIN /\ Main.level_index a = 0 /\
    fst (Main.frame 0.016 [MOUSEBUTTONDOWN 1 (450, 560); MOUSEBUTTONDOWN 1 (450, 560)]
           a sample_world) = Some a' /\
    Main.level_index a' = 2.
Proof.
  intros frames.
  destruct (double_click_skips_level frames sample_world) as (a & E & H).
  assert (Hst : Main.state a = Main.STATE_WIN /\ Main.level_index a = 0).
  { assert (E' : Some a = fst (Main.main_loop frames Main.initial sample_world))
      by (symmetry; exact E).
    clear E H. vm_compute in E'. inversion E'. split; reflexivity. }
  destruct Hst as [Hst Hidx].
  destruct (H Hst 0.016%Q (450, 560) (450, 560) sample_world eq_refl eq_refl)
    as (a' & E' & _ & I').
  exists a, a'. split; [exact E |]. split; [exact Hst |]. split; [exact Hidx |].
  split; [exact E' |]. rewrite I', Hidx. reflexivity.
Defined.
